(** * fix_nif_winding: the NIF parser and the winding patcher

    A shallow embedding of [tools/fix_nif_winding.py].  The [NifParser]
    object becomes a record that is threaded through a state-and-exception
    monad; Python exceptions that the script can raise ([struct.error],
    [IndexError], [UnicodeDecodeError]) are values of [exn].  Python integers
    are unbounded, hence [Z]; the buffer is a [list byte]. *)

From Stdlib Require Import ZArith List Lia Bool.
From Stdlib Require Import Strings.Byte.
From stdpp Require Import base list gmap.
Import ListNotations.
Local Open Scope Z_scope.

(** ** Bytes and little-endian integers *)

Definition byte_val (b : byte) : Z := Z.of_N (Byte.to_N b).

Definition byte_of (v : Z) : byte :=
  match Byte.of_N (Z.to_N (v mod 256)) with
  | Some b => b
  | None => x00
  end.

(** [int.from_bytes(bs, 'little')] *)
Fixpoint le_decode (bs : list byte) : Z :=
  match bs with
  | [] => 0
  | b :: r => byte_val b + 256 * le_decode r
  end.

(** the [n] low-order bytes of [v], least significant first *)
Fixpoint le_encode (n : nat) (v : Z) : list byte :=
  match n with
  | O => []
  | S k => byte_of v :: le_encode k (v / 256)
  end.

(** ** Python sequence primitives *)

(** A slice bound as Python normalises it: negative bounds count from the
    end, and everything is clamped to [0, len]. *)
Definition clamp_index (len i : Z) : Z :=
  if i <? 0 then Z.max 0 (i + len) else Z.min i len.

(** [l[lo:hi]] *)
Definition py_slice {A} (l : list A) (lo hi : Z) : list A :=
  let len := Z.of_nat (length l) in
  let lo' := clamp_index len lo in
  let hi' := clamp_index len hi in
  take (Z.to_nat (hi' - lo')) (drop (Z.to_nat lo') l).

(** [l[i]], [None] standing for [IndexError] *)
Definition py_index {A} (l : list A) (i : Z) : option A :=
  let len := Z.of_nat (length l) in
  let j := if i <? 0 then i + len else i in
  if (j <? 0) || (len <=? j) then None else l !! Z.to_nat j.

Fixpoint bytes_eqb (a b : list byte) : bool :=
  match a, b with
  | [], [] => true
  | x :: a', y :: b' => Byte.eqb x y && bytes_eqb a' b'
  | _, _ => false
  end.

(** [s.startswith(p)] *)
Fixpoint startswith (s p : list byte) : bool :=
  match p, s with
  | [], _ => true
  | y :: p', x :: s' => Byte.eqb x y && startswith s' p'
  | _ :: _, [] => false
  end.

(** [p in s] for byte strings *)
Fixpoint contains (s p : list byte) : bool :=
  startswith s p ||
  match s with
  | [] => false
  | _ :: s' => contains s' p
  end.

(** Lowest [i >= i0] such that [p] is a prefix of the rest of [l], where [l]
    is the part of the buffer from [i0] on; [-1] when there is none. *)
Fixpoint find_from (p l : list byte) (i0 : Z) : Z :=
  if startswith l p then i0
  else match l with
       | [] => -1
       | _ :: l' => find_from p l' (i0 + 1)
       end.

(** [data.find(p, lo, hi)]: the match has to lie inside [data[lo:hi]]. *)
Definition py_find (d p : list byte) (lo hi : Z) : Z :=
  let len := Z.of_nat (length d) in
  let lo' := clamp_index len lo in
  let hi' := clamp_index len hi in
  if hi' <? lo' then -1
  else find_from p (py_slice d lo' hi') lo'.

(** [s.rstrip('\x00')] *)
Fixpoint rstrip0 (s : list byte) : list byte :=
  match s with
  | [] => []
  | b :: r =>
      match rstrip0 r with
      | [] => if Byte.eqb b x00 then [] else [b]
      | r' => b :: r'
      end
  end.

(** [l.index(x)] for a list of strings, [None] standing for [ValueError] *)
Fixpoint list_index (l : list (list byte)) (x : list byte) (i : Z) : option Z :=
  match l with
  | [] => None
  | y :: l' => if bytes_eqb y x then Some i else list_index l' x (i + 1)
  end.

(** ** The struct module *)

(** Where [struct.unpack_from] and [struct.pack_into] read or write [size]
    bytes for a given [offset] in a buffer of [len] bytes; [None] is
    [struct.error].  A negative offset counts from the end. *)
Definition struct_offset (len size offset : Z) : option Z :=
  if offset <? 0 then
    if (0 <? offset + size) || (offset + len <? 0) then None
    else if len - (offset + len) <? size then None
         else Some (offset + len)
  else if len - offset <? size then None
       else Some offset.

(** [struct.unpack_from] for [n] unsigned little-endian fields of [w] bytes *)
Fixpoint le_fields (w : nat) (n : nat) (bs : list byte) : list Z :=
  match n with
  | O => []
  | S k => le_decode (take w bs) :: le_fields w k (drop w bs)
  end.

Definition unpack_from (w n : nat) (d : list byte) (offset : Z)
  : option (list Z) :=
  match struct_offset (Z.of_nat (length d)) (Z.of_nat (n * w)) offset with
  | None => None
  | Some o => Some (le_fields w n (take (n * w) (drop (Z.to_nat o) d)))
  end.

Definition unpack1 (w : nat) (d : list byte) (offset : Z) : option Z :=
  match unpack_from w 1 d offset with
  | Some [v] => Some v
  | _ => None
  end.

(** [struct.pack] of unsigned fields of [w] bytes; a value out of range is a
    [struct.error] *)
Fixpoint pack (w : nat) (vs : list Z) : option (list byte) :=
  match vs with
  | [] => Some []
  | v :: r =>
      if (v <? 0) || (2 ^ (8 * Z.of_nat w) <=? v) then None
      else match pack w r with
           | None => None
           | Some bs => Some (le_encode w v ++ bs)
           end
  end.

(** [struct.pack_into]: an overwrite in place *)
Definition pack_into (w : nat) (d : list byte) (offset : Z) (vs : list Z)
  : option (list byte) :=
  match pack w vs with
  | None => None
  | Some bs =>
      match struct_offset (Z.of_nat (length d)) (Z.of_nat (length bs)) offset with
      | None => None
      | Some o =>
          Some (take (Z.to_nat o) d ++ bs ++ drop (Z.to_nat o + length bs) d)
      end
  end.

(** two's complement reading of a 32-bit value, for the ['<i'] format *)
Definition to_signed32 (v : Z) : Z :=
  if 2 ^ 31 <=? v then v - 2 ^ 32 else v.

(** ASCII literals of the script *)
Definition s_Gamebryo : list byte :=
  [x47;x61;x6d;x65;x62;x72;x79;x6f;x20;x46;x69;x6c;x65;x20;
   x46;x6f;x72;x6d;x61;x74].
Definition s_INDEX : list byte := [x49;x4e;x44;x45;x58].
Definition s_NiMesh : list byte := [x4e;x69;x4d;x65;x73;x68].
Definition s_NiDataStream : list byte :=
  [x4e;x69;x44;x61;x74;x61;x53;x74;x72;x65;x61;x6d].

(** line 13 *)
Definition nif_version (major minor patch internal : Z) : Z :=
  Z.lor (Z.lor (Z.lor (Z.shiftl major 24) (Z.shiftl minor 16))
               (Z.shiftl patch 8)) internal.

(** ** The parser object *)

(** Exceptions the script can raise. *)
Inductive exn :=
| StructError          (* struct.error: read or write outside the buffer *)
| IndexError           (* list or bytearray index out of range *)
| UnicodeDecodeError.  (* header line that is not ASCII *)

(** What the methods print. *)
Inductive line :=
| PHeaderLine (l : list byte)                              (* line 73 *)
| PObjects (n : Z)                                         (* line 89 *)
| PStringTable (n : Z)                                     (* line 141 *)
| PStream (stream_idx stream_size nregions index_size : Z) (* line 278 *)
| PReversed (total : Z)                                    (* line 317 *)
| PIndexAt (i : Z)                                         (* line 324 *)
| PNoIndex                                                 (* line 326 *)
| PMeshStream (i stream_id : Z)                            (* line 341 *)
| PProcessed (n : Z)                                       (* line 344 *)
| PCounts (mesh_count stream_count : Z).                   (* line 378 *)

(** The fields of [NifParser] (lines 18-29, and the two attributes that
    [parse_header] adds).  A decoded string is kept as its bytes without the
    trailing NULs: the script only compares these strings with ASCII
    literals, where bytes and decoded text agree.  [stdout] is the console;
    [swaps] is a history variable that the code does not have: the offset
    and field width of every [struct.pack_into] performed, in order. *)
Record NifParser := mkNifParser {
  data : list byte;
  pos : Z;
  file_ver : Z;
  user_ver : Z;
  num_objects : Z;
  type_names : list (list byte);
  object_types : list (list byte);
  object_sizes : list Z;
  object_offsets : list Z;
  string_table : list (list byte);
  modified : bool;
  is_little_endian : option bool;
  user_ver_2 : option Z;
  stdout : list line;
  swaps : list (Z * nat)
}.

(** lines 18-29 *)
Definition NifParser_init (d : list byte) : NifParser :=
  mkNifParser d 0 0 0 0 [] [] [] [] [] false None None [] [].

Definition set_data v s := mkNifParser v (pos s) (file_ver s) (user_ver s) (num_objects s) (type_names s) (object_types s) (object_sizes s) (object_offsets s) (string_table s) (modified s) (is_little_endian s) (user_ver_2 s) (stdout s) (swaps s).
Definition set_pos v s := mkNifParser (data s) v (file_ver s) (user_ver s) (num_objects s) (type_names s) (object_types s) (object_sizes s) (object_offsets s) (string_table s) (modified s) (is_little_endian s) (user_ver_2 s) (stdout s) (swaps s).
Definition set_file_ver v s := mkNifParser (data s) (pos s) v (user_ver s) (num_objects s) (type_names s) (object_types s) (object_sizes s) (object_offsets s) (string_table s) (modified s) (is_little_endian s) (user_ver_2 s) (stdout s) (swaps s).
Definition set_user_ver v s := mkNifParser (data s) (pos s) (file_ver s) v (num_objects s) (type_names s) (object_types s) (object_sizes s) (object_offsets s) (string_table s) (modified s) (is_little_endian s) (user_ver_2 s) (stdout s) (swaps s).
Definition set_num_objects v s := mkNifParser (data s) (pos s) (file_ver s) (user_ver s) v (type_names s) (object_types s) (object_sizes s) (object_offsets s) (string_table s) (modified s) (is_little_endian s) (user_ver_2 s) (stdout s) (swaps s).
Definition set_type_names v s := mkNifParser (data s) (pos s) (file_ver s) (user_ver s) (num_objects s) v (object_types s) (object_sizes s) (object_offsets s) (string_table s) (modified s) (is_little_endian s) (user_ver_2 s) (stdout s) (swaps s).
Definition set_object_types v s := mkNifParser (data s) (pos s) (file_ver s) (user_ver s) (num_objects s) (type_names s) v (object_sizes s) (object_offsets s) (string_table s) (modified s) (is_little_endian s) (user_ver_2 s) (stdout s) (swaps s).
Definition set_object_sizes v s := mkNifParser (data s) (pos s) (file_ver s) (user_ver s) (num_objects s) (type_names s) (object_types s) v (object_offsets s) (string_table s) (modified s) (is_little_endian s) (user_ver_2 s) (stdout s) (swaps s).
Definition set_object_offsets v s := mkNifParser (data s) (pos s) (file_ver s) (user_ver s) (num_objects s) (type_names s) (object_types s) (object_sizes s) v (string_table s) (modified s) (is_little_endian s) (user_ver_2 s) (stdout s) (swaps s).
Definition set_string_table v s := mkNifParser (data s) (pos s) (file_ver s) (user_ver s) (num_objects s) (type_names s) (object_types s) (object_sizes s) (object_offsets s) v (modified s) (is_little_endian s) (user_ver_2 s) (stdout s) (swaps s).
Definition set_modified v s := mkNifParser (data s) (pos s) (file_ver s) (user_ver s) (num_objects s) (type_names s) (object_types s) (object_sizes s) (object_offsets s) (string_table s) v (is_little_endian s) (user_ver_2 s) (stdout s) (swaps s).
Definition set_is_little_endian v s := mkNifParser (data s) (pos s) (file_ver s) (user_ver s) (num_objects s) (type_names s) (object_types s) (object_sizes s) (object_offsets s) (string_table s) (modified s) v (user_ver_2 s) (stdout s) (swaps s).
Definition set_user_ver_2 v s := mkNifParser (data s) (pos s) (file_ver s) (user_ver s) (num_objects s) (type_names s) (object_types s) (object_sizes s) (object_offsets s) (string_table s) (modified s) (is_little_endian s) v (stdout s) (swaps s).
Definition set_stdout v s := mkNifParser (data s) (pos s) (file_ver s) (user_ver s) (num_objects s) (type_names s) (object_types s) (object_sizes s) (object_offsets s) (string_table s) (modified s) (is_little_endian s) (user_ver_2 s) v (swaps s).
Definition set_swaps v s := mkNifParser (data s) (pos s) (file_ver s) (user_ver s) (num_objects s) (type_names s) (object_types s) (object_sizes s) (object_offsets s) (string_table s) (modified s) (is_little_endian s) (user_ver_2 s) (stdout s) v.

(** ** The monad: state of the object, and exceptions *)

Inductive outcome (A : Type) :=
| Ret (a : A) (s : NifParser)
| Raise (e : exn) (s : NifParser).
Arguments Ret {A} a s.
Arguments Raise {A} e s.

Definition M (A : Type) : Type := NifParser -> outcome A.

Definition ret {A} (a : A) : M A := fun s => Ret a s.
Definition raise {A} (e : exn) : M A := fun s => Raise e s.
Definition bind {A B} (m : M A) (f : A -> M B) : M B :=
  fun s => match m s with
           | Ret a s' => f a s'
           | Raise e s' => Raise e s'
           end.
Definition gets {A} (f : NifParser -> A) : M A := fun s => Ret (f s) s.
Definition modify (f : NifParser -> NifParser) : M unit := fun s => Ret tt (f s).
(** an operation that may fail *)
Definition try_or {A} (e : exn) (o : option A) : M A :=
  match o with
  | Some a => ret a
  | None => raise e
  end.

Notation "x <- m ;; k" := (bind m (fun x => k))
  (at level 100, m at next level, right associativity).
Notation "m ;;; k" := (bind m (fun _ => k))
  (at level 100, right associativity).

Definition print (l : line) : M unit :=
  modify (fun s => set_stdout (stdout s ++ [l]) s).

(** [for i in range(n)] with the loop's local variables in [a] *)
Fixpoint fold_range_from {A} (i : Z) (n : nat) (body : Z -> A -> M A) (a : A)
  : M A :=
  match n with
  | O => ret a
  | S k => a' <- body i a ;; fold_range_from (i + 1) k body a'
  end.

Definition fold_range {A} (n : Z) (body : Z -> A -> M A) (a : A) : M A :=
  fold_range_from 0 (Z.to_nat n) body a.

Definition for_range (n : Z) (body : Z -> M unit) : M unit :=
  fold_range n (fun i _ => body i) tt.

(** the state an outcome ends in *)
Definition final {A} (o : outcome A) : NifParser :=
  match o with
  | Ret _ s => s
  | Raise _ s => s
  end.

(** ** Reading primitives (lines 31-62) *)

Definition read_byte : M Z :=
  d <- gets data ;; p <- gets pos ;;
  val <- try_or IndexError (py_index d p) ;;
  modify (set_pos (p + 1)) ;;;
  ret (byte_val val).

Definition read_ushort : M Z :=
  d <- gets data ;; p <- gets pos ;;
  val <- try_or StructError (unpack1 2 d p) ;;
  modify (set_pos (p + 2)) ;;;
  ret val.

Definition read_uint : M Z :=
  d <- gets data ;; p <- gets pos ;;
  val <- try_or StructError (unpack1 4 d p) ;;
  modify (set_pos (p + 4)) ;;;
  ret val.

Definition read_int : M Z :=
  d <- gets data ;; p <- gets pos ;;
  val <- try_or StructError (unpack1 4 d p) ;;
  modify (set_pos (p + 4)) ;;;
  ret (to_signed32 val).

(** Both decodings keep the bytes up to the trailing NULs, which is how the
    string is represented here. *)
Definition read_string (length : Z) : M (list byte) :=
  d <- gets data ;; p <- gets pos ;;
  let s := py_slice d p (p + length) in
  modify (set_pos (p + length)) ;;;
  ret (rstrip0 s).

(** ** Header and tables (lines 64-150) *)

Definition parse_header : M bool :=
  d <- gets data ;;
  let header_end := py_find d [x0a] 0 (Z.of_nat (length d)) in
  if header_end =? -1 then ret false else
  let header_line := py_slice d 0 header_end in
  if existsb (fun b => 128 <=? byte_val b) header_line
  then raise UnicodeDecodeError else
  if negb (contains header_line s_Gamebryo) then ret false else
  print (PHeaderLine header_line) ;;;
  modify (set_pos (header_end + 1)) ;;;
  v <- read_uint ;; modify (set_file_ver v) ;;;
  (if nif_version 20 0 0 3 <=? v
   then b <- read_byte ;; modify (set_is_little_endian (Some (0 <? b)))
   else ret tt) ;;;
  (if nif_version 10 0 1 8 <=? v
   then u <- read_uint ;; modify (set_user_ver u)
   else ret tt) ;;;
  n <- read_int ;; modify (set_num_objects n) ;;;
  if n <=? 0 then ret false else
  print (PObjects n) ;;;
  u <- gets user_ver ;;
  (if (u =? nif_version 0 0 0 12) && (v =? nif_version 20 2 0 7)
   then u2 <- read_uint ;; modify (set_user_ver_2 (Some u2))
   else ret tt) ;;;
  ret true.

Definition parse_metadata : M bool :=
  v <- gets file_ver ;;
  (if nif_version 20 9 0 1 <=? v
   then meta_size <- read_uint ;;
        if 0 <? meta_size
        then p <- gets pos ;; modify (set_pos (p + meta_size))
        else ret tt
   else ret tt) ;;;
  ret true.

Definition parse_type_names_and_indices : M bool :=
  num_types <- read_ushort ;;
  modify (set_type_names []) ;;;
  for_range num_types (fun i =>
    str_len <- read_uint ;;
    type_name <- read_string str_len ;;
    modify (fun s => set_type_names (type_names s ++ [type_name]) s)) ;;;
  modify (set_object_types []) ;;;
  n <- gets num_objects ;;
  for_range n (fun i =>
    type_idx <- read_ushort ;;
    v <- gets file_ver ;;
    let type_idx := if nif_version 20 2 0 5 <=? v
                    then Z.land type_idx (Z.lnot 32768) else type_idx in
    names <- gets type_names ;;
    name <- try_or IndexError (py_index names type_idx) ;;
    modify (fun s => set_object_types (object_types s ++ [name]) s)) ;;;
  ret true.

Definition parse_object_sizes : M bool :=
  v <- gets file_ver ;;
  (if nif_version 20 2 0 5 <=? v
   then modify (set_object_sizes []) ;;;
        n <- gets num_objects ;;
        for_range n (fun i =>
          sz <- read_uint ;;
          modify (fun s => set_object_sizes (object_sizes s ++ [sz]) s))
   else ret tt) ;;;
  ret true.

Definition parse_string_table : M bool :=
  v <- gets file_ver ;;
  (if nif_version 20 1 0 1 <=? v
   then num_strings <- read_uint ;;
        max_string_size <- read_uint ;;
        modify (set_string_table []) ;;;
        for_range num_strings (fun i =>
          str_len <- read_uint ;;
          if 0 <? str_len
          then str <- read_string str_len ;;
               modify (fun s => set_string_table (string_table s ++ [str]) s)
          else modify (fun s => set_string_table (string_table s ++ [[]]) s)) ;;;
        print (PStringTable num_strings)
   else ret tt) ;;;
  ret true.

Definition parse_object_groups : M bool :=
  v <- gets file_ver ;;
  (if nif_version 5 0 0 6 <=? v
   then num_groups <- read_uint ;;
        for_range num_groups (fun i => read_uint ;;; ret tt)
   else ret tt) ;;;
  ret true.

(** ** Mesh Stream Locator (lines 152-230) *)

Definition unpack_uint (offset : Z) : M Z :=
  d <- gets data ;; try_or StructError (unpack1 4 d offset).

(** lines 191-200: [valid] after the loop over [e], started at [e] with [n]
    descriptors still to check *)
Fixpoint validate_descs (n : nat) (e elem_start end_pos : Z) : M bool :=
  match n with
  | O => ret true
  | S k =>
      let e_pos := elem_start + e * 8 in
      if end_pos <? e_pos + 8 then ret false else
      e_str <- unpack_uint e_pos ;;
      e_idx <- unpack_uint (e_pos + 4) ;;
      st <- gets string_table ;;
      if (Z.of_nat (length st) <=? e_str) || (10 <=? e_idx) then ret false
      else validate_descs k (e + 1) elem_start end_pos
  end.

(** lines 212-223: the link id found by the loop over [link_offset], if any *)
Fixpoint find_link (n : nat) (link_offset num_pos start_pos : Z)
  : M (option Z) :=
  match n with
  | O => ret None
  | S k =>
      let link_pos := num_pos - link_offset in
      if link_pos <? start_pos then ret None else
      link_id <- unpack_uint link_pos ;;
      nobj <- gets num_objects ;;
      if (0 <=? link_id) && (link_id <? nobj) then
        types <- gets object_types ;;
        obj_type <- try_or IndexError (py_index types link_id) ;;
        if startswith obj_type s_NiDataStream then ret (Some link_id)
        else find_link k (link_offset + 1) num_pos start_pos
      else find_link k (link_offset + 1) num_pos start_pos
  end.

(** lines 178-226: the loop over [back]; [Some link_id] when [found] *)
Fixpoint scan_back (n : nat) (back idx start_pos end_pos : Z)
  : M (option Z) :=
  match n with
  | O => ret None
  | S k =>
      let num_pos := idx - back in
      if num_pos <? start_pos then ret None else
      num_elems <- unpack_uint num_pos ;;
      if negb ((1 <=? num_elems) && (num_elems <=? 10))
      then scan_back k (back + 4) idx start_pos end_pos else
      valid <- validate_descs (Z.to_nat num_elems) 0 (num_pos + 4) end_pos ;;
      if negb valid then scan_back k (back + 4) idx start_pos end_pos else
      r <- find_link 43 7 num_pos start_pos ;;
      match r with
      | Some link_id => ret (Some link_id)
      | None => scan_back k (back + 4) idx start_pos end_pos
      end
  end.

(** lines 166-228: the [while] loop.  [search_pos] grows at every turn, so
    [end_pos - 20 - search_pos] turns are enough (see [scan_hits_fuel]). *)
Fixpoint scan_hits (fuel : nat) (index_pattern : list byte)
    (search_pos start_pos end_pos : Z) (streams : list (Z * Z))
  : M (list (Z * Z)) :=
  if negb (search_pos <? end_pos - 20) then ret streams else
  match fuel with
  | O => ret streams
  | S f =>
      d <- gets data ;;
      let idx := py_find d index_pattern search_pos end_pos in
      if idx =? -1 then ret streams else
      elem_idx_val <- unpack_uint (idx + 4) ;;
      if 10 <=? elem_idx_val
      then scan_hits f index_pattern (idx + 1) start_pos end_pos streams else
      r <- scan_back 24 4 idx start_pos end_pos ;;
      let streams' := match r with
                      | Some link_id => streams ++ [(link_id, elem_idx_val)]
                      | None => streams
                      end in
      scan_hits f index_pattern (idx + 1) start_pos end_pos streams'
  end.

Definition find_index_streams_in_mesh (mesh_idx index_str_idx : Z)
  : M (list (Z * Z)) :=
  offs <- gets object_offsets ;;
  start_pos <- try_or IndexError (py_index offs mesh_idx) ;;
  sizes <- gets object_sizes ;;
  sz <- try_or IndexError (py_index sizes mesh_idx) ;;
  let end_pos := start_pos + sz in
  index_pattern <- try_or StructError (pack 4 [index_str_idx]) ;;
  scan_hits (Z.to_nat (end_pos - 20 - start_pos)) index_pattern
            start_pos start_pos end_pos [].

(** ** Stream Patcher (lines 232-318) *)

Definition unpack3 (w : nat) (d : list byte) (offset : Z)
  : option (Z * Z * Z) :=
  match unpack_from w 3 d offset with
  | Some [a; b; c] => Some (a, b, c)
  | _ => None
  end.

(** lines 261-274: one turn of the loop over the element formats; the loop's
    variables are [(index_size, elem_stride)] *)
Definition elem_step (e : Z) (acc : Z * Z) : M (Z * Z) :=
  let '(index_size, elem_stride) := acc in
  elem_data <- read_uint ;;
  let elem_count := Z.land (Z.shiftr elem_data 16) 255 in
  let elem_size := Z.land (Z.shiftr elem_data 8) 255 in
  let elem_type := Z.land elem_data 255 in
  let index_size :=
    if e =? 0
    then (if (elem_type =? 10) || (elem_type =? 11) then 4 else elem_size)
    else index_size in
  ret (index_size, elem_stride + elem_count * elem_size).

(** lines 291-296 and 307-312: the loop over the triangles of a region, for
    indices of [w] bytes; [n] triangles are left, the next one is [t].  The
    write of [pack_into] is also noted in the history [swaps]. *)
Fixpoint swap_loop (w : nat) (n : nat) (t region_offset : Z) : M unit :=
  match n with
  | O => ret tt
  | S k =>
      let offset := region_offset + t * (3 * Z.of_nat w) in
      d <- gets data ;;
      if Z.of_nat (length d) <? offset + 3 * Z.of_nat w then ret tt else
      abc <- try_or StructError (unpack3 w d offset) ;;
      let '(a, b, c) := abc in
      d' <- try_or StructError (pack_into w d offset [a; c; b]) ;;
      modify (fun s => set_swaps (swaps s ++ [(offset, w)]) (set_data d' s)) ;;;
      swap_loop w k (t + 1) region_offset
  end.

(** lines 283-314: the body of the loop over the regions; the loop's
    variable is [total_triangles] *)
Definition patch_region (index_size elem_stride data_start : Z)
    (region : Z * Z) (total_triangles : Z) : M Z :=
  let '(base_idx, count) := region in
  if index_size =? 2 then
    let num_indices := count in
    if negb (num_indices mod 3 =? 0) then ret total_triangles else
    let num_triangles := num_indices / 3 in
    let region_offset := data_start + base_idx * elem_stride in
    swap_loop 2 (Z.to_nat num_triangles) 0 region_offset ;;;
    ret (total_triangles + num_triangles)
  else if index_size =? 4 then
    let num_indices := count in
    if negb (num_indices mod 3 =? 0) then ret total_triangles else
    let num_triangles := num_indices / 3 in
    let region_offset := data_start + base_idx * elem_stride in
    swap_loop 4 (Z.to_nat num_triangles) 0 region_offset ;;;
    ret (total_triangles + num_triangles)
  else ret total_triangles.

Fixpoint patch_regions (index_size elem_stride data_start : Z)
    (regions : list (Z * Z)) (total_triangles : Z) : M Z :=
  match regions with
  | [] => ret total_triangles
  | region :: rest =>
      total <- patch_region index_size elem_stride data_start region
                            total_triangles ;;
      patch_regions index_size elem_stride data_start rest total
  end.

Definition fix_datastream_winding (stream_idx : Z) : M unit :=
  offs <- gets object_offsets ;;
  p0 <- try_or IndexError (py_index offs stream_idx) ;;
  modify (set_pos p0) ;;;
  stream_size <- read_uint ;;
  stream_clone <- read_uint ;;
  num_regions <- read_uint ;;
  regions <- fold_range num_regions (fun r regions =>
               base_idx <- read_uint ;;
               count <- read_uint ;;
               ret (regions ++ [(base_idx, count)])) [] ;;
  num_elements <- read_uint ;;
  acc <- fold_range num_elements elem_step (2, 0) ;;
  let '(index_size, elem_stride) := acc in
  data_start <- gets pos ;;
  print (PStream stream_idx stream_size (Z.of_nat (length regions))
                 index_size) ;;;
  total_triangles <- patch_regions index_size elem_stride data_start
                                   regions 0 ;;
  if 0 <? total_triangles
  then print (PReversed total_triangles) ;;; modify (set_modified true)
  else ret tt.

(** ** Orchestrator (lines 320-403) *)

(** lines 336-342: the loop over the streams found in mesh [i] *)
Fixpoint process_streams (i : Z) (streams : list (Z * Z))
    (processed_streams : gset Z) : M (gset Z) :=
  match streams with
  | [] => ret processed_streams
  | (stream_id, elem_idx) :: rest =>
      if decide (stream_id ∈ processed_streams)
      then process_streams i rest processed_streams
      else
        print (PMeshStream i stream_id) ;;;
        fix_datastream_winding stream_id ;;;
        process_streams i rest (processed_streams ∪ {[stream_id]})
  end.

(** lines 332-342: the body of the loop over the objects *)
Definition process_object (index_str_idx i : Z) (processed_streams : gset Z)
  : M (gset Z) :=
  types <- gets object_types ;;
  ty <- try_or IndexError (py_index types i) ;;
  if negb (bytes_eqb ty s_NiMesh) then ret processed_streams else
  streams <- find_index_streams_in_mesh i index_str_idx ;;
  process_streams i streams processed_streams.

Definition process_all_meshes : M unit :=
  st <- gets string_table ;;
  match list_index st s_INDEX 0 with
  | None => print PNoIndex
  | Some index_str_idx =>
      print (PIndexAt index_str_idx) ;;;
      n <- gets num_objects ;;
      processed_streams <- fold_range n (process_object index_str_idx) ∅ ;;
      print (PProcessed (Z.of_nat (size processed_streams)))
  end.

(** lines 348-365: the chain of parse steps; [false] is an early
    [return False] *)
Definition parse_steps : M bool :=
  ok <- parse_header ;; if negb ok then ret false else
  ok <- parse_metadata ;; if negb ok then ret false else
  v <- gets file_ver ;;
  ok <- (if nif_version 5 0 0 1 <=? v then parse_type_names_and_indices
         else ret true) ;;
  if negb ok then ret false else
  ok <- parse_object_sizes ;; if negb ok then ret false else
  ok <- parse_string_table ;; if negb ok then ret false else
  ok <- parse_object_groups ;; if negb ok then ret false else
  ret true.

(** lines 367-373 *)
Definition build_offsets : M unit :=
  objects_start <- gets pos ;;
  modify (set_object_offsets []) ;;;
  n <- gets num_objects ;;
  fold_range n (fun i current_pos =>
    modify (fun s => set_object_offsets (object_offsets s ++ [current_pos]) s) ;;;
    sizes <- gets object_sizes ;;
    sz <- try_or IndexError (py_index sizes i) ;;
    ret (current_pos + sz)) objects_start ;;;
  ret tt.

(** lines 375-378 *)
Definition count_types : M unit :=
  types <- gets object_types ;;
  let mesh_count := length (filter (fun t => bytes_eqb t s_NiMesh = true) types) in
  let stream_count :=
    length (filter (fun t => startswith t s_NiDataStream = true) types) in
  print (PCounts (Z.of_nat mesh_count) (Z.of_nat stream_count)).

Definition parse_and_fix : M bool :=
  ok <- parse_steps ;;
  if negb ok then ret false else
  build_offsets ;;;
  count_types ;;;
  process_all_meshes ;;;
  gets modified.

(** ** The single-file operation and the directory loop (lines 385-430)

    The file system is reduced to what the parser sees of it: the bytes that
    [fix_nif_file] reads and, when it saves, the bytes it writes.  The
    messages of these two functions are left out. *)

Inductive file_result :=
| Saved (written : list byte)   (* returns True after writing the buffer *)
| NoChanges                     (* returns False, nothing written *)
| Uncaught (e : exn).           (* the exception leaves fix_nif_file *)

Definition fix_nif_file (input : list byte) : file_result :=
  match parse_and_fix (NifParser_init input) with
  | Ret true s => Saved (data s)
  | Ret false _ => NoChanges
  | Raise e _ => Uncaught e
  end.

(** lines 423-430: the loop of [main] over the files of a directory, given
    by their contents; the result is [success] and the contents afterwards,
    unless an exception ends the run *)
Fixpoint fix_all (files : list (list byte)) (success : Z)
  : exn + (Z * list (list byte)) :=
  match files with
  | [] => inr (success, [])
  | f :: rest =>
      match fix_nif_file f with
      | Uncaught e => inl e
      | Saved f' =>
          match fix_all rest (success + 1) with
          | inl e => inl e
          | inr (n, out) => inr (n, f' :: out)
          end
      | NoChanges =>
          match fix_all rest success with
          | inl e => inl e
          | inr (n, out) => inr (n, f :: out)
          end
      end
  end.

(** ** Hand-built files for the examples *)

Module Sample.

Definition u16 (v : Z) : list byte := le_encode 2 v.
Definition u32 (v : Z) : list byte := le_encode 4 v.
Definition lstr (s : list byte) : list byte := u32 (Z.of_nat (length s)) ++ s.

(** A file of version [ver] (between 20.1.0.1 and 20.9.0.0), user version 0,
    with the objects [objs] given as (type index, bytes). *)
Definition nif_file (ver : Z) (types : list (list byte))
    (objs : list (Z * list byte)) (strings : list (list byte)) : list byte :=
  s_Gamebryo ++ [x0a] ++ u32 ver ++ [x01] ++ u32 0 ++
  u32 (Z.of_nat (length objs)) ++
  u16 (Z.of_nat (length types)) ++ flat_map lstr types ++
  flat_map (fun o => u16 (fst o)) objs ++
  (if nif_version 20 2 0 5 <=? ver
   then flat_map (fun o => u32 (Z.of_nat (length (snd o)))) objs else []) ++
  u32 (Z.of_nat (length strings)) ++ u32 0 ++ flat_map lstr strings ++
  u32 0 ++
  flat_map snd objs.

(** A mesh record of 31 bytes: streamLinkID, instanced, an empty submesh
    region map, one element descriptor (string 1, index 0), padding. *)
Definition mesh (link : Z) : list byte :=
  u32 link ++ [x00] ++ u16 0 ++ u32 1 ++ u32 1 ++ u32 0 ++ repeat xff 12.

Definition elem_format (count size type : Z) : Z :=
  Z.lor (Z.lor (Z.shiftl count 16) (Z.shiftl size 8)) type.

(** A data-stream record; [tail] is what follows the element formats. *)
Definition stream (regions : list (Z * Z)) (elems : list Z)
    (tail : list byte) : list byte :=
  u32 (Z.of_nat (length tail)) ++ u32 0 ++
  u32 (Z.of_nat (length regions)) ++
  flat_map (fun r => u32 (fst r) ++ u32 (snd r)) regions ++
  u32 (Z.of_nat (length elems)) ++ flat_map u32 elems ++
  tail.

Definition names : list (list byte) := [s_NiMesh; s_NiDataStream].
Definition strings : list (list byte) := [[x58]; s_INDEX].
Definition v20_2_0_7 : Z := nif_version 20 2 0 7.

(** Three 16-bit indices 1, 2, 3 and the [streamable] byte. *)
Definition one_triangle : list byte := u16 1 ++ u16 2 ++ u16 3 ++ [x01].

(** Two meshes that point at the same stream (object 2). *)
Definition two_meshes : list byte :=
  nif_file v20_2_0_7 names
    [(0, mesh 2); (0, mesh 2);
     (1, stream [(0, 3)] [elem_format 1 2 5] one_triangle)] strings.

(** No "INDEX" in the string table. *)
Definition no_index : list byte :=
  nif_file v20_2_0_7 names
    [(0, mesh 1); (1, stream [(0, 3)] [elem_format 1 2 5] one_triangle)]
    [[x58]].

(** One element format of itemByteSize 4 and dataTypeCode 5, and three
    32-bit indices 1, 2, 3. *)
Definition wide_indices : list byte :=
  nif_file v20_2_0_7 names
    [(0, mesh 1);
     (1, stream [(0, 3)] [elem_format 1 4 5]
                (u32 1 ++ u32 2 ++ u32 3 ++ [x01]))] strings.

(** A region of one triangle, but the file ends after two indices. *)
Definition truncated_stream : list byte :=
  nif_file v20_2_0_7 names
    [(0, mesh 1); (1, stream [(0, 3)] [elem_format 1 2 5] (u16 1 ++ u16 2))]
    strings.

Definition four_indices : list byte :=
  u16 1 ++ u16 2 ++ u16 3 ++ u16 4 ++ [x01].

(** Two regions of three indices that share two of them. *)
Definition overlapping : list byte :=
  nif_file v20_2_0_7 names
    [(0, mesh 1);
     (1, stream [(0, 3); (1, 3)] [elem_format 1 2 5] four_indices)] strings.

(** A region of four indices, and a region of three at the same place. *)
Definition skipped_overlap : list byte :=
  nif_file v20_2_0_7 names
    [(0, mesh 1);
     (1, stream [(0, 4); (0, 3)] [elem_format 1 2 5] four_indices)] strings.

(** The file [two_meshes] would be at version 20.2.0.4: no object sizes. *)
Definition old_version : list byte :=
  nif_file (nif_version 20 2 0 4) names
    [(0, mesh 1); (1, stream [(0, 3)] [elem_format 1 2 5] one_triangle)]
    strings.

(** The header line and half a version number. *)
Definition truncated_header : list byte := s_Gamebryo ++ [x0a; x07; x00].

(** A single region of four indices: nothing to reverse. *)
Definition one_region_of_four : list byte :=
  nif_file v20_2_0_7 names
    [(0, mesh 1); (1, stream [(0, 4)] [elem_format 1 2 5] four_indices)]
    strings.

End Sample.

(** * Vocabulary of the statements *)

(** [s'] shows the same [f] as [s] *)
Definition keeps {A} (f : NifParser -> A) (s s' : NifParser) : Prop :=
  f s' = f s.

(** the line printed before a call of the Stream Patcher (line 341) *)
Definition is_mesh_line (l : line) : bool :=
  match l with
  | PMeshStream _ _ => true
  | _ => false
  end.

(** What a relation between states has to allow for a method to keep it:
    moving the cursor, setting the header fields, filling the tables,
    building the offsets, printing. *)
Class CursorOK (R : relation NifParser) : Prop := {
  cursor_ok : forall v s, R s (set_pos v s)
}.

Class HeaderOK (R : relation NifParser) : Prop := {
  file_ver_ok : forall v s, R s (set_file_ver v s);
  user_ver_ok : forall v s, R s (set_user_ver v s);
  num_objects_ok : forall v s, R s (set_num_objects v s);
  is_little_endian_ok : forall v s, R s (set_is_little_endian v s);
  user_ver_2_ok : forall v s, R s (set_user_ver_2 v s)
}.

Class TablesOK (R : relation NifParser) : Prop := {
  type_names_ok : forall v s, R s (set_type_names v s);
  object_types_ok : forall v s, R s (set_object_types v s);
  object_sizes_ok : forall v s, R s (set_object_sizes v s);
  string_table_ok : forall v s, R s (set_string_table v s)
}.

Class OffsetsOK (R : relation NifParser) : Prop := {
  object_offsets_ok : forall v s, R s (set_object_offsets v s)
}.

Class PrintOK (R : relation NifParser) : Prop := {
  print_ok : forall l s,
    is_mesh_line l = false -> R s (set_stdout (stdout s ++ [l]) s)
}.

Class MeshPrintOK (R : relation NifParser) : Prop := {
  mesh_print_ok : forall i j s,
    R s (set_stdout (stdout s ++ [PMeshStream i j]) s)
}.

(** what [swap_loop] does for one triangle, and the flag *)
Class PatchOK (R : relation NifParser) : Prop := {
  swap_ok : forall s w offset a b c d',
    offset + 3 * Z.of_nat w <= Z.of_nat (length (data s)) ->
    unpack3 w (data s) offset = Some (a, b, c) ->
    pack_into w (data s) offset [a; c; b] = Some d' ->
    R s (set_swaps (swaps s ++ [(offset, w)]) (set_data d' s));
  modified_ok : forall s, R s (set_modified true s)
}.

(** [R] holds from the start to the end of [m], from every state. *)
Definition follows (R : relation NifParser) {A} (m : M A) : Prop :=
  forall s, R s (final (m s)).

(** the buffer, the flag, and the history of the swaps *)
Definition buffer_view (s : NifParser) : list byte * bool * list (Z * nat) :=
  (data s, modified s, swaps s).

(** what the header and the tables define *)
Definition tables_view (s : NifParser) :=
  (num_objects s, object_types s, object_sizes s, object_offsets s,
   string_table s).

(** The stream ids of the lines printed at line 341.  Line 342 calls the
    Stream Patcher with the id just printed, and nothing else calls it: this
    is the list of the patcher's calls, in order. *)
Fixpoint patcher_calls (out : list line) : list Z :=
  match out with
  | [] => []
  | PMeshStream _ stream_id :: r => stream_id :: patcher_calls r
  | _ :: r => patcher_calls r
  end.

Definition calls_view (s : NifParser) : list Z := patcher_calls (stdout s).

(** the length of the buffer *)
Definition length_view (s : NifParser) : nat := length (data s).

(** The set [processed_streams] and the calls made so far agree, and no
    stream was passed twice. *)
Definition calls_agree (processed : gset Z) (s : NifParser) : Prop :=
  (forall x, x ∈ processed <-> x ∈ calls_view s) /\ NoDup (calls_view s).

(** what a loop that carries [processed_streams] leaves behind *)
Definition calls_post (o : outcome (gset Z)) : Prop :=
  match o with
  | Ret processed s => calls_agree processed s
  | Raise _ s => NoDup (calls_view s)
  end.

(** running totals: [base], [base + sz0], [base + sz0 + sz1], ... one for
    every size *)
Fixpoint offsets_from (base : Z) (sizes : list Z) : list Z :=
  match sizes with
  | [] => []
  | sz :: r => base :: offsets_from (base + sz) r
  end.

(** the fields of a packed element format (lines 264-266) *)
Definition item_size (elem_data : Z) : Z := Z.land (Z.shiftr elem_data 8) 255.

Definition data_type (elem_data : Z) : Z := Z.land elem_data 255.

(** [f] applied to the [n] bytes at [o], the rest untouched *)
Definition map_seg (o n : nat) (f : list byte -> list byte) (d : list byte)
  : list byte :=
  take o d ++ f (take n (drop o d)) ++ drop (o + n) d.

(** the three fields of [w] bytes of a segment, the last two exchanged *)
Definition swap3 (w : nat) (seg : list byte) : list byte :=
  take w seg ++ take w (drop (2 * w) seg) ++ take w (drop w seg).

(** what lines 295-296 (or 311-312) do to the buffer *)
Definition swap_triple (w : nat) (offset : Z) (d : list byte) : list byte :=
  match unpack3 w d offset with
  | Some (a, b, c) =>
      match pack_into w d offset [a; c; b] with
      | Some d' => d'
      | None => d
      end
  | None => d
  end.

(** a list of swaps, given by offset and field width, done in order *)
Definition apply_swaps (l : list (Z * nat)) (d : list byte) : list byte :=
  fold_left (fun d sw => swap_triple sw.2 sw.1 d) l d.

(** two swaps whose byte ranges do not overlap *)
Definition apart (a b : Z * nat) : Prop :=
  a.1 + 3 * Z.of_nat a.2 <= b.1 \/ b.1 + 3 * Z.of_nat b.2 <= a.1.

(** swaps at non-negative offsets, no two of which overlap *)
Fixpoint separated (l : list (Z * nat)) : Prop :=
  match l with
  | [] => True
  | a :: r => 0 <= a.1 /\ Forall (fun b => 0 <= b.1 /\ apart a b) r
              /\ separated r
  end.

(** between [s] and [s'] the history grew by some swaps, and the buffer of
    [s'] is the buffer of [s] with these swaps done *)
Definition replays (s s' : NifParser) : Prop :=
  exists new, swaps s' = swaps s ++ new /\
              data s' = apply_swaps new (data s).

(** the parser over [Sample.two_meshes], tables read and offsets built *)
Definition two_meshes_parsed : NifParser :=
  final (bind parse_steps (fun _ => build_offsets)
              (NifParser_init Sample.two_meshes)).

(** ** Vocabulary of the further properties *)

(** [Q] holds of the value and the state when [m] returns from [s], [E] of
    the exception and the state when it raises. *)
Definition wp {A} (m : M A) (Q : A -> NifParser -> Prop)
    (E : exn -> NifParser -> Prop) (s : NifParser) : Prop :=
  match m s with
  | Ret a s' => Q a s'
  | Raise e s' => E e s'
  end.

(** What the Locator checks of a link id before returning it (lines
    218-220). *)
Definition is_stream_id (s : NifParser) (link_id : Z) : Prop :=
  0 <= link_id < num_objects s /\
  exists ty, py_index (object_types s) link_id = Some ty /\
             startswith ty s_NiDataStream = true.

(** every call so far was for a data stream of the tables of [s0], and the
    tables are still those of [s0] *)
Definition calls_are_streams (s0 s : NifParser) : Prop :=
  tables_view s = tables_view s0 /\
  Forall (is_stream_id s0) (calls_view s).

(** what the parse steps keep true of the cursor and of the sizes they
    read *)
Definition sane (s : NifParser) : Prop :=
  0 <= pos s /\ Forall (fun sz => 0 <= sz) (object_sizes s).

(** a swap at or after [lo], inside a buffer of [len] bytes, on fields of 2
    or 4 bytes *)
Definition swap_inside (lo : Z) (len : nat) (sw : Z * nat) : Prop :=
  lo <= sw.1 /\ sw.1 + 3 * Z.of_nat sw.2 <= Z.of_nat len /\
  (sw.2 = 2%nat \/ sw.2 = 4%nat).

(** [s'] is [s] after the swaps [new], and nothing else *)
Definition swapped (new : list (Z * nat)) (s s' : NifParser) : Prop :=
  s' = set_swaps (swaps s ++ new) (set_data (apply_swaps new (data s)) s).

(** so far the patcher has only read, and the cursor is at or after [lo] *)
Definition reading (lo : Z) (s s' : NifParser) : Prop :=
  buffer_view s' = buffer_view s /\ lo <= pos s'.

(** what a call of the patcher leaves: the buffer with some swaps done, all
    of them at or after [lo] and inside the buffer, and the flag set unless
    there was no swap *)
Definition patched (lo : Z) (s s' : NifParser) : Prop :=
  exists new,
    data s' = apply_swaps new (data s) /\
    swaps s' = swaps s ++ new /\
    Forall (swap_inside lo (length (data s))) new /\
    (modified s' = true \/ (new = [] /\ modified s' = modified s)).

(** what holds of the buffer during a run on [input] *)
Definition run_inv (lo : Z) (input : list byte) (s : NifParser) : Prop :=
  data s = apply_swaps (swaps s) input /\
  Forall (swap_inside lo (length input)) (swaps s) /\
  (swaps s = [] \/ modified s = true).

(** what the string table and the groups leave alone *)
Definition tail_view (s : NifParser) :=
  (file_ver s, num_objects s, type_names s, object_types s, object_sizes s).

(** what [parse_object_sizes] leaves alone *)
Definition types_view (s : NifParser) :=
  (file_ver s, num_objects s, type_names s, object_types s).

(** [fix_nif_file] returned True: the file was written *)
Definition saved (f : list byte) : bool :=
  match fix_nif_file f with
  | Saved _ => true
  | _ => false
  end.

(** an entry per object in every table, and no offset below some
    non-negative bound *)
Definition tables_full (s : NifParser) : Prop :=
  length (object_types s) = Z.to_nat (num_objects s) /\
  (Z.to_nat (num_objects s) <= length (object_sizes s))%nat /\
  length (object_offsets s) = Z.to_nat (num_objects s) /\
  exists lo, 0 <= lo /\ Forall (fun o => lo <= o) (object_offsets s).

(** what a region adds to [total_triangles] for a given index size *)
Definition region_triangles (index_size : Z) (region : Z * Z) : Z :=
  if ((index_size =? 2) || (index_size =? 4)) && (region.2 mod 3 =? 0)
  then region.2 / 3 else 0.

(** ** Vocabulary of the claims on whole runs *)

(** The stream ids of the lines printed at line 278, by the Stream Patcher
    itself once it has read the header of its record: the calls of the
    patcher that got that far, with the argument they were given. *)
Fixpoint patched_ids (out : list line) : list Z :=
  match out with
  | [] => []
  | PStream stream_idx _ _ _ :: r => stream_idx :: patched_ids r
  | _ :: r => patched_ids r
  end.

Definition ids_view (s : NifParser) : list Z := patched_ids (stdout s).

(** the console of [s'] is the console of [s] and more lines *)
Definition grows (s s' : NifParser) : Prop :=
  exists l, stdout s' = stdout s ++ l.

(** The set [processed_streams] holds the ids that the patcher was given,
    the patcher printed its line for each of them, and for none twice. *)
Definition patched_agree (processed : gset Z) (s : NifParser) : Prop :=
  ids_view s = calls_view s /\ calls_agree processed s.

(** the state in which the loop of line 331 reaches object [i], when it
    started in [s] with no stream processed *)
Definition mesh_loop_at (index_str_idx : Z) (i : nat) (s : NifParser)
  : outcome (gset Z) :=
  fold_range_from 0 i (process_object index_str_idx) ∅
    (set_stdout (stdout s ++ [PIndexAt index_str_idx]) s).

(** the lines that the header and the tables print (lines 73, 89, 141, 378) *)
Definition is_table_line (l : line) : bool :=
  match l with
  | PHeaderLine _ | PObjects _ | PStringTable _ | PCounts _ _ => true
  | _ => false
  end.

(** what a relation has to allow for the parse steps, when it does not
    allow every line to be printed *)
Class TablePrintOK (R : relation NifParser) : Prop := {
  table_print_ok : forall l s,
    is_table_line l = true -> R s (set_stdout (stdout s ++ [l]) s)
}.

(** what a loop of the orchestrator leaves when it raises: the last call of
    the patcher may have raised before its line was printed *)
Definition raised_in_call (s : NifParser) : Prop :=
  NoDup (calls_view s) /\
  (ids_view s = calls_view s \/
   exists sid, calls_view s = ids_view s ++ [sid]).

(** the ids of [processed_streams] have their line of the patcher *)
Definition all_patched (processed : gset Z) (s : NifParser) : Prop :=
  forall x, x ∈ processed -> x ∈ ids_view s.

(** the state in which the run on [Sample.two_meshes] reaches the loop over
    the meshes *)
Definition two_meshes_counted : NifParser :=
  final (count_types two_meshes_parsed).

(** the history grew by swaps of fields of [w] bytes, and nothing was
    printed *)
Definition swaps_of_width (w : Z) (s s' : NifParser) : Prop :=
  exists new, swaps s' = swaps s ++ new /\
              Forall (fun sw => Z.of_nat sw.2 = w) new /\
              stdout s' = stdout s.

(** the parser over [Sample.wide_indices], tables read and offsets built *)
Definition wide_indices_parsed : NifParser :=
  final (bind parse_steps (fun _ => build_offsets)
              (NifParser_init Sample.wide_indices)).

(** * Proofs *)

(** ** How a relation between states follows a computation

    Most properties below say that some view of the parser object is kept,
    or evolves in a fixed way, from the start of a method to its end -
    whether it returns or raises.  A relation [R] is shown to hold between
    the initial state and [final (m s)] from what it has to allow: moving
    the cursor, filling the tables, printing, swapping a triple. *)

#[export] Instance keeps_preorder {A} (f : NifParser -> A) : PreOrder (keeps f).
Proof.
  split.
  - intros s. reflexivity.
  - intros s1 s2 s3 H12 H23. unfold keeps in *. congruence.
Qed.

Lemma final_gets {A B} (f : NifParser -> A) (k : A -> M B) s :
  final (bind (gets f) k s) = final (k (f s) s).
Proof. reflexivity. Qed.

Lemma final_ret {A B} (a : A) (k : A -> M B) s :
  final (bind (ret a) k s) = final (k a s).
Proof. reflexivity. Qed.

Lemma final_modify {B} f (k : unit -> M B) s :
  final (bind (modify f) k s) = final (k tt (f s)).
Proof. reflexivity. Qed.

Lemma bind_gets {A B} (f : NifParser -> A) (k : A -> M B) s :
  bind (gets f) k s = k (f s) s.
Proof. reflexivity. Qed.

Lemma bind_Ret {A B} (m : M A) (k : A -> M B) s a s' :
  m s = Ret a s' -> bind m k s = k a s'.
Proof. unfold bind. intros ->. reflexivity. Qed.

Lemma bind_Raise {A B} (m : M A) (k : A -> M B) s e s' :
  m s = Raise e s' -> bind m k s = Raise e s'.
Proof. unfold bind. intros ->. reflexivity. Qed.

Section Follow.
Context (R : relation NifParser) `{!PreOrder R}.

Lemma follow_bind {A B} (m : M A) (k : A -> M B) s :
  R s (final (m s)) ->
  (forall a s', m s = Ret a s' -> R s' (final (k a s'))) ->
  R s (final (bind m k s)).
Proof.
  intros Hm Hk. unfold bind. destruct (m s) as [a s'|e s'] eqn:E.
  - simpl in Hm. transitivity s'; [exact Hm | apply Hk; reflexivity].
  - exact Hm.
Qed.

Lemma follow_modify {B} f (k : unit -> M B) s :
  R s (f s) -> R (f s) (final (k tt (f s))) ->
  R s (final (bind (modify f) k s)).
Proof. intros H1 H2. rewrite final_modify. by transitivity (f s). Qed.

Lemma follow_try {A B} e (o : option A) (k : A -> M B) s :
  (forall a, o = Some a -> R s (final (k a s))) ->
  R s (final (bind (try_or e o) k s)).
Proof. intros H. destruct o; simpl; [by apply H | reflexivity]. Qed.

Lemma follow_fold_from {A} (body : Z -> A -> M A) :
  (forall i a s, R s (final (body i a s))) ->
  forall n i a s, R s (final (fold_range_from i n body a s)).
Proof.
  intros Hb n. induction n as [|n IH]; intros i a s; simpl.
  - reflexivity.
  - apply follow_bind; [apply Hb | intros; apply IH].
Qed.

Lemma follow_fold {A} (body : Z -> A -> M A) n a s :
  (forall i a s, R s (final (body i a s))) ->
  R s (final (fold_range n body a s)).
Proof. intros Hb. unfold fold_range. by apply follow_fold_from. Qed.

Lemma follow_for (body : Z -> M unit) n s :
  (forall i s, R s (final (body i s))) ->
  R s (final (for_range n body s)).
Proof. intros Hb. unfold for_range. apply follow_fold. intros; apply Hb. Qed.
End Follow.

Create HintDb follow discriminated.

Ltac setter_ok :=
  solve [ apply cursor_ok | apply file_ver_ok | apply user_ver_ok
        | apply num_objects_ok | apply type_names_ok | apply object_types_ok
        | apply object_sizes_ok | apply string_table_ok
        | apply is_little_endian_ok | apply user_ver_2_ok
        | apply object_offsets_ok | apply mesh_print_ok | apply modified_ok
        | apply print_ok; reflexivity ].

Ltac known R m s :=
  let H := fresh in
  assert (H : follows R m) by (auto with follow);
  exact (H s).

(** One step through a computation written with [bind]. *)
Ltac follow_step :=
  lazymatch goal with
  | |- _ _ (final (bind (gets _) _ _)) => rewrite final_gets
  | |- _ _ (final (bind (ret _) _ _)) => rewrite final_ret
  | |- ?R _ (final (bind (modify _) _ _)) =>
      apply (follow_modify R); [setter_ok |]
  | |- ?R _ (final (bind (print _) _ _)) =>
      unfold print at 1; apply (follow_modify R); [setter_ok |]
  | |- ?R _ (final (bind (try_or _ _) _ _)) =>
      apply (follow_try R); intros ? ?
  | |- _ _ (final (bind (if ?b then _ else _) _ _)) => destruct b eqn:?
  | |- ?R _ (final (bind (for_range _ _) _ _)) =>
      apply (follow_bind R);
      [apply (follow_for R); intros ? ? | intros ? ? ?]
  | |- ?R _ (final (bind (fold_range _ _ _) _ _)) =>
      apply (follow_bind R);
      [apply (follow_fold R); intros ? ? ? | intros ? ? ?]
  | |- ?R _ (final (bind _ _ _)) =>
      apply (follow_bind R); [| intros ? ? ?]
  | |- _ _ (final (ret _ _)) => reflexivity
  | |- _ _ (final (raise _ _)) => reflexivity
  | |- _ _ (final (gets _ _)) => reflexivity
  | |- _ _ (final (modify _ _)) => simpl; setter_ok
  | |- _ _ (final (print _ _)) => simpl; setter_ok
  | |- _ _ (final (try_or _ ?o _)) => destruct o; reflexivity
  | |- ?R _ (final (for_range _ _ _)) => apply (follow_for R); intros ? ?
  | |- ?R _ (final (fold_range _ _ _ _)) =>
      apply (follow_fold R); intros ? ? ?
  | |- _ _ (final ((if ?b then _ else _) _)) => destruct b eqn:?
  | |- _ _ (final (match ?x with _ => _ end _)) => destruct x eqn:?
  | |- ?R ?s (final (?m ?s)) => known R m s
  end.

Ltac follow_refl :=
  lazymatch goal with
  | |- _ ?s ?t => constr_eq s t; reflexivity
  end.

Ltac follow := intros; repeat (cbv beta; first [follow_refl | follow_step]).

Section Readers.
Context (R : relation NifParser) `{!PreOrder R} `{!CursorOK R}.

Lemma read_byte_follow : follows R read_byte.
Proof. intros s. unfold read_byte. follow. Qed.

Lemma read_ushort_follow : follows R read_ushort.
Proof. intros s. unfold read_ushort. follow. Qed.

Lemma read_uint_follow : follows R read_uint.
Proof. intros s. unfold read_uint. follow. Qed.

Lemma read_int_follow : follows R read_int.
Proof. intros s. unfold read_int. follow. Qed.

Lemma read_string_follow n : follows R (read_string n).
Proof. intros s. unfold read_string. follow. Qed.
End Readers.

#[export] Hint Resolve read_byte_follow read_ushort_follow read_uint_follow
  read_int_follow read_string_follow : follow.

Section Header.
Context (R : relation NifParser) `{!PreOrder R} `{!CursorOK R}
        `{!HeaderOK R} `{!PrintOK R}.

Lemma parse_header_follow : follows R parse_header.
Proof. intros s. unfold parse_header. follow. Qed.
End Header.

Section Tables.
Context (R : relation NifParser) `{!PreOrder R} `{!CursorOK R}
        `{!TablesOK R} `{!PrintOK R}.

Lemma parse_metadata_follow : follows R parse_metadata.
Proof. intros s. unfold parse_metadata. follow. Qed.

Lemma parse_type_names_and_indices_follow :
  follows R parse_type_names_and_indices.
Proof. intros s. unfold parse_type_names_and_indices. follow. Qed.

Lemma parse_object_sizes_follow : follows R parse_object_sizes.
Proof. intros s. unfold parse_object_sizes. follow. Qed.

Lemma parse_string_table_follow : follows R parse_string_table.
Proof. intros s. unfold parse_string_table. follow. Qed.

Lemma parse_object_groups_follow : follows R parse_object_groups.
Proof. intros s. unfold parse_object_groups. follow. Qed.

Hint Resolve parse_header_follow parse_metadata_follow
  parse_type_names_and_indices_follow parse_object_sizes_follow
  parse_string_table_follow parse_object_groups_follow : follow.

Lemma parse_steps_follow `{!HeaderOK R} : follows R parse_steps.
Proof. intros s. unfold parse_steps. follow. Qed.

Lemma count_types_follow : follows R count_types.
Proof. intros s. unfold count_types. follow. Qed.
End Tables.

Section Offsets.
Context (R : relation NifParser) `{!PreOrder R} `{!OffsetsOK R}.

Lemma build_offsets_follow : follows R build_offsets.
Proof. intros s. unfold build_offsets. follow. Qed.
End Offsets.

(** The locator only reads: any preorder follows it. *)
Section Locator.
Context (R : relation NifParser) `{!PreOrder R}.

Lemma unpack_uint_follow o : follows R (unpack_uint o).
Proof. intros s. unfold unpack_uint. follow. Qed.
Hint Resolve unpack_uint_follow : follow.

Lemma validate_descs_follow n e es ep : follows R (validate_descs n e es ep).
Proof.
  revert e. induction n as [|n IH]; intros e s; cbn [validate_descs];
    follow.
Qed.
Hint Resolve validate_descs_follow : follow.

Lemma find_link_follow n lo np sp : follows R (find_link n lo np sp).
Proof.
  revert lo. induction n as [|n IH]; intros lo s; cbn [find_link]; follow.
Qed.
Hint Resolve find_link_follow : follow.

Lemma scan_back_follow n back idx sp ep :
  follows R (scan_back n back idx sp ep).
Proof.
  revert back. induction n as [|n IH]; intros back s; cbn [scan_back];
    follow.
Qed.
Hint Resolve scan_back_follow : follow.

Lemma scan_hits_follow fuel pat search sp ep streams :
  follows R (scan_hits fuel pat search sp ep streams).
Proof.
  revert search streams.
  induction fuel as [|n IH]; intros search streams s; cbn [scan_hits];
    follow.
Qed.
Hint Resolve scan_hits_follow : follow.

Lemma find_index_streams_in_mesh_follow i j :
  follows R (find_index_streams_in_mesh i j).
Proof. intros s. unfold find_index_streams_in_mesh. follow. Qed.
End Locator.

Section Patcher.
Context (R : relation NifParser) `{!PreOrder R} `{!CursorOK R}
        `{!PrintOK R} `{!PatchOK R}.

Lemma elem_step_follow e acc : follows R (elem_step e acc).
Proof. intros s. unfold elem_step. destruct acc. follow. Qed.

Lemma swap_loop_follow w n t ro : follows R (swap_loop w n t ro).
Proof.
  revert t. induction n as [|n IH]; intros t s; simpl.
  - reflexivity.
  - rewrite final_gets.
    destruct (_ <? _) eqn:Hlen; [reflexivity|].
    apply Z.ltb_ge in Hlen.
    apply (follow_try R). intros [[a b] c] Hu.
    apply (follow_try R). intros d' Hp.
    apply (follow_modify R).
    + by apply swap_ok with a b c.
    + apply IH.
Qed.
Hint Resolve swap_loop_follow : follow.

Lemma patch_region_follow isz stride ds region total :
  follows R (patch_region isz stride ds region total).
Proof. intros s. unfold patch_region. destruct region. follow. Qed.
Hint Resolve patch_region_follow : follow.

Lemma patch_regions_follow isz stride ds regions total :
  follows R (patch_regions isz stride ds regions total).
Proof.
  revert total.
  induction regions as [|r rs IH]; intros total s; cbn [patch_regions];
    follow.
Qed.
Hint Resolve patch_regions_follow elem_step_follow : follow.

Lemma fix_datastream_winding_follow i :
  follows R (fix_datastream_winding i).
Proof. intros s. unfold fix_datastream_winding. follow. Qed.
End Patcher.

Section Orchestrator.
Context (R : relation NifParser) `{!PreOrder R} `{!CursorOK R}
        `{!PrintOK R} `{!MeshPrintOK R} `{!PatchOK R}.

Hint Resolve fix_datastream_winding_follow
  find_index_streams_in_mesh_follow : follow.

Lemma process_streams_follow i streams processed :
  follows R (process_streams i streams processed).
Proof.
  revert processed.
  induction streams as [|[sid e] rest IH]; intros processed s; simpl.
  - reflexivity.
  - destruct (decide _); [apply IH|].
    unfold print. apply (follow_modify R); [setter_ok|].
    follow.
Qed.
Hint Resolve process_streams_follow : follow.

Lemma process_object_follow j i processed :
  follows R (process_object j i processed).
Proof. intros s. unfold process_object. follow. Qed.
Hint Resolve process_object_follow : follow.

Lemma process_all_meshes_follow : follows R process_all_meshes.
Proof. intros s. unfold process_all_meshes. follow. Qed.

Context `{!HeaderOK R} `{!TablesOK R} `{!OffsetsOK R}.
Hint Resolve parse_steps_follow build_offsets_follow count_types_follow
  process_all_meshes_follow : follow.

Lemma parse_and_fix_follow : follows R parse_and_fix.
Proof. intros s. unfold parse_and_fix. follow. Qed.
End Orchestrator.

(** ** Views of the parser object and what keeps them *)

Lemma patcher_calls_app a b :
  patcher_calls (a ++ b) = patcher_calls a ++ patcher_calls b.
Proof.
  induction a as [|l a IH]; simpl; [reflexivity|].
  destruct l; simpl; rewrite ?IH; reflexivity.
Qed.

Lemma patcher_calls_other l out :
  is_mesh_line l = false -> patcher_calls (out ++ [l]) = patcher_calls out.
Proof.
  intros H. rewrite patcher_calls_app.
  destruct l; simpl in *; try discriminate; apply app_nil_r.
Qed.

Lemma struct_offset_range len size offset o :
  struct_offset len size offset = Some o ->
  0 <= size -> 0 <= o /\ o + size <= len.
Proof.
  unfold struct_offset. intros H Hs.
  repeat match type of H with
         | context [if ?b then _ else _] => destruct b eqn:?
         end; inversion H; subst; lia.
Qed.

Lemma struct_offset_nonneg len size offset :
  0 <= offset -> offset + size <= len ->
  struct_offset len size offset = Some offset.
Proof.
  intros H1 H2. unfold struct_offset.
  destruct (offset <? 0) eqn:E1; [lia|].
  destruct (len - offset <? size) eqn:E2; [lia|]. reflexivity.
Qed.

Lemma pack_into_length w d offset vs d' :
  pack_into w d offset vs = Some d' -> length d' = length d.
Proof.
  unfold pack_into. destruct (pack w vs) as [bs|]; [|discriminate].
  destruct (struct_offset _ _ _) as [o|] eqn:E; [|discriminate].
  intros [= <-]. apply struct_offset_range in E; [|lia].
  rewrite !length_app, length_take, length_drop. lia.
Qed.

Ltac view_ok :=
  split; intros; unfold keeps, buffer_view, tables_view, calls_view,
    length_view; simpl;
  rewrite ?patcher_calls_other by assumption;
  try reflexivity.

#[export] Instance buffer_cursor : CursorOK (keeps buffer_view).
Proof. view_ok. Qed.
#[export] Instance buffer_header : HeaderOK (keeps buffer_view).
Proof. view_ok. Qed.
#[export] Instance buffer_tables : TablesOK (keeps buffer_view).
Proof. view_ok. Qed.
#[export] Instance buffer_offsets : OffsetsOK (keeps buffer_view).
Proof. view_ok. Qed.
#[export] Instance buffer_print : PrintOK (keeps buffer_view).
Proof. view_ok. Qed.

#[export] Instance tables_cursor : CursorOK (keeps tables_view).
Proof. view_ok. Qed.
#[export] Instance tables_print : PrintOK (keeps tables_view).
Proof. view_ok. Qed.
#[export] Instance tables_mesh_print : MeshPrintOK (keeps tables_view).
Proof. view_ok. Qed.
#[export] Instance tables_patch : PatchOK (keeps tables_view).
Proof. view_ok. Qed.

#[export] Instance calls_cursor : CursorOK (keeps calls_view).
Proof. view_ok. Qed.
#[export] Instance calls_header : HeaderOK (keeps calls_view).
Proof. view_ok. Qed.
#[export] Instance calls_tables : TablesOK (keeps calls_view).
Proof. view_ok. Qed.
#[export] Instance calls_offsets : OffsetsOK (keeps calls_view).
Proof. view_ok. Qed.
#[export] Instance calls_print : PrintOK (keeps calls_view).
Proof. view_ok. Qed.
#[export] Instance calls_patch : PatchOK (keeps calls_view).
Proof. view_ok. Qed.

#[export] Instance length_cursor : CursorOK (keeps length_view).
Proof. view_ok. Qed.
#[export] Instance length_header : HeaderOK (keeps length_view).
Proof. view_ok. Qed.
#[export] Instance length_tables : TablesOK (keeps length_view).
Proof. view_ok. Qed.
#[export] Instance length_offsets : OffsetsOK (keeps length_view).
Proof. view_ok. Qed.
#[export] Instance length_print : PrintOK (keeps length_view).
Proof. view_ok. Qed.
#[export] Instance length_mesh_print : MeshPrintOK (keeps length_view).
Proof. view_ok. Qed.
#[export] Instance length_patch : PatchOK (keeps length_view).
Proof. view_ok. eapply pack_into_length; eassumption. Qed.

(** ** The shape of a run *)

Lemma parse_and_fix_unfold s :
  parse_and_fix s =
  match parse_steps s with
  | Raise e s1 => Raise e s1
  | Ret false s1 => Ret false s1
  | Ret true s1 =>
      match build_offsets s1 with
      | Raise e s2 => Raise e s2
      | Ret _ s2 =>
          match count_types s2 with
          | Raise e s3 => Raise e s3
          | Ret _ s3 =>
              match process_all_meshes s3 with
              | Raise e s4 => Raise e s4
              | Ret _ s4 => Ret (modified s4) s4
              end
          end
      end
  end.
Proof.
  unfold parse_and_fix, bind.
  destruct (parse_steps s) as [[] s1|]; simpl; [|reflexivity..].
  destruct (build_offsets s1) as [? s2|]; [|reflexivity].
  destruct (count_types s2) as [? s3|]; [|reflexivity].
  destruct (process_all_meshes s3); reflexivity.
Qed.

Lemma bytes_eqb_eq a b : bytes_eqb a b = true <-> a = b.
Proof.
  revert b. induction a as [|x a IH]; intros [|y b]; simpl;
    try (split; [discriminate | congruence]); [tauto|].
  rewrite andb_true_iff, IH. split.
  - intros [H ->]. apply Byte.byte_dec_bl in H. by subst.
  - intros [= -> ->]. split; [by apply Byte.byte_dec_lb | reflexivity].
Qed.

Lemma list_index_None l x i : list_index l x i = None <-> x ∉ l.
Proof.
  revert i. induction l as [|y l IH]; intros i; simpl.
  - split; [intros _; apply not_elem_of_nil | reflexivity].
  - destruct (bytes_eqb y x) eqn:E.
    + apply bytes_eqb_eq in E. subst.
      split; [discriminate | intros H; exfalso; apply H; left].
    + rewrite IH, not_elem_of_cons. split; [|tauto].
      intros H. split; [|exact H].
      intros ->. rewrite (proj2 (bytes_eqb_eq y y)) in E by reflexivity.
      discriminate.
Qed.

Lemma process_all_meshes_no_index s :
  s_INDEX ∉ string_table s ->
  process_all_meshes s = Ret tt (set_stdout (stdout s ++ [PNoIndex]) s).
Proof.
  intros H. apply list_index_None with (i := 0) in H.
  unfold process_all_meshes, bind, gets. rewrite H. reflexivity.
Qed.

(** ** Length of the buffer *)

(** C10: every operation of the parser and of the patcher leaves the buffer
    with the length it had, whether it returns or raises; so does the write
    primitive when it writes, and so does a whole run on any input. *)
Theorem buffer_length_preserved :
  (forall w d offset vs,
      match pack_into w d offset vs with
      | Some d' => length d' = length d
      | None => True
      end) /\
  (forall s, length (data (final (parse_steps s))) = length (data s)) /\
  (forall s, length (data (final (build_offsets s))) = length (data s)) /\
  (forall i j s, length (data (final (find_index_streams_in_mesh i j s)))
                 = length (data s)) /\
  (forall i s, length (data (final (fix_datastream_winding i s)))
               = length (data s)) /\
  (forall s, length (data (final (process_all_meshes s)))
             = length (data s)) /\
  (forall s, length (data (final (parse_and_fix s))) = length (data s)) /\
  (forall input,
      length (data (final (parse_and_fix (NifParser_init input))))
      = length input).
Proof.
  split; [|repeat split].
  - intros w d offset vs.
    destruct (pack_into w d offset vs) eqn:E; [|done].
    eapply pack_into_length, E.
  - apply (parse_steps_follow (keeps length_view)).
  - apply (build_offsets_follow (keeps length_view)).
  - intros i j. apply (find_index_streams_in_mesh_follow (keeps length_view)).
  - intros i. apply (fix_datastream_winding_follow (keeps length_view)).
  - apply (process_all_meshes_follow (keeps length_view)).
  - apply (parse_and_fix_follow (keeps length_view)).
  - intros input.
    apply (parse_and_fix_follow (keeps length_view) (NifParser_init input)).
Qed.

(** ** No "INDEX" in the string table *)

(** C6: when the string table (as the run leaves it) has no entry equal to
    "INDEX", the buffer at the end of the run is the input, the modified
    flag is false, no triple was swapped and nothing is saved. *)
Theorem no_index_no_change input :
  s_INDEX ∉ string_table (final (parse_and_fix (NifParser_init input))) ->
  data (final (parse_and_fix (NifParser_init input))) = input /\
  modified (final (parse_and_fix (NifParser_init input))) = false /\
  swaps (final (parse_and_fix (NifParser_init input))) = [] /\
  forall out, fix_nif_file input <> Saved out.
Proof.
  unfold fix_nif_file. rewrite parse_and_fix_unfold.
  set (s0 := NifParser_init input).
  assert (H0 : buffer_view s0 = (input, false, [])) by reflexivity.
  pose proof (parse_steps_follow (keeps buffer_view) s0) as H1.
  destruct (parse_steps s0) as [ok s1|e s1]; simpl in H1;
    unfold keeps in H1; rewrite H0 in H1.
  2: { intros _. inversion H1. by repeat split. }
  destruct ok.
  2: { intros _. inversion H1. by repeat split. }
  pose proof (build_offsets_follow (keeps buffer_view) s1) as H2.
  destruct (build_offsets s1) as [? s2|e s2]; simpl in H2;
    unfold keeps in H2; rewrite H1 in H2.
  2: { intros _. inversion H2. by repeat split. }
  pose proof (count_types_follow (keeps buffer_view) s2) as H3.
  destruct (count_types s2) as [? s3|e s3]; simpl in H3;
    unfold keeps in H3; rewrite H2 in H3.
  2: { intros _. inversion H3. by repeat split. }
  pose proof (process_all_meshes_follow (keeps tables_view) s3) as H4.
  unfold keeps, tables_view in H4.
  destruct (process_all_meshes s3) as [? s4|e s4] eqn:E4; simpl in H4 |- *;
    intros Hno; injection H4 as _ _ _ _ Hst; rewrite Hst in Hno;
    rewrite (process_all_meshes_no_index _ Hno) in E4; [|discriminate].
  inversion E4; subst s4. unfold buffer_view in H3.
  injection H3 as Hd Hm Hs. simpl.
  rewrite Hm. by repeat split.
Qed.

(** ** Each stream is patched once *)

Lemma fold_range_from_calls body :
  (forall i a s, calls_agree a s -> calls_post (body i a s)) ->
  forall n i a s, calls_agree a s -> calls_post (fold_range_from i n body a s).
Proof.
  intros Hb n. induction n as [|n IH]; intros i a s Ha; simpl.
  - exact Ha.
  - unfold bind. specialize (Hb i a s Ha).
    destruct (body i a s) as [a' s'|e s']; [by apply IH | exact Hb].
Qed.

Lemma calls_after_patcher sid s :
  calls_view (final (fix_datastream_winding sid s)) = calls_view s.
Proof. apply (fix_datastream_winding_follow (keeps calls_view)). Qed.

Lemma calls_after_locator i j s :
  calls_view (final (find_index_streams_in_mesh i j s)) = calls_view s.
Proof. apply (find_index_streams_in_mesh_follow (keeps calls_view)). Qed.

Lemma calls_after_mesh_line i sid s :
  calls_view (set_stdout (stdout s ++ [PMeshStream i sid]) s)
  = calls_view s ++ [sid].
Proof. unfold calls_view. simpl. by rewrite patcher_calls_app. Qed.

(** The loop over the streams of one mesh: every id of [streams] ends up
    processed, and the calls still agree with the set. *)
Lemma process_streams_calls i streams :
  forall processed s,
    calls_agree processed s ->
    match process_streams i streams processed s with
    | Ret processed' s' =>
        calls_agree processed' s' /\ processed ⊆ processed' /\
        forall sid, sid ∈ streams.*1 -> sid ∈ processed'
    | Raise _ s' => NoDup (calls_view s')
    end.
Proof.
  induction streams as [|[sid e] rest IH]; intros processed s Ha; simpl.
  - split; [exact Ha|]. split; [set_solver|].
    intros sid H. by apply elem_of_nil in H.
  - destruct (decide (sid ∈ processed)) as [Hin|Hnew].
    + specialize (IH processed s Ha).
      destruct (process_streams i rest processed s) as [p' s'|]; [|exact IH].
      destruct IH as (Hagree & Hsub & Hall).
      split; [exact Hagree|]. split; [exact Hsub|].
      intros x [->|Hx]%elem_of_cons; [set_solver | by apply Hall].
    + unfold print. unfold bind at 1. unfold modify at 1.
      set (s1 := set_stdout (stdout s ++ [PMeshStream i sid]) s).
      assert (H1 : calls_agree (processed ∪ {[sid]}) s1).
      { destruct Ha as [Hset Hnd]. unfold calls_agree, s1.
        rewrite calls_after_mesh_line. split.
        - intros y.
          rewrite elem_of_app, elem_of_union, Hset, elem_of_singleton,
            list_elem_of_singleton. tauto.
        - apply NoDup_app. repeat split; [exact Hnd | | apply NoDup_singleton].
          intros y Hy ->%list_elem_of_singleton. apply Hnew, Hset, Hy. }
      unfold bind at 1.
      pose proof (calls_after_patcher sid s1) as H2.
      destruct (fix_datastream_winding sid s1) as [? s2|e2 s2];
        simpl in H2.
      * assert (H3 : calls_agree (processed ∪ {[sid]}) s2)
          by (unfold calls_agree; rewrite H2; exact H1).
        specialize (IH _ _ H3).
        destruct (process_streams i rest (processed ∪ {[sid]}) s2)
          as [p' s'|]; [|exact IH].
        destruct IH as (Hagree & Hsub & Hall).
        split; [exact Hagree|]. split; [set_solver|].
        intros x [->|Hx]%elem_of_cons; [set_solver | by apply Hall].
      * rewrite H2. apply H1.
Qed.

Lemma process_object_calls idx i processed s :
  calls_agree processed s ->
  calls_post (process_object idx i processed s).
Proof.
  intros Ha. unfold process_object.
  rewrite (bind_Ret _ _ s (object_types s) s) by reflexivity.
  destruct (py_index (object_types s) i) as [ty|]; [|apply Ha].
  rewrite (bind_Ret _ _ s ty s) by reflexivity.
  destruct (bytes_eqb ty s_NiMesh); simpl; [|exact Ha].
  unfold bind. pose proof (calls_after_locator i idx s) as Hl.
  destruct (find_index_streams_in_mesh i idx s) as [streams s1|e s1];
    simpl in Hl.
  - assert (H1 : calls_agree processed s1)
      by (unfold calls_agree; rewrite Hl; exact Ha).
    pose proof (process_streams_calls i streams processed s1 H1) as Hp.
    destruct (process_streams i streams processed s1); [apply Hp | exact Hp].
  - simpl. rewrite Hl. apply Ha.
Qed.

Lemma process_all_meshes_calls s :
  calls_view s = [] -> NoDup (calls_view (final (process_all_meshes s))).
Proof.
  intros H0. unfold process_all_meshes.
  rewrite (bind_Ret _ _ s (string_table s) s) by reflexivity.
  destruct (list_index _ _ _) as [idx|]; simpl.
  2: { unfold calls_view. simpl. rewrite patcher_calls_other by reflexivity.
       fold (calls_view s). rewrite H0. constructor. }
  set (s1 := set_stdout (stdout s ++ [PIndexAt idx]) s).
  assert (H1 : calls_agree ∅ s1).
  { unfold calls_agree, calls_view, s1. simpl.
    rewrite patcher_calls_other by reflexivity. fold (calls_view s).
    rewrite H0. split; [set_solver | constructor]. }
  unfold bind, print, modify, gets, fold_range. fold s1.
  pose proof (fold_range_from_calls (process_object idx)
                (process_object_calls idx) (Z.to_nat (num_objects s1)) 0 ∅ s1 H1)
    as Hf.
  destruct (fold_range_from _ _ _ _ _) as [p s2|e s2]; simpl in *.
  - unfold calls_view. simpl. rewrite patcher_calls_other by reflexivity.
    apply Hf.
  - exact Hf.
Qed.

#[export] Hint Resolve parse_header_follow parse_metadata_follow
  parse_type_names_and_indices_follow parse_object_sizes_follow
  parse_string_table_follow parse_object_groups_follow parse_steps_follow
  count_types_follow build_offsets_follow unpack_uint_follow
  find_index_streams_in_mesh_follow elem_step_follow swap_loop_follow
  patch_region_follow patch_regions_follow fix_datastream_winding_follow
  process_streams_follow process_object_follow process_all_meshes_follow
  parse_and_fix_follow : follow.

(** ** Walking through a computation that returned *)

(** Turns [H : m s = Ret _ _], with [m] a chain of binds, into the
    equations of its steps. *)
Ltac walk H :=
  cbv beta in H;
  lazymatch type of H with
  | bind (gets ?f) ?k ?s = ?r => change (k (f s) s = r) in H; walk H
  | bind (ret ?a) ?k ?s = ?r => change (k a s = r) in H; walk H
  | bind (modify ?f) ?k ?s = ?r => change (k tt (f s) = r) in H; walk H
  | bind (print ?l) ?k ?s = ?r =>
      change (k tt (set_stdout (stdout s ++ [l]) s) = r) in H; walk H
  | bind (raise _) _ _ = Ret _ _ => discriminate H
  | bind (try_or ?e ?o) ?k ?s = Ret ?b ?t =>
      let a := fresh "a" in
      destruct o as [a|] eqn:?;
      [change (k a s = Ret b t) in H; walk H | discriminate H]
  | bind ?m ?k ?s = Ret _ _ =>
      let E := fresh "E" in
      let a := fresh "a" in
      let s1 := fresh "s" in
      destruct (m s) as [a s1|? ?] eqn:E;
      [rewrite (bind_Ret m k s a s1 E) in H; walk E; walk H
      |rewrite (bind_Raise m k s _ _ E) in H; discriminate H]
  | (if ?b then _ else _) _ = _ => destruct b eqn:?; walk H
  | (if ?b then _ else _) = _ => destruct b eqn:?; walk H
  | ret _ _ = Ret _ _ =>
      unfold ret in H; first [discriminate H | inversion H; subst]
  | gets _ _ = Ret _ _ =>
      unfold gets in H; first [discriminate H | inversion H; subst]
  | modify _ _ = Ret _ _ =>
      unfold modify in H; first [discriminate H | inversion H; subst]
  | raise _ _ = Ret _ _ => discriminate H
  | _ => idtac
  end.

(** What a step that returned (or raised) has kept of a view [f]. *)
Ltac kept f E :=
  lazymatch type of E with
  | ?m ?s = _ =>
      let K := fresh "K" in
      assert (K : follows (keeps f) m)
        by auto with follow typeclass_instances;
      specialize (K s); rewrite E in K; unfold keeps in K; simpl in K
  end.

#[export] Instance num_objects_cursor : CursorOK (keeps num_objects).
Proof. by split. Qed.
#[export] Instance num_objects_tables : TablesOK (keeps num_objects).
Proof. by split. Qed.
#[export] Instance num_objects_print : PrintOK (keeps num_objects).
Proof. by split. Qed.

(** line 87: a header that parsed has a positive object count *)
Lemma parse_header_true s s' :
  parse_header s = Ret true s' -> 0 < num_objects s'.
Proof.
  intros H. unfold parse_header in H. walk H;
    match goal with
    | Hn : (_ <=? 0) = false |- _ => apply Z.leb_gt in Hn
    end; simpl;
    try match goal with
        | E : read_uint _ = Ret _ ?t |- context [num_objects ?t] =>
            kept num_objects E; rewrite K
        end; lia.
Qed.

(** ** Object offsets *)

Lemma offsets_from_length base sizes :
  length (offsets_from base sizes) = length sizes.
Proof. revert base. induction sizes; intros; simpl; auto. Qed.

Lemma offsets_from_step sizes : forall base (i : nat) off,
  offsets_from base sizes !! i = Some off ->
  (S i < length sizes)%nat ->
  exists sz, sizes !! i = Some sz /\
             offsets_from base sizes !! S i = Some (off + sz).
Proof.
  induction sizes as [|sz r IH]; intros base i off Hi Hlen; simpl in *;
    [lia|].
  destruct i as [|i]; simpl in *.
  - injection Hi as <-. exists sz. split; [reflexivity|].
    destruct r; simpl in *; [lia | reflexivity].
  - apply IH; [exact Hi | lia].
Qed.

Lemma py_index_nonneg {A} (l : list A) i x :
  0 <= i -> py_index l i = Some x -> l !! Z.to_nat i = Some x.
Proof.
  unfold py_index. intros Hi.
  destruct (i <? 0) eqn:E; [lia|].
  destruct (_ || _); [discriminate | auto].
Qed.

(** lines 371-373, from the turn [i] on *)
Lemma offsets_loop n : forall i cur s cur' s',
  0 <= i ->
  fold_range_from i n (fun i current_pos =>
    modify (fun s => set_object_offsets (object_offsets s ++ [current_pos]) s) ;;;
    sizes <- gets object_sizes ;;
    sz <- try_or IndexError (py_index sizes i) ;;
    ret (current_pos + sz)) cur s = Ret cur' s' ->
  object_offsets s' =
    object_offsets s
    ++ offsets_from cur (take n (drop (Z.to_nat i) (object_sizes s))) /\
  length (take n (drop (Z.to_nat i) (object_sizes s))) = n /\
  tables_view s' =
    (num_objects s, object_types s, object_sizes s, object_offsets s',
     string_table s) /\
  pos s' = pos s.
Proof.
  induction n as [|n IH]; intros i cur s cur' s' Hi H.
  - simpl in H. injection H as <- <-. rewrite take_0. simpl.
    rewrite app_nil_r. by repeat split.
  - cbn [fold_range_from] in H. walk H.
    apply IH in H; [|lia]. simpl in H.
    destruct H as (Hoff & Hlen & Hview & Hpos).
    apply py_index_nonneg in Heqo; [|lia]. simpl in Heqo.
    rewrite (drop_S _ _ _ Heqo).
    replace (Z.to_nat (i + 1)) with (S (Z.to_nat i)) in * by lia.
    simpl. rewrite Hlen. repeat split; try assumption.
    rewrite Hoff, <- app_assoc. reflexivity.
Qed.

Lemma build_offsets_spec s s' :
  build_offsets s = Ret tt s' ->
  let sizes := take (Z.to_nat (num_objects s)) (object_sizes s) in
  object_offsets s' = offsets_from (pos s) sizes /\
  length sizes = Z.to_nat (num_objects s) /\
  num_objects s' = num_objects s /\ object_sizes s' = object_sizes s.
Proof.
  intros H. unfold build_offsets, fold_range in H. walk H.
  apply offsets_loop in E; [|lia]. simpl in E.
  destruct E as (Hoff & Hlen & Hview & _).
  unfold tables_view in Hview. injection Hview as Hn _ Hs _.
  by repeat split.
Qed.

Lemma parse_steps_true s s' :
  parse_steps s = Ret true s' -> 0 < num_objects s'.
Proof.
  intros H. unfold parse_steps in H. walk H.
  all: repeat match goal with
              | Hb : negb ?b = false |- _ =>
                  destruct b; [clear Hb | discriminate Hb]
              end.
  all: match goal with
       | E : parse_header _ = Ret true _ |- _ => apply parse_header_true in E
       end.
  all: repeat match goal with
              | E : ?m _ = Ret _ _ |- _ => kept num_objects E; clear E
              end.
  all: congruence.
Qed.

(** ** Index width *)

(** after the first element the width is settled *)
Lemma elem_loop_keeps_width k : forall i acc s acc' s',
  1 <= i ->
  fold_range_from i k elem_step acc s = Ret acc' s' ->
  acc'.1 = acc.1.
Proof.
  induction k as [|k IH]; intros i acc s acc' s' Hi H.
  - simpl in H. by injection H as <- _.
  - cbn [fold_range_from] in H. unfold elem_step at 1 in H.
    destruct acc as [isz stride]. walk H.
    apply IH in H; [|lia]. rewrite H. simpl.
    destruct (i =? 0) eqn:Ei; [lia | reflexivity].
Qed.

(** ** Regions whose count is not a multiple of 3 *)

Lemma patch_regions_app isz stride ds before after total s :
  patch_regions isz stride ds (before ++ after) total s =
  match patch_regions isz stride ds before total s with
  | Ret t s1 => patch_regions isz stride ds after t s1
  | Raise e s1 => Raise e s1
  end.
Proof.
  revert total s. induction before as [|r before IH]; intros total s.
  - reflexivity.
  - cbn [app patch_regions]. unfold bind.
    destruct (patch_region isz stride ds r total s) as [t s1|e s1];
      [apply IH | reflexivity].
Qed.

(** C7, as the code has it: the patcher's step for a region whose element
    count is not a multiple of 3 changes nothing at all - not the buffer,
    not the triangle count - and the patch of a record is what it would be
    without that region. *)
Theorem region_not_multiple_of_3_skipped
    index_size elem_stride data_start base_idx count :
  count mod 3 <> 0 ->
  (forall total s,
      patch_region index_size elem_stride data_start (base_idx, count) total s
      = Ret total s) /\
  (forall before after total s,
      patch_regions index_size elem_stride data_start
                    (before ++ (base_idx, count) :: after) total s
      = patch_regions index_size elem_stride data_start
                      (before ++ after) total s).
Proof.
  intros Hc.
  assert (Hskip : forall total s,
             patch_region index_size elem_stride data_start
                          (base_idx, count) total s = Ret total s).
  { intros total s. unfold patch_region.
    destruct (count mod 3 =? 0) eqn:E; [lia|]. simpl.
    destruct (index_size =? 2); [reflexivity|].
    destruct (index_size =? 4); reflexivity. }
  split; [exact Hskip|].
  intros before after total s. rewrite !patch_regions_app.
  destruct (patch_regions _ _ _ before total s) as [t s1|e s1];
    [|reflexivity].
  cbn [patch_regions]. unfold bind at 1. rewrite Hskip. reflexivity.
Qed.

(** ** Swapping a triple, on the bytes *)

Lemma byte_val_range b : 0 <= byte_val b < 256.
Proof.
  unfold byte_val. pose proof (Byte.to_N_bounded b) as H. lia.
Qed.

Lemma byte_of_val b r : byte_of (byte_val b + 256 * r) = b.
Proof.
  unfold byte_of. pose proof (byte_val_range b) as Hb.
  replace ((byte_val b + 256 * r) mod 256) with (byte_val b).
  - unfold byte_val. rewrite N2Z.id, Byte.of_to_N. reflexivity.
  - rewrite (Z.mul_comm 256 r), Z.mod_add by lia.
    symmetry. apply Z.mod_small. lia.
Qed.

Lemma le_decode_range bs :
  0 <= le_decode bs < 2 ^ (8 * Z.of_nat (length bs)).
Proof.
  induction bs as [|b r IH]; simpl length; cbn [le_decode].
  - simpl. lia.
  - pose proof (byte_val_range b).
    replace (8 * Z.of_nat (S (length r)))
      with (8 + 8 * Z.of_nat (length r)) by lia.
    rewrite Z.pow_add_r by lia. change (2 ^ 8) with 256. nia.
Qed.

Lemma le_encode_decode bs : le_encode (length bs) (le_decode bs) = bs.
Proof.
  induction bs as [|b r IH]; simpl; [reflexivity|].
  rewrite byte_of_val. f_equal.
  pose proof (byte_val_range b).
  replace ((byte_val b + 256 * le_decode r) / 256) with (le_decode r);
    [exact IH|].
  rewrite (Z.mul_comm 256), Z.div_add by lia.
  rewrite (Z.div_small (byte_val b)) by lia. lia.
Qed.

Lemma le_encode_decode_width w bs :
  length bs = w -> le_encode w (le_decode bs) = bs.
Proof. intros <-. apply le_encode_decode. Qed.

Lemma pack_decoded w x :
  length x = w ->
  (le_decode x <? 0) || (2 ^ (8 * Z.of_nat w) <=? le_decode x) = false.
Proof.
  intros <-. pose proof (le_decode_range x).
  apply orb_false_iff. split; [apply Z.ltb_ge | apply Z.leb_gt]; lia.
Qed.

Lemma swap_triple_in_range w offset d :
  0 <= offset ->
  offset + 3 * Z.of_nat w <= Z.of_nat (length d) ->
  swap_triple w offset d = map_seg (Z.to_nat offset) (3 * w) (swap3 w) d.
Proof.
  intros H0 Hlen. unfold swap_triple, unpack3, unpack_from, pack_into.
  rewrite struct_offset_nonneg by lia.
  set (seg := take (3 * w) (drop (Z.to_nat offset) d)).
  assert (Hseg : length seg = (3 * w)%nat).
  { unfold seg. rewrite length_take, length_drop. lia. }
  cbn [le_fields pack].
  set (x := take w seg). set (y := take w (drop w seg)).
  set (z := take w (drop w (drop w seg))).
  assert (Hx : length x = w)
    by (unfold x; rewrite length_take; lia).
  assert (Hy : length y = w)
    by (unfold y; rewrite length_take, length_drop; lia).
  assert (Hz : length z = w)
    by (unfold z; rewrite length_take, !length_drop; lia).
  rewrite !pack_decoded by assumption.
  rewrite !le_encode_decode_width, app_nil_r by assumption.
  rewrite struct_offset_nonneg by (rewrite ?length_app; lia).
  unfold map_seg, swap3. fold seg. fold x.
  replace (take w (drop (2 * w) seg)) with z
    by (unfold z; rewrite drop_drop; f_equal; f_equal; lia).
  fold y. rewrite <- !app_assoc.
  replace (length (x ++ z ++ y)) with (3 * w)%nat
    by (rewrite !length_app; lia).
  reflexivity.
Qed.

Lemma swap_triple_out_of_range w offset d :
  0 <= offset ->
  Z.of_nat (length d) < offset + 3 * Z.of_nat w ->
  swap_triple w offset d = d.
Proof.
  intros H0 Hlen. unfold swap_triple, unpack3, unpack_from, struct_offset.
  destruct (offset <? 0) eqn:E; [lia|].
  destruct (Z.of_nat (length d) - offset <? Z.of_nat (3 * w)) eqn:E2;
    [reflexivity | apply Z.ltb_ge in E2; lia].
Qed.

Lemma swap_triple_length w offset d :
  length (swap_triple w offset d) = length d.
Proof.
  unfold swap_triple. destruct (unpack3 w d offset) as [[[a b] c]|];
    [|reflexivity].
  destruct (pack_into _ _ _ _) eqn:E; [|reflexivity].
  by apply pack_into_length in E.
Qed.

Lemma map_seg_split (o n : nat) f (A X R : list byte) :
  length A = o -> length X = n ->
  map_seg o n f (A ++ X ++ R) = A ++ f X ++ R.
Proof.
  intros HA HX. unfold map_seg.
  rewrite take_app_length' by done.
  rewrite drop_app_length' by done.
  rewrite take_app_length' by done.
  rewrite drop_app_add' by done.
  rewrite drop_app_length' by done. reflexivity.
Qed.

(** a buffer cut around the [n] bytes at [o] *)
Lemma cut_around (o n : nat) (d : list byte) :
  (o + n <= length d)%nat ->
  exists A X R, d = A ++ X ++ R /\ length A = o /\ length X = n.
Proof.
  intros H. exists (take o d), (take n (drop o d)), (drop n (drop o d)).
  rewrite !take_drop. repeat split.
  - rewrite length_take. lia.
  - rewrite length_take, length_drop. lia.
Qed.

Lemma map_seg_length (o n : nat) f (d : list byte) :
  (forall X, length X = n -> length (f X) = n) ->
  (o + n <= length d)%nat ->
  length (map_seg o n f d) = length d.
Proof.
  intros Hf H. destruct (cut_around o n d H) as (A & X & R & -> & HA & HX).
  rewrite map_seg_split by done. rewrite !length_app, Hf by done. lia.
Qed.

Lemma map_seg_twice (o n : nat) f (d : list byte) :
  (forall X, length X = n -> length (f X) = n) ->
  (forall X, length X = n -> f (f X) = X) ->
  (o + n <= length d)%nat ->
  map_seg o n f (map_seg o n f d) = d.
Proof.
  intros Hlen Hf H.
  destruct (cut_around o n d H) as (A & X & R & -> & HA & HX).
  rewrite !map_seg_split by auto. by rewrite Hf.
Qed.

Lemma map_seg_commute (o1 n1 : nat) f (o2 n2 : nat) g (d : list byte) :
  (forall X, length X = n1 -> length (f X) = n1) ->
  (forall X, length X = n2 -> length (g X) = n2) ->
  (o1 + n1 <= o2)%nat -> (o2 + n2 <= length d)%nat ->
  map_seg o1 n1 f (map_seg o2 n2 g d) = map_seg o2 n2 g (map_seg o1 n1 f d).
Proof.
  intros Hf Hg H12 H2.
  destruct (cut_around o2 n2 d H2) as (P & Y & C & -> & HP & HY).
  assert (H1 : (o1 + n1 <= length P)%nat) by lia.
  destruct (cut_around o1 n1 P H1) as (A & X & B & -> & HA & HX).
  rewrite (map_seg_split o2 n2 g) by done.
  rewrite <- !app_assoc.
  rewrite (map_seg_split o1 n1 f A X) by done.
  rewrite (map_seg_split o1 n1 f A X) by done.
  replace (A ++ f X ++ B ++ Y ++ C) with ((A ++ f X ++ B) ++ Y ++ C)
    by (by rewrite <- !app_assoc).
  rewrite (map_seg_split o2 n2 g).
  - by rewrite <- !app_assoc.
  - rewrite !length_app in *. rewrite Hf by done. lia.
  - done.
Qed.

Lemma swap3_length w X :
  length X = (3 * w)%nat -> length (swap3 w X) = (3 * w)%nat.
Proof.
  intros H. unfold swap3. rewrite !length_app, !length_take, !length_drop.
  lia.
Qed.

Lemma swap3_twice w X : length X = (3 * w)%nat -> swap3 w (swap3 w X) = X.
Proof.
  intros H.
  assert (HX : X = take w X ++ take w (drop w X) ++ drop (2 * w) X).
  { rewrite <- (take_drop w X) at 1. f_equal.
    rewrite <- (take_drop w (drop w X)) at 1. f_equal.
    rewrite drop_drop. f_equal. lia. }
  set (x := take w X) in *. set (y := take w (drop w X)) in *.
  set (z := drop (2 * w) X) in *.
  assert (Hx : length x = w) by (unfold x; rewrite length_take; lia).
  assert (Hy : length y = w)
    by (unfold y; rewrite length_take, length_drop; lia).
  assert (Hz : length z = w) by (unfold z; rewrite length_drop; lia).
  assert (Hswap : forall a b c : list byte,
             length a = w -> length b = w -> length c = w ->
             swap3 w (a ++ b ++ c) = a ++ c ++ b).
  { intros a b c Ha Hb Hc. unfold swap3.
    rewrite take_app_length' by done.
    replace (2 * w)%nat with (w + w)%nat by lia.
    rewrite drop_app_add' by done. rewrite drop_app_length' by done.
    rewrite take_ge by lia.
    rewrite drop_app_length' by done.
    rewrite take_app_length' by done. reflexivity. }
  rewrite HX, !Hswap by done. reflexivity.
Qed.

Lemma swap_triple_twice w offset d :
  0 <= offset -> swap_triple w offset (swap_triple w offset d) = d.
Proof.
  intros H0.
  destruct (Z_le_gt_dec (offset + 3 * Z.of_nat w) (Z.of_nat (length d)))
    as [Hin|Hout].
  - rewrite (swap_triple_in_range w offset d) by done.
    rewrite swap_triple_in_range;
      [| done | rewrite map_seg_length; auto using swap3_length; lia].
    apply map_seg_twice; auto using swap3_length, swap3_twice. lia.
  - rewrite (swap_triple_out_of_range w offset d) by lia.
    apply swap_triple_out_of_range; lia.
Qed.

Lemma swap_triple_commute_lt w1 o1 w2 o2 d :
  0 <= o1 -> 0 <= o2 -> o1 + 3 * Z.of_nat w1 <= o2 ->
  swap_triple w1 o1 (swap_triple w2 o2 d)
  = swap_triple w2 o2 (swap_triple w1 o1 d).
Proof.
  intros H1 H2 H12.
  destruct (Z_le_gt_dec (o2 + 3 * Z.of_nat w2) (Z.of_nat (length d)))
    as [Hin|Hout].
  - rewrite (swap_triple_in_range w2 o2 d) by done.
    rewrite (swap_triple_in_range w1 o1 d) by lia.
    rewrite !swap_triple_in_range;
      try done; try (rewrite map_seg_length; auto using swap3_length; lia).
    apply map_seg_commute; auto using swap3_length; lia.
  - rewrite (swap_triple_out_of_range w2 o2 d) by lia.
    symmetry. apply swap_triple_out_of_range; [done|].
    rewrite swap_triple_length. lia.
Qed.

Lemma swap_triple_commute a b d :
  0 <= a.1 -> 0 <= b.1 -> apart a b ->
  swap_triple a.2 a.1 (swap_triple b.2 b.1 d)
  = swap_triple b.2 b.1 (swap_triple a.2 a.1 d).
Proof.
  intros Ha Hb [H|H].
  - by apply swap_triple_commute_lt.
  - symmetry. by apply swap_triple_commute_lt.
Qed.

Lemma apply_swaps_commute a l : forall d,
  0 <= a.1 -> Forall (fun b => 0 <= b.1 /\ apart a b) l ->
  swap_triple a.2 a.1 (apply_swaps l d)
  = apply_swaps l (swap_triple a.2 a.1 d).
Proof.
  induction l as [|b l IH]; intros d Ha Hl; [reflexivity|].
  apply Forall_cons in Hl as [[Hb Hab] Hl]. unfold apply_swaps in *.
  cbn [fold_left]. rewrite IH by done. f_equal.
  by apply swap_triple_commute.
Qed.

Lemma apply_swaps_cons a l d :
  apply_swaps (a :: l) d = apply_swaps l (swap_triple a.2 a.1 d).
Proof. reflexivity. Qed.

Lemma apply_swaps_app l1 l2 d :
  apply_swaps (l1 ++ l2) d = apply_swaps l2 (apply_swaps l1 d).
Proof. apply fold_left_app. Qed.

Lemma apply_swaps_twice l : forall d,
  separated l -> apply_swaps l (apply_swaps l d) = d.
Proof.
  induction l as [|a l IH]; intros d Hs; [reflexivity|].
  destruct Hs as (Ha & Hl & Hs).
  rewrite !apply_swaps_cons.
  rewrite apply_swaps_commute by done.
  rewrite swap_triple_twice by done. by apply IH.
Qed.

(** ** The buffer is the input with the recorded swaps applied *)

#[export] Instance replays_preorder : PreOrder replays.
Proof.
  split.
  - intros s. exists []. by rewrite app_nil_r.
  - intros s1 s2 s3 (n1 & Hs1 & Hd1) (n2 & Hs2 & Hd2).
    exists (n1 ++ n2). rewrite Hs2, Hs1, Hd2, Hd1, apply_swaps_app.
    by rewrite app_assoc.
Qed.

Ltac replays_same := split; intros; exists []; simpl; by rewrite app_nil_r.

#[export] Instance replays_cursor : CursorOK replays.
Proof. replays_same. Qed.
#[export] Instance replays_header : HeaderOK replays.
Proof. replays_same. Qed.
#[export] Instance replays_tables : TablesOK replays.
Proof. replays_same. Qed.
#[export] Instance replays_offsets : OffsetsOK replays.
Proof. replays_same. Qed.
#[export] Instance replays_print : PrintOK replays.
Proof. replays_same. Qed.
#[export] Instance replays_mesh_print : MeshPrintOK replays.
Proof. replays_same. Qed.
#[export] Instance replays_patch : PatchOK replays.
Proof.
  split.
  - intros s w offset a b c d' _ Hu Hp. exists [(offset, w)].
    split; [reflexivity|]. simpl. unfold swap_triple. by rewrite Hu, Hp.
  - intros s. exists []. simpl. by rewrite app_nil_r.
Qed.

Lemma run_replays input :
  data (final (parse_and_fix (NifParser_init input)))
  = apply_swaps (swaps (final (parse_and_fix (NifParser_init input)))) input.
Proof.
  destruct (parse_and_fix_follow replays (NifParser_init input))
    as (new & Hs & Hd).
  simpl in Hs, Hd. by rewrite Hs, Hd.
Qed.


(** ** Files older than 20.2.0.5 *)

(** With objects to place and no size read, the first turn of the offset
    loop raises (line 373), after appending the first offset. *)
Lemma build_offsets_without_sizes s :
  0 < num_objects s -> object_sizes s = [] ->
  build_offsets s
  = Raise IndexError (set_object_offsets [pos s] s).
Proof.
  intros Hn Hs.
  assert (Ek : exists k, Z.to_nat (num_objects s) = S k)
    by (exists (Z.to_nat (num_objects s) - 1)%nat; lia).
  destruct Ek as [k Ek].
  unfold build_offsets, fold_range, bind, gets, modify. simpl.
  rewrite Ek. cbn [fold_range_from]. unfold bind. simpl.
  rewrite Hs. reflexivity.
Qed.

(** ** Reads past the end of the buffer *)

Lemma struct_offset_past len size offset :
  0 <= offset -> len < offset + size -> struct_offset len size offset = None.
Proof.
  intros H0 H. unfold struct_offset.
  destruct (offset <? 0) eqn:E; [lia|].
  destruct (len - offset <? size) eqn:E2; [reflexivity|].
  apply Z.ltb_ge in E2. lia.
Qed.

Lemma unpack1_past w d offset :
  0 <= offset -> Z.of_nat (length d) < offset + Z.of_nat w ->
  unpack1 w d offset = None.
Proof.
  intros H0 H. unfold unpack1, unpack_from.
  rewrite struct_offset_past; [reflexivity | done | lia].
Qed.

(** ** The claims on the hand-built files *)

(** C1, counterexample: the only element format of [Sample.wide_indices]
    (read at offset 155) has dataTypeCode 5, neither 10 nor 11, and
    itemByteSize 4; the run reads and rewrites the triangle with fields of 4
    bytes, not 2. *)
Lemma index_width_4_for_type_5 :
  unpack1 4 Sample.wide_indices 155 = Some (Sample.elem_format 1 4 5) /\
  data_type (Sample.elem_format 1 4 5) = 5 /\
  swaps (final (parse_and_fix (NifParser_init Sample.wide_indices)))
  = [(159, 4%nat)].
Proof. vm_compute. repeat split. Qed.

(** C2, on a file of version 20.2.0.4 whose header parses with two objects:
    the run does not complete, the offset loop raises [IndexError] at
    [object_sizes[0]] (line 373) and the exception leaves [fix_nif_file]. *)
Lemma old_version_raises :
  exists s,
    parse_and_fix (NifParser_init Sample.old_version) = Raise IndexError s /\
    file_ver s = nif_version 20 2 0 4 /\ num_objects s = 2 /\
    object_sizes s = [] /\
    fix_nif_file Sample.old_version = Uncaught IndexError.
Proof. eexists. vm_compute. repeat split. Qed.


(** C4, on a file whose only region has one triangle that the buffer is too
    short to hold: no triple is swapped, the buffer is the input, and yet the
    run returns True and the file is saved. *)
Lemma truncated_region_sets_modified :
  exists s,
    parse_and_fix (NifParser_init Sample.truncated_stream) = Ret true s /\
    swaps s = [] /\ data s = Sample.truncated_stream /\ modified s = true /\
    fix_nif_file Sample.truncated_stream = Saved Sample.truncated_stream.
Proof. eexists. vm_compute. repeat split. Qed.


(** C7, counterexample: the record of [Sample.skipped_overlap] has the
    regions (0, 4) and (0, 3) (read at offset 143), 16-bit indices and its
    payload at offset 167.  The region of 4 elements is bytes 167 to 174,
    and the run changes them, through the other region. *)
Lemma skipped_region_bytes_change :
  unpack_from 4 4 Sample.skipped_overlap 143 = Some [0; 4; 0; 3] /\
  4 mod 3 <> 0 /\
  py_slice (data (final (parse_and_fix
                           (NifParser_init Sample.skipped_overlap)))) 167 175
  <> py_slice Sample.skipped_overlap 167 175.
Proof.
  split; [vm_compute; reflexivity|].
  split; [intros H; vm_compute in H; discriminate H|].
  vm_compute. intros H. discriminate H.
Qed.

(** ** The while loop of the Locator is not cut short *)

Lemma find_from_ge p : forall l i0,
  0 <= i0 -> find_from p l i0 = -1 \/ i0 <= find_from p l i0.
Proof.
  induction l as [|x l IH]; intros i0 H0; cbn [find_from].
  - destruct (startswith [] p); [right; lia | left; reflexivity].
  - destruct (startswith (x :: l) p); [right; lia|].
    destruct (IH (i0 + 1) ltac:(lia)) as [H|H]; [by left | right; lia].
Qed.

Lemma py_find_ge d p lo hi :
  p <> [] -> py_find d p lo hi = -1 \/ lo <= py_find d p lo hi.
Proof.
  intros Hp. unfold py_find.
  set (len := Z.of_nat (length d)).
  assert (Hlen : 0 <= len) by (unfold len; lia).
  destruct (clamp_index len hi <? clamp_index len lo) eqn:E; [by left|].
  apply Z.ltb_ge in E.
  assert (H0 : 0 <= clamp_index len lo)
    by (unfold clamp_index; destruct (lo <? 0) eqn:?; lia).
  destruct (Z_le_gt_dec lo len) as [Hle|Hgt].
  - assert (lo <= clamp_index len lo)
      by (unfold clamp_index; destruct (lo <? 0) eqn:?; lia).
    destruct (find_from_ge p (py_slice d (clamp_index len lo)
                                       (clamp_index len hi))
                           (clamp_index len lo) H0); [by left | right; lia].
  - left.
    assert (Hlo : clamp_index len lo = len)
      by (unfold clamp_index; destruct (lo <? 0) eqn:?; lia).
    assert (Hhi : clamp_index len hi = len)
      by (unfold clamp_index in *; destruct (hi <? 0) eqn:?; lia).
    rewrite Hlo, Hhi. unfold py_slice. fold len.
    replace (clamp_index len len) with len
      by (unfold clamp_index; destruct (len <? 0) eqn:?; lia).
    rewrite Z.sub_diag. simpl. destruct p; [done | reflexivity].
Qed.

(** X18. Lines 166-228: the [while] loop of the Locator always ends, since
    [search_pos] grows at every turn.  Once the fuel covers
    [end_pos - 20 - search_pos], more fuel changes nothing: the loop ends
    by its own test or by a [break]. *)
Lemma scan_hits_fuel pat sp ep : forall fuel1 fuel2 search streams s,
  pat <> [] ->
  (Z.to_nat (ep - 20 - search) <= fuel1)%nat ->
  (Z.to_nat (ep - 20 - search) <= fuel2)%nat ->
  scan_hits fuel1 pat search sp ep streams s
  = scan_hits fuel2 pat search sp ep streams s.
Proof.
  induction fuel1 as [|f1 IH]; intros fuel2 search streams s Hp H1 H2;
    destruct fuel2 as [|f2]; cbn [scan_hits];
    destruct (search <? ep - 20) eqn:C; cbn [negb];
    try reflexivity; try lia.
  rewrite !bind_gets.
  destruct (py_find_ge (data s) pat search ep Hp) as [Hf|Hf].
  - rewrite Hf. reflexivity.
  - destruct (py_find (data s) pat search ep =? -1); [reflexivity|].
    destruct (unpack_uint (py_find (data s) pat search ep + 4) s)
      as [v s1|e s1] eqn:Eu.
    2: { rewrite !(bind_Raise _ _ _ _ _ Eu). reflexivity. }
    rewrite !(bind_Ret _ _ _ _ _ Eu).
    destruct (10 <=? v); [apply IH; [done | lia..]|].
    destruct (scan_back 24 4 (py_find (data s) pat search ep) sp ep s1)
      as [r s2|e s2] eqn:Eb.
    2: { rewrite !(bind_Raise _ _ _ _ _ Eb). reflexivity. }
    rewrite !(bind_Ret _ _ _ _ _ Eb). apply IH; [done | lia..].
Qed.

(** ** The theorems at work on the hand-built files *)


(** C6 on [Sample.no_index]. *)
Lemma no_index_witness :
  data (final (parse_and_fix (NifParser_init Sample.no_index)))
  = Sample.no_index /\
  modified (final (parse_and_fix (NifParser_init Sample.no_index))) = false /\
  swaps (final (parse_and_fix (NifParser_init Sample.no_index))) = [] /\
  forall out, fix_nif_file Sample.no_index <> Saved out.
Proof.
  apply no_index_no_change.
  apply (proj1 (list_index_None _ _ 0)). vm_compute. reflexivity.
Defined.

(** C7 for the region (0, 4) of [Sample.skipped_overlap]. *)
Lemma region_skipped_witness :
  (forall total s, patch_region 2 2 167 (0, 4) total s = Ret total s) /\
  (forall before after total s,
      patch_regions 2 2 167 (before ++ (0, 4) :: after) total s
      = patch_regions 2 2 167 (before ++ after) total s).
Proof.
  apply region_not_multiple_of_3_skipped.
  intros H. vm_compute in H. discriminate H.
Defined.

(** * More of the code *)

(** ** What a method leaves behind, by outcome *)

Lemma wp_bind {A B} (m : M A) (k : A -> M B) Q E s :
  wp m (fun a s' => wp (k a) Q E s') E s -> wp (bind m k) Q E s.
Proof. unfold wp, bind. destruct (m s); auto. Qed.

Lemma wp_mono {A} (m : M A) (Q1 Q2 : A -> NifParser -> Prop)
    (E1 E2 : exn -> NifParser -> Prop) s :
  wp m Q1 E1 s ->
  (forall a s', Q1 a s' -> Q2 a s') ->
  (forall e s', E1 e s' -> E2 e s') ->
  wp m Q2 E2 s.
Proof. unfold wp. destruct (m s); auto. Qed.

Lemma wp_fold_from {A} (body : Z -> A -> M A)
    (J : Z -> A -> NifParser -> Prop) (E : exn -> NifParser -> Prop) :
  (forall i a s, J i a s -> wp (body i a) (J (i + 1)) E s) ->
  forall n i a s,
    J i a s ->
    wp (fold_range_from i n body a) (J (i + Z.of_nat n)) E s.
Proof.
  intros Hb n. induction n as [|n IH]; intros i a s HJ.
  - unfold wp. simpl. by rewrite Z.add_0_r.
  - cbn [fold_range_from]. apply wp_bind.
    eapply wp_mono; [apply Hb, HJ | | auto].
    intros a' s' HJ'. cbv beta.
    replace (i + Z.of_nat (S n)) with (i + 1 + Z.of_nat n) by lia.
    by apply IH.
Qed.

Lemma unpack1_value w d offset v :
  0 <= offset -> unpack1 w d offset = Some v ->
  offset + Z.of_nat w <= Z.of_nat (length d) /\
  v = le_decode (take w (drop (Z.to_nat offset) d)) /\
  0 <= v < 2 ^ (8 * Z.of_nat w).
Proof.
  intros H0. unfold unpack1, unpack_from. rewrite Nat.mul_1_l.
  destruct (struct_offset _ _ _) as [o|] eqn:E; [|discriminate].
  unfold struct_offset in E.
  destruct (offset <? 0) eqn:E0; [lia|].
  destruct (_ <? _) eqn:E1 in E; [discriminate|].
  injection E as <-. apply Z.ltb_ge in E1.
  cbn [le_fields]. intros [= <-].
  rewrite take_take, Nat.min_id.
  split; [lia|]. split; [reflexivity|].
  pose proof (le_decode_range (take w (drop (Z.to_nat offset) d))) as Hr.
  rewrite length_take, length_drop in Hr.
  replace (w `min` (length d - Z.to_nat offset))%nat with w in Hr by lia.
  exact Hr.
Qed.

(** X1. Reading primitives, from a cursor inside or past the buffer (lines
    31-49): a read returns the little-endian value of the bytes at the
    cursor and moves the cursor by the width of the field, touching nothing
    else; when fewer bytes are left it raises and leaves the parser as it
    was.  [read_int] is the two's complement reading of what [read_uint]
    returns. *)
Theorem readers_spec s :
  0 <= pos s ->
  let len := Z.of_nat (length (data s)) in
  let rest := drop (Z.to_nat (pos s)) (data s) in
  match read_byte s with
  | Ret v s' => pos s < len /\ v = le_decode (take 1 rest) /\
                0 <= v < 256 /\ s' = set_pos (pos s + 1) s
  | Raise e s' => len <= pos s /\ e = IndexError /\ s' = s
  end /\
  match read_ushort s with
  | Ret v s' => pos s + 2 <= len /\ v = le_decode (take 2 rest) /\
                0 <= v < 65536 /\ s' = set_pos (pos s + 2) s
  | Raise e s' => len < pos s + 2 /\ e = StructError /\ s' = s
  end /\
  match read_uint s with
  | Ret v s' => pos s + 4 <= len /\ v = le_decode (take 4 rest) /\
                0 <= v < 2 ^ 32 /\ s' = set_pos (pos s + 4) s
  | Raise e s' => len < pos s + 4 /\ e = StructError /\ s' = s
  end /\
  match read_int s with
  | Ret v s' => pos s + 4 <= len /\
                v = to_signed32 (le_decode (take 4 rest)) /\
                - 2 ^ 31 <= v < 2 ^ 31 /\ s' = set_pos (pos s + 4) s
  | Raise e s' => len < pos s + 4 /\ e = StructError /\ s' = s
  end.
Proof.
  intros H0 len rest. split; [|split; [|split]].
  - unfold read_byte, bind, gets, modify, ret, try_or, py_index.
    cbv beta iota zeta. fold len.
    destruct (pos s <? 0) eqn:E0; [lia|].
    destruct (pos s <? 0) eqn:E1; [lia|].
    destruct (len <=? pos s) eqn:E2; simpl.
    + apply Z.leb_le in E2. by repeat split.
    + apply Z.leb_gt in E2.
      destruct (data s !! Z.to_nat (pos s)) as [b|] eqn:Eb.
      * simpl. pose proof (byte_val_range b).
        assert (Hr : take 1 rest = [b]).
        { unfold rest. rewrite (drop_S _ _ _ Eb). reflexivity. }
        rewrite Hr. simpl. repeat split; lia.
      * apply lookup_ge_None in Eb. unfold len in E2. lia.
  - unfold read_ushort, bind, gets, modify, ret, try_or.
    cbv beta iota zeta.
    destruct (unpack1 2 (data s) (pos s)) as [v|] eqn:E; simpl.
    + apply unpack1_value in E as (Hl & Hv & Hr); [|done].
      repeat split; try done; try lia.
    + destruct (Z_lt_le_dec len (pos s + 2)) as [Hlt|Hge]; [done|].
      exfalso. unfold unpack1, unpack_from in E.
      rewrite struct_offset_nonneg in E by (fold len; lia). discriminate E.
  - unfold read_uint, bind, gets, modify, ret, try_or.
    cbv beta iota zeta.
    destruct (unpack1 4 (data s) (pos s)) as [v|] eqn:E; simpl.
    + apply unpack1_value in E as (Hl & Hv & Hr); [|done].
      repeat split; try done; try lia.
    + destruct (Z_lt_le_dec len (pos s + 4)) as [Hlt|Hge]; [done|].
      exfalso. unfold unpack1, unpack_from in E.
      rewrite struct_offset_nonneg in E by (fold len; lia). discriminate E.
  - unfold read_int, bind, gets, modify, ret, try_or.
    cbv beta iota zeta.
    destruct (unpack1 4 (data s) (pos s)) as [v|] eqn:E; simpl.
    + apply unpack1_value in E as (Hl & Hv & Hr); [|done].
      change (2 ^ (8 * Z.of_nat 4)) with 4294967296 in Hr.
      unfold to_signed32. fold rest in Hv. rewrite <- Hv.
      change (2 ^ 31) with 2147483648. change (2 ^ 32) with 4294967296.
      repeat split; try done; try lia;
        destruct (2147483648 <=? v) eqn:E3; lia.
    + destruct (Z_lt_le_dec len (pos s + 4)) as [Hlt|Hge]; [done|].
      exfalso. unfold unpack1, unpack_from in E.
      rewrite struct_offset_nonneg in E by (fold len; lia). discriminate E.
Qed.

(** X1 at the version field of [Sample.two_meshes]. *)
Lemma readers_witness :
  match read_uint (set_pos 21 (NifParser_init Sample.two_meshes)) with
  | Ret v s' => v = nif_version 20 2 0 7 /\ pos s' = 25
  | Raise _ _ => False
  end.
Proof.
  assert (H0 : 0 <= pos (set_pos 21 (NifParser_init Sample.two_meshes)))
    by (simpl; lia).
  destruct (readers_spec _ H0) as (_ & _ & Hu & _).
  destruct (read_uint (set_pos 21 (NifParser_init Sample.two_meshes)))
    as [v s'|e s'].
  - destruct Hu as (_ & -> & _ & ->). split; vm_compute; reflexivity.
  - destruct Hu as (Hlen & _). vm_compute in Hlen. discriminate Hlen.
Defined.

(** ** Values and states of the reads, for the proofs below *)

Lemma le_decode_bound bs (n : nat) :
  (length bs <= n)%nat -> 0 <= le_decode bs < 2 ^ (8 * Z.of_nat n).
Proof.
  intros H. pose proof (le_decode_range bs) as Hr.
  assert (2 ^ (8 * Z.of_nat (length bs)) <= 2 ^ (8 * Z.of_nat n))
    by (apply Z.pow_le_mono_r; lia).
  lia.
Qed.

Lemma unpack1_range w d offset v :
  unpack1 w d offset = Some v -> 0 <= v < 2 ^ (8 * Z.of_nat w).
Proof.
  unfold unpack1, unpack_from.
  destruct (struct_offset _ _ _) as [o|]; [|discriminate].
  cbn [le_fields]. intros [= <-].
  apply le_decode_bound. rewrite length_take. lia.
Qed.

Lemma read_uint_wp s :
  wp read_uint
     (fun v s' => 0 <= v < 2 ^ 32 /\ s' = set_pos (pos s + 4) s)
     (fun e s' => e = StructError /\ s' = s) s.
Proof.
  unfold wp, read_uint, bind, gets, modify, ret, try_or. cbv beta iota.
  destruct (unpack1 4 (data s) (pos s)) as [v|] eqn:E; simpl; [|done].
  split; [|done]. by apply unpack1_range in E.
Qed.

Lemma read_ushort_wp s :
  wp read_ushort
     (fun v s' => 0 <= v < 65536 /\ s' = set_pos (pos s + 2) s)
     (fun e s' => e = StructError /\ s' = s) s.
Proof.
  unfold wp, read_ushort, bind, gets, modify, ret, try_or. cbv beta iota.
  destruct (unpack1 2 (data s) (pos s)) as [v|] eqn:E; simpl; [|done].
  split; [|done]. by apply unpack1_range in E.
Qed.

Lemma read_int_wp s :
  wp read_int
     (fun v s' => - 2 ^ 31 <= v < 2 ^ 31 /\ s' = set_pos (pos s + 4) s)
     (fun e s' => e = StructError /\ s' = s) s.
Proof.
  unfold wp, read_int, bind, gets, modify, ret, try_or. cbv beta iota.
  destruct (unpack1 4 (data s) (pos s)) as [v|] eqn:E; simpl; [|done].
  split; [|done]. apply unpack1_range in E.
  change (2 ^ (8 * Z.of_nat 4)) with 4294967296 in E.
  unfold to_signed32. change (2 ^ 31) with 2147483648.
  change (2 ^ 32) with 4294967296.
  destruct (2147483648 <=? v) eqn:E3; lia.
Qed.

Lemma read_byte_wp s :
  wp read_byte
     (fun v s' => 0 <= v < 256 /\ s' = set_pos (pos s + 1) s)
     (fun e s' => e = IndexError /\ s' = s) s.
Proof.
  unfold wp, read_byte, bind, gets, modify, ret, try_or. cbv beta iota.
  destruct (py_index (data s) (pos s)) as [b|]; simpl; [|done].
  split; [apply byte_val_range | done].
Qed.

Lemma read_string_wp n s :
  wp (read_string n)
     (fun str s' => str = rstrip0 (py_slice (data s) (pos s) (pos s + n)) /\
                    s' = set_pos (pos s + n) s)
     (fun _ _ => False) s.
Proof. unfold wp, read_string, bind, gets, modify, ret. simpl. done. Qed.

(** ** The header line (lines 64-74) *)

Lemma startswith_byte l x :
  startswith l [x] = match l with
                     | y :: _ => Byte.eqb y x
                     | [] => false
                     end.
Proof.
  destruct l as [|y l]; simpl; [reflexivity|].
  destruct l; apply andb_true_r.
Qed.

Lemma byte_eqb_neq x y : x <> y -> Byte.eqb x y = false.
Proof.
  intros H. destruct (Byte.eqb x y) eqn:E; [|reflexivity].
  by apply Byte.byte_dec_bl in E.
Qed.

Lemma find_from_absent x l i : x ∉ l -> find_from [x] l i = -1.
Proof.
  revert i. induction l as [|y l IH]; intros i H; cbn [find_from];
    rewrite startswith_byte; [reflexivity|].
  apply not_elem_of_cons in H as [Hy Hl].
  rewrite (byte_eqb_neq y x) by done. by apply IH.
Qed.

Lemma find_from_first x line rest i :
  x ∉ line ->
  find_from [x] (line ++ x :: rest) i = i + Z.of_nat (length line).
Proof.
  revert i. induction line as [|y l IH]; intros i H; cbn [find_from app];
    rewrite startswith_byte.
  - rewrite (Byte.byte_dec_lb (eq_refl x)). simpl. lia.
  - apply not_elem_of_cons in H as [Hy Hl].
    rewrite (byte_eqb_neq y x) by done. rewrite IH by done.
    simpl length. lia.
Qed.

Lemma py_find_whole d x :
  py_find d [x] 0 (Z.of_nat (length d)) = find_from [x] d 0.
Proof.
  unfold py_find. set (len := Z.of_nat (length d)).
  assert (Hlen : 0 <= len) by (unfold len; lia).
  assert (Hlo : clamp_index len 0 = 0)
    by (unfold clamp_index; simpl; lia).
  assert (Hhi : clamp_index len len = len)
    by (unfold clamp_index; destruct (len <? 0) eqn:?; lia).
  rewrite Hlo, Hhi. destruct (len <? 0) eqn:E; [lia|].
  unfold py_slice. fold len. rewrite Hlo, Hhi, Z.sub_0_r.
  unfold len. rewrite Nat2Z.id. simpl drop. by rewrite take_ge.
Qed.

Lemma py_slice_prefix {A} (line rest : list A) :
  py_slice (line ++ rest) 0 (Z.of_nat (length line)) = line.
Proof.
  unfold py_slice. set (len := Z.of_nat (length (line ++ rest))).
  assert (Hlen : Z.of_nat (length line) <= len)
    by (unfold len; rewrite length_app; lia).
  assert (Hlo : clamp_index len 0 = 0)
    by (unfold clamp_index; simpl; lia).
  assert (Hhi : clamp_index len (Z.of_nat (length line))
                = Z.of_nat (length line))
    by (unfold clamp_index;
        destruct (Z.of_nat (length line) <? 0) eqn:?; lia).
  rewrite Hlo, Hhi, Z.sub_0_r, Nat2Z.id. simpl drop.
  apply take_app_length.
Qed.

Lemma parse_header_outcome_run s :
  match parse_header s with
  | Ret false s' => parse_and_fix s = Ret false s'
  | Raise e s' => parse_and_fix s = Raise e s'
  | Ret true _ => True
  end.
Proof.
  rewrite parse_and_fix_unfold. unfold parse_steps.
  destruct (parse_header s) as [[] s'|e s'] eqn:E; [done| |].
  - by rewrite (bind_Ret _ _ _ _ _ E).
  - by rewrite (bind_Raise _ _ _ _ _ E).
Qed.

(** X4. Lines 66-68: a buffer without a newline is no NIF file.  The header
    reader returns False at once, with the parser untouched and nothing
    printed, and the file is left alone. *)
Theorem header_without_newline input :
  x0a ∉ input ->
  parse_header (NifParser_init input) = Ret false (NifParser_init input) /\
  parse_and_fix (NifParser_init input) = Ret false (NifParser_init input) /\
  fix_nif_file input = NoChanges.
Proof.
  intros H.
  assert (Hh : parse_header (NifParser_init input)
               = Ret false (NifParser_init input)).
  { unfold parse_header. rewrite bind_gets.
    change (data (NifParser_init input)) with input.
    rewrite py_find_whole, find_from_absent by done. reflexivity. }
  pose proof (parse_header_outcome_run (NifParser_init input)) as Hr.
  rewrite Hh in Hr. unfold fix_nif_file. by rewrite Hr.
Qed.

(** X4 on the empty buffer. *)
Lemma header_without_newline_witness :
  parse_header (NifParser_init []) = Ret false (NifParser_init []) /\
  parse_and_fix (NifParser_init []) = Ret false (NifParser_init []) /\
  fix_nif_file [] = NoChanges.
Proof. apply header_without_newline. apply not_elem_of_nil. Defined.

(** X5. Lines 69-71: the bytes before the first newline are the header line.
    A byte of 128 or more in it makes the ASCII decoding raise, and the
    exception leaves [fix_nif_file]; a line of ASCII bytes without
    "Gamebryo File Format" makes the header reader return False.  Either
    way the parser is untouched and nothing is written. *)
Theorem header_line_rejected line rest :
  x0a ∉ line ->
  let input := line ++ x0a :: rest in
  (existsb (fun b => 128 <=? byte_val b) line = true ->
   parse_header (NifParser_init input)
   = Raise UnicodeDecodeError (NifParser_init input) /\
   fix_nif_file input = Uncaught UnicodeDecodeError) /\
  (existsb (fun b => 128 <=? byte_val b) line = false ->
   contains line s_Gamebryo = false ->
   parse_header (NifParser_init input) = Ret false (NifParser_init input) /\
   fix_nif_file input = NoChanges).
Proof.
  intros Hnl input.
  assert (Hfind : py_find input [x0a] 0 (Z.of_nat (length input))
                  = Z.of_nat (length line)).
  { rewrite py_find_whole. unfold input. rewrite find_from_first by done.
    lia. }
  assert (Hline : py_slice input 0 (Z.of_nat (length line)) = line)
    by apply py_slice_prefix.
  assert (Hne : (Z.of_nat (length line) =? -1) = false) by lia.
  pose proof (parse_header_outcome_run (NifParser_init input)) as Hr.
  split.
  - intros Hbad.
    assert (Hh : parse_header (NifParser_init input)
                 = Raise UnicodeDecodeError (NifParser_init input)).
    { unfold parse_header. rewrite bind_gets.
      change (data (NifParser_init input)) with input.
      rewrite Hfind, Hne, Hline, Hbad. reflexivity. }
    rewrite Hh in Hr. unfold fix_nif_file. by rewrite Hr.
  - intros Hascii Hno.
    assert (Hh : parse_header (NifParser_init input)
                 = Ret false (NifParser_init input)).
    { unfold parse_header. rewrite bind_gets.
      change (data (NifParser_init input)) with input.
      rewrite Hfind, Hne, Hline, Hascii, Hno. reflexivity. }
    rewrite Hh in Hr. unfold fix_nif_file. by rewrite Hr.
Qed.

(** X5 on the lines "\xff" and "NIF". *)
Lemma header_line_rejected_witness :
  fix_nif_file [xff; x0a; x01] = Uncaught UnicodeDecodeError /\
  fix_nif_file [x4e; x49; x46; x0a; x01] = NoChanges.
Proof.
  split.
  - refine (proj2 (proj1 (header_line_rejected [xff] [x01] _) _)).
    + intros H. apply list_elem_of_singleton in H. discriminate H.
    + reflexivity.
  - refine (proj2 (proj2 (header_line_rejected [x4e; x49; x46] [x01] _)
                         _ _)).
    + intros H. repeat (apply elem_of_cons in H as [H|H]; [discriminate H|]).
      by apply elem_of_nil in H.
    + reflexivity.
    + reflexivity.
Defined.

(** ** Packed versions (lines 13-14 and 77-78) *)

Lemma lor_shiftl_add hi lo k :
  0 <= k -> 0 <= lo < 2 ^ k -> Z.lor (Z.shiftl hi k) lo = hi * 2 ^ k + lo.
Proof.
  intros Hk Hlo. rewrite <- Z.shiftl_mul_pow2 by done.
  symmetry. apply Z.add_nocarry_lor.
  apply Z.bits_inj'. intros n Hn.
  rewrite Z.land_spec, Z.bits_0.
  destruct (Z_lt_le_dec n k) as [Hlt|Hge].
  - rewrite Z.shiftl_spec by done.
    rewrite (Z.testbit_neg_r hi (n - k)) by lia. reflexivity.
  - rewrite <- (Z.mod_small lo (2 ^ k)) by done.
    rewrite (Z.mod_pow2_bits_high lo k n) by lia. apply andb_false_r.
Qed.

Lemma nif_version_value a b c d :
  0 <= b < 256 -> 0 <= c < 256 -> 0 <= d < 256 ->
  nif_version a b c d = ((a * 256 + b) * 256 + c) * 256 + d.
Proof.
  intros Hb Hc Hd. unfold nif_version.
  replace (Z.shiftl a 24) with (Z.shiftl (Z.shiftl (Z.shiftl a 8) 8) 8)
    by (rewrite !Z.shiftl_shiftl by lia; reflexivity).
  replace (Z.shiftl b 16) with (Z.shiftl (Z.shiftl b 8) 8)
    by (rewrite !Z.shiftl_shiftl by lia; reflexivity).
  rewrite <- !Z.shiftl_lor.
  rewrite !lor_shiftl_add by (change (2 ^ 8) with 256; lia).
  change (2 ^ 8) with 256. reflexivity.
Qed.

(** X3. A version of four components below 256 is their base-256 number: it is
    below 2^32, versions compare as their components do from the major
    down (what the version gates rely on), and lines 77-78 get the major
    and the minor back. *)
Theorem nif_version_orders a b c d a' b' c' d' :
  0 <= a < 256 -> 0 <= b < 256 -> 0 <= c < 256 -> 0 <= d < 256 ->
  0 <= a' < 256 -> 0 <= b' < 256 -> 0 <= c' < 256 -> 0 <= d' < 256 ->
  0 <= nif_version a b c d < 2 ^ 32 /\
  Z.land (Z.shiftr (nif_version a b c d) 24) 255 = a /\
  Z.land (Z.shiftr (nif_version a b c d) 16) 255 = b /\
  (nif_version a b c d <= nif_version a' b' c' d' <->
   a < a' \/
   a = a' /\ (b < b' \/ b = b' /\ (c < c' \/ c = c' /\ d <= d'))) /\
  (nif_version a b c d = nif_version a' b' c' d' ->
   a = a' /\ b = b' /\ c = c' /\ d = d').
Proof.
  intros Ha Hb Hc Hd Ha' Hb' Hc' Hd'.
  rewrite !nif_version_value by done.
  change (2 ^ 32) with 4294967296.
  split; [lia|]. split; [|split; [|split; [lia | lia]]].
  - rewrite Z.shiftr_div_pow2 by lia. change 255 with (Z.ones 8).
    rewrite Z.land_ones by lia. change (2 ^ 24) with 16777216.
    change (2 ^ 8) with 256.
    replace (((a * 256 + b) * 256 + c) * 256 + d)
      with (a * 16777216 + ((b * 256 + c) * 256 + d)) by lia.
    rewrite Z.div_add_l by lia.
    rewrite (Z.div_small ((b * 256 + c) * 256 + d)) by lia.
    rewrite Z.add_0_r. apply Z.mod_small. lia.
  - rewrite Z.shiftr_div_pow2 by lia. change 255 with (Z.ones 8).
    rewrite Z.land_ones by lia. change (2 ^ 16) with 65536.
    change (2 ^ 8) with 256.
    replace (((a * 256 + b) * 256 + c) * 256 + d)
      with ((a * 256 + b) * 65536 + (c * 256 + d)) by lia.
    rewrite Z.div_add_l by lia.
    rewrite (Z.div_small (c * 256 + d)) by lia.
    rewrite Z.add_0_r, Z.add_comm, Z.mod_add by lia.
    apply Z.mod_small. lia.
Qed.

(** X3 for 20.2.0.5 and 20.2.0.7. *)
Lemma nif_version_orders_witness :
  nif_version 20 2 0 5 <= nif_version 20 2 0 7 /\
  Z.land (Z.shiftr (nif_version 20 2 0 7) 24) 255 = 20.
Proof.
  pose proof (nif_version_orders 20 2 0 5 20 2 0 7
                ltac:(lia) ltac:(lia) ltac:(lia) ltac:(lia)
                ltac:(lia) ltac:(lia) ltac:(lia) ltac:(lia))
    as (_ & _ & _ & Hle & _).
  pose proof (nif_version_orders 20 2 0 7 20 2 0 7
                ltac:(lia) ltac:(lia) ltac:(lia) ltac:(lia)
                ltac:(lia) ltac:(lia) ltac:(lia) ltac:(lia))
    as (_ & Hmaj & _).
  split; [apply Hle; right; repeat split; lia | exact Hmaj].
Defined.

(** ** Stepping through a computation with [wp] *)

Ltac wp_step :=
  lazymatch goal with
  | |- wp (bind (gets ?f) ?k) ?Q ?E ?s =>
      change (wp (k (f s)) Q E s); cbv beta
  | |- wp (bind (ret ?a) ?k) ?Q ?E ?s =>
      change (wp (k a) Q E s); cbv beta
  | |- wp (bind (modify ?f) ?k) ?Q ?E ?s =>
      change (wp (k tt) Q E (f s)); cbv beta
  | |- wp (bind (print ?l) ?k) ?Q ?E ?s =>
      change (wp (k tt) Q E (set_stdout (stdout s ++ [l]) s)); cbv beta
  | |- wp (bind (try_or ?e ?o) ?k) ?Q ?E ?s =>
      let a := fresh "a" in
      destruct o as [a|] eqn:?;
      [change (wp (k a) Q E s); cbv beta | change (E e s); cbv beta]
  | |- wp (bind (if ?b then _ else _) _) _ _ _ => destruct b eqn:?
  | |- wp (if ?b then _ else _) _ _ _ => destruct b eqn:?
  | |- wp (ret ?a) ?Q ?E ?s => change (Q a s); cbv beta
  | |- wp (gets ?f) ?Q ?E ?s => change (Q (f s) s); cbv beta
  | |- wp (modify ?f) ?Q ?E ?s => change (Q tt (f s)); cbv beta
  | |- wp (print ?l) ?Q ?E ?s =>
      change (Q tt (set_stdout (stdout s ++ [l]) s)); cbv beta
  | |- wp (raise ?e) ?Q ?E ?s => change (E e s); cbv beta
  | |- wp (try_or ?e ?o) ?Q ?E ?s =>
      let a := fresh "a" in
      destruct o as [a|] eqn:?;
      [change (Q a s); cbv beta | change (E e s); cbv beta]
  end.

(** a call whose outcome is known by a lemma [H] *)
Ltac wp_call H :=
  apply wp_bind; eapply wp_mono; [apply H | cbv beta | cbv beta].

(** ** The Locator only reads, and only returns data streams *)

Lemma unpack_uint_wp o s :
  wp (unpack_uint o) (fun v s' => 0 <= v < 2 ^ 32 /\ s' = s)
     (fun e s' => e = StructError /\ s' = s) s.
Proof.
  unfold unpack_uint. wp_step. wp_step; [|done].
  split; [|done]. by apply (unpack1_range 4 (data s) o).
Qed.

Lemma reads_only_wp {A} (m : M A) s :
  follows eq m -> wp m (fun _ s' => s' = s) (fun _ s' => s' = s) s.
Proof.
  intros H. specialize (H s). unfold wp. destruct (m s); simpl in H; done.
Qed.

Lemma find_link_wp n : forall link_offset num_pos start_pos s,
  wp (find_link n link_offset num_pos start_pos)
     (fun r s' => s' = s /\ forall l, r = Some l -> is_stream_id s l)
     (fun _ s' => s' = s) s.
Proof.
  induction n as [|n IH]; intros lo np sp s; cbn [find_link].
  - wp_step. by split.
  - wp_step; [wp_step; by split|].
    wp_call unpack_uint_wp; [|by intros e s' [_ ->]].
    intros v s' [Hv ->]. repeat wp_step; try apply IH; try done.
    split; [done|]. intros l [= <-].
    apply andb_true_iff in Heqb0 as [H1 H2].
    split; [lia|]. eauto.
Qed.

Lemma scan_back_wp n : forall back idx start_pos end_pos s,
  wp (scan_back n back idx start_pos end_pos)
     (fun r s' => s' = s /\ forall l, r = Some l -> is_stream_id s l)
     (fun _ s' => s' = s) s.
Proof.
  induction n as [|n IH]; intros back idx sp ep s; cbn [scan_back].
  - wp_step. by split.
  - wp_step; [wp_step; by split|].
    wp_call unpack_uint_wp; [|by intros e s' [_ ->]].
    intros v s' [Hv ->]. wp_step; [apply IH|].
    wp_call (reads_only_wp (validate_descs (Z.to_nat v) 0 (idx - back + 4) ep)
                           s (validate_descs_follow eq _ _ _ _));
      [|by intros e s' ->].
    intros valid s' ->. wp_step; [apply IH|].
    wp_call find_link_wp; [|by intros e s' ->].
    intros r s' [-> Hr]. destruct r as [l|]; [|apply IH].
    wp_step. split; [done|]. intros l' [= <-]. by apply Hr.
Qed.

Lemma scan_hits_wp fuel : forall pat search start_pos end_pos streams s,
  Forall (fun p => is_stream_id s p.1 /\ 0 <= p.2 < 10) streams ->
  wp (scan_hits fuel pat search start_pos end_pos streams)
     (fun res s' =>
        s' = s /\ Forall (fun p => is_stream_id s p.1 /\ 0 <= p.2 < 10) res)
     (fun _ s' => s' = s) s.
Proof.
  induction fuel as [|fuel IH]; intros pat search sp ep streams s Hs;
    cbn [scan_hits].
  - wp_step; wp_step; by split.
  - wp_step; [wp_step; by split|].
    wp_step. wp_step; [wp_step; by split|].
    wp_call unpack_uint_wp; [|by intros e s' [_ ->]].
    intros v s' [Hv ->]. wp_step; [by apply IH|].
    wp_call scan_back_wp; [|by intros e s' ->].
    intros r s' [-> Hr]. apply IH.
    destruct r as [l|]; [|done].
    apply Forall_app. split; [done|].
    apply Forall_singleton. simpl. split; [by apply Hr | lia].
Qed.

(** X8. Lines 152-230: the Locator changes nothing in the parser, whether it
    returns or raises.  Every pair it returns holds the id of an object of
    the file whose type name starts with "NiDataStream", and an element
    index from 0 to 9. *)
Theorem locator_reads_and_returns_streams mesh_idx index_str_idx s :
  match find_index_streams_in_mesh mesh_idx index_str_idx s with
  | Ret streams s' =>
      s' = s /\
      Forall (fun p => is_stream_id s p.1 /\ 0 <= p.2 < 10) streams
  | Raise _ s' => s' = s
  end.
Proof.
  change (wp (find_index_streams_in_mesh mesh_idx index_str_idx)
             (fun streams s' =>
                s' = s /\
                Forall (fun p => is_stream_id s p.1 /\ 0 <= p.2 < 10) streams)
             (fun _ s' => s' = s) s).
  unfold find_index_streams_in_mesh.
  repeat wp_step; try done.
  by apply scan_hits_wp.
Qed.

Lemma locator_wp mesh_idx index_str_idx s :
  wp (find_index_streams_in_mesh mesh_idx index_str_idx)
     (fun streams s' =>
        s' = s /\
        Forall (fun p => is_stream_id s p.1 /\ 0 <= p.2 < 10) streams)
     (fun _ s' => s' = s) s.
Proof.
  unfold find_index_streams_in_mesh.
  repeat wp_step; try done.
  by apply scan_hits_wp.
Qed.

(** ** The Stream Patcher is only called on data streams *)

Lemma keeps_wp {A B} (f : NifParser -> B) (m : M A) s :
  follows (keeps f) m ->
  wp m (fun _ s' => f s' = f s) (fun _ s' => f s' = f s) s.
Proof.
  intros H. specialize (H s). unfold wp. destruct (m s); exact H.
Qed.

Lemma wp_conj {A} (m : M A) Q1 Q2 E1 E2 s :
  wp m Q1 E1 s -> wp m Q2 E2 s ->
  wp m (fun a s' => Q1 a s' /\ Q2 a s') (fun e s' => E1 e s' /\ E2 e s') s.
Proof. unfold wp. destruct (m s); auto. Qed.

Lemma is_stream_id_tables s s0 l :
  tables_view s = tables_view s0 -> is_stream_id s l -> is_stream_id s0 l.
Proof.
  unfold tables_view, is_stream_id. intros [= Hn Ht _ _ _].
  by rewrite Hn, Ht.
Qed.

Lemma patcher_keeps_calls_and_tables sid s :
  wp (fix_datastream_winding sid)
     (fun _ s' => tables_view s' = tables_view s /\
                  calls_view s' = calls_view s)
     (fun _ s' => tables_view s' = tables_view s /\
                  calls_view s' = calls_view s) s.
Proof.
  apply wp_conj; apply keeps_wp; apply fix_datastream_winding_follow;
    apply _.
Qed.

Lemma process_streams_streams s0 i streams : forall processed s,
  calls_are_streams s0 s ->
  Forall (fun p => is_stream_id s0 p.1) streams ->
  wp (process_streams i streams processed)
     (fun _ s' => calls_are_streams s0 s')
     (fun _ s' => calls_are_streams s0 s') s.
Proof.
  induction streams as [|[sid e] rest IH]; intros processed s HJ Hs;
    cbn [process_streams].
  - by wp_step.
  - apply Forall_cons in Hs as [Hsid Hrest]. simpl in Hsid.
    destruct (decide (sid ∈ processed)); [by apply IH|].
    wp_step.
    assert (HJ1 : calls_are_streams s0
                    (set_stdout (stdout s ++ [PMeshStream i sid]) s)).
    { destruct HJ as [Ht Hc]. split; [exact Ht|].
      rewrite calls_after_mesh_line. apply Forall_app.
      split; [exact Hc | by apply Forall_singleton]. }
    wp_call patcher_keeps_calls_and_tables.
    + intros _ s' [Ht Hc]. apply IH; [|done].
      destruct HJ1 as [Ht1 Hc1]. split; [congruence | by rewrite Hc].
    + intros _ s' [Ht Hc].
      destruct HJ1 as [Ht1 Hc1]. split; [congruence | by rewrite Hc].
Qed.

Lemma process_object_streams s0 idx i processed s :
  calls_are_streams s0 s ->
  wp (process_object idx i processed)
     (fun _ s' => calls_are_streams s0 s')
     (fun _ s' => calls_are_streams s0 s') s.
Proof.
  intros HJ. unfold process_object. repeat wp_step; try done.
  wp_call locator_wp.
  - intros streams s' [-> Hs]. apply process_streams_streams; [done|].
    eapply Forall_impl; [exact Hs|]. intros p [Hp _].
    eapply is_stream_id_tables; [apply HJ | exact Hp].
  - by intros _ s' ->.
Qed.

Lemma process_all_meshes_streams s0 s :
  calls_are_streams s0 s ->
  wp process_all_meshes
     (fun _ s' => calls_are_streams s0 s')
     (fun _ s' => calls_are_streams s0 s') s.
Proof.
  intros [Ht Hc].
  assert (Hprint : forall l, is_mesh_line l = false ->
            calls_are_streams s0 (set_stdout (stdout s ++ [l]) s)).
  { intros l Hl. split; [exact Ht|]. unfold calls_view. simpl.
    by rewrite patcher_calls_other. }
  unfold process_all_meshes. wp_step.
  destruct (list_index (string_table s) s_INDEX 0) as [idx|].
  2: { wp_step. by apply Hprint. }
  wp_step. wp_step. unfold fold_range.
  apply wp_bind.
  eapply wp_mono;
    [apply (wp_fold_from (process_object idx)
              (fun _ _ s' => calls_are_streams s0 s')
              (fun _ s' => calls_are_streams s0 s'));
     [intros; by apply process_object_streams | by apply Hprint]
    | cbv beta | cbv beta; done].
  intros processed s' [Ht' Hc']. wp_step.
  split; [exact Ht'|]. unfold calls_view. simpl.
  by rewrite patcher_calls_other.
Qed.

(** every id that the patcher is given belongs to a data stream *)
Lemma run_calls_are_streams input :
  Forall (is_stream_id (final (parse_and_fix (NifParser_init input))))
         (patcher_calls
            (stdout (final (parse_and_fix (NifParser_init input))))).
Proof.
  rewrite parse_and_fix_unfold.
  set (s0 := NifParser_init input).
  assert (Hnone : forall s : NifParser,
            calls_view s = [] -> Forall (is_stream_id s) (calls_view s))
    by (intros s ->; constructor).
  assert (H0 : calls_view s0 = []) by reflexivity.
  destruct (parse_steps s0) as [ok s1|e s1] eqn:E1.
  2: { kept calls_view E1. apply Hnone. simpl. congruence. }
  kept calls_view E1. destruct ok; [|apply Hnone; simpl; congruence].
  destruct (build_offsets s1) as [? s2|e s2] eqn:E2.
  2: { kept calls_view E2. apply Hnone. simpl. congruence. }
  kept calls_view E2.
  destruct (count_types s2) as [? s3|e s3] eqn:E3.
  2: { kept calls_view E3. apply Hnone. simpl. congruence. }
  kept calls_view E3.
  assert (H3 : calls_are_streams s3 s3).
  { split; [reflexivity|]. apply Hnone. congruence. }
  pose proof (process_all_meshes_streams s3 s3 H3) as H4. unfold wp in H4.
  destruct (process_all_meshes s3) as [? s4|e s4]; simpl;
    destruct H4 as [Ht Hc];
    (eapply Forall_impl; [exact Hc|]);
    intros l Hl; by apply (is_stream_id_tables s3 s4).
Qed.

(** ** The triangle loop on a region inside the buffer *)

Lemma bind_try_Some {A B} e (o : option A) (k : A -> M B) s a :
  o = Some a -> bind (try_or e o) k s = k a s.
Proof. by intros ->. Qed.

(** inside the buffer, neither [unpack_from] nor [pack_into] fails *)
Lemma swap_in_range w offset d :
  0 <= offset -> offset + 3 * Z.of_nat w <= Z.of_nat (length d) ->
  exists a b c,
    unpack3 w d offset = Some (a, b, c) /\
    pack_into w d offset [a; c; b] = Some (swap_triple w offset d).
Proof.
  intros H0 Hlen.
  destruct (unpack3 w d offset) as [[[a b] c]|] eqn:Eu.
  - exists a, b, c. split; [reflexivity|].
    unfold swap_triple. rewrite Eu.
    destruct (pack_into w d offset [a; c; b]) eqn:Ep; [reflexivity|].
    exfalso. revert Eu Ep. unfold unpack3, unpack_from, pack_into.
    rewrite struct_offset_nonneg by lia.
    set (seg := take (3 * w) (drop (Z.to_nat offset) d)).
    assert (Hseg : length seg = (3 * w)%nat).
    { unfold seg. rewrite length_take, length_drop. lia. }
    cbn [le_fields pack]. intros [= <- <- <-].
    set (x := take w seg). set (y := take w (drop w seg)).
    set (z := take w (drop w (drop w seg))).
    assert (Hx : length x = w)
      by (unfold x; rewrite length_take; lia).
    assert (Hy : length y = w)
      by (unfold y; rewrite length_take, length_drop; lia).
    assert (Hz : length z = w)
      by (unfold z; rewrite length_take, !length_drop; lia).
    rewrite !pack_decoded by assumption.
    rewrite !le_encode_decode_width, app_nil_r by assumption.
    rewrite struct_offset_nonneg by (rewrite ?length_app; lia).
    discriminate.
  - exfalso. revert Eu. unfold unpack3, unpack_from.
    rewrite struct_offset_nonneg by lia. cbn [le_fields]. discriminate.
Qed.

Lemma unpack3_chunk w d offset :
  0 <= offset -> offset + 3 * Z.of_nat w <= Z.of_nat (length d) ->
  unpack3 w d offset =
  Some (le_decode (take w (take (3 * w) (drop (Z.to_nat offset) d))),
        le_decode (take w (drop w (take (3 * w) (drop (Z.to_nat offset) d)))),
        le_decode
          (take w (drop (2 * w) (take (3 * w) (drop (Z.to_nat offset) d))))).
Proof.
  intros H0 Hlen. unfold unpack3, unpack_from.
  rewrite struct_offset_nonneg by lia. cbn [le_fields].
  rewrite (drop_drop _ w w). replace (w + w)%nat with (2 * w)%nat by lia.
  reflexivity.
Qed.

Lemma swap3_fields w seg :
  length seg = (3 * w)%nat ->
  take w (swap3 w seg) = take w seg /\
  take w (drop w (swap3 w seg)) = take w (drop (2 * w) seg) /\
  take w (drop (2 * w) (swap3 w seg)) = take w (drop w seg).
Proof.
  intros H. unfold swap3.
  set (x := take w seg). set (y := take w (drop w seg)).
  set (z := take w (drop (2 * w) seg)).
  assert (Hx : length x = w) by (unfold x; rewrite length_take; lia).
  assert (Hy : length y = w)
    by (unfold y; rewrite length_take, length_drop; lia).
  assert (Hz : length z = w)
    by (unfold z; rewrite length_take, length_drop; lia).
  split; [|split].
  - by rewrite take_app_length'.
  - rewrite drop_app_length' by done. by rewrite take_app_length'.
  - replace (2 * w)%nat with (w + w)%nat by lia.
    rewrite drop_app_add' by done. rewrite drop_app_length' by done.
    apply take_ge. lia.
Qed.

Lemma map_seg_take (o n j : nat) f (d : list byte) :
  (o + n <= length d)%nat -> (j <= o)%nat ->
  take j (map_seg o n f d) = take j d.
Proof.
  intros H Hj. destruct (cut_around o n d H) as (A & X & R & -> & HA & HX).
  rewrite map_seg_split by done. by rewrite !take_app_le by lia.
Qed.

Lemma map_seg_drop (o n j : nat) f (d : list byte) :
  (forall X, length X = n -> length (f X) = n) ->
  (o + n <= length d)%nat -> (o + n <= j)%nat ->
  drop j (map_seg o n f d) = drop j d.
Proof.
  intros Hf H Hj. destruct (cut_around o n d H) as (A & X & R & -> & HA & HX).
  rewrite map_seg_split by done. rewrite !app_assoc.
  rewrite !drop_app_ge by (rewrite length_app, ?Hf by done; lia).
  rewrite !length_app, Hf by done. by rewrite HX.
Qed.

Lemma map_seg_at (o n : nat) f (d : list byte) :
  (forall X, length X = n -> length (f X) = n) ->
  (o + n <= length d)%nat ->
  take n (drop o (map_seg o n f d)) = f (take n (drop o d)).
Proof.
  intros Hf H. destruct (cut_around o n d H) as (A & X & R & -> & HA & HX).
  rewrite map_seg_split by done.
  rewrite !drop_app_length' by done.
  rewrite !take_app_length' by (rewrite ?Hf; done). reflexivity.
Qed.

(** lines 291-296: one turn of the loop, for a triple inside the buffer *)
Lemma swap_loop_step w n t ro s :
  0 <= ro + t * (3 * Z.of_nat w) ->
  ro + t * (3 * Z.of_nat w) + 3 * Z.of_nat w <= Z.of_nat (length (data s)) ->
  swap_loop w (S n) t ro s =
  swap_loop w n (t + 1) ro
    (set_swaps (swaps s ++ [(ro + t * (3 * Z.of_nat w), w)])
       (set_data (swap_triple w (ro + t * (3 * Z.of_nat w)) (data s)) s)).
Proof.
  intros H0 Hlen. cbn [swap_loop]. cbv zeta.
  set (offset := ro + t * (3 * Z.of_nat w)) in *.
  rewrite bind_gets.
  destruct (Z.ltb_spec (Z.of_nat (length (data s)))
                       (offset + 3 * Z.of_nat w)) as [Hlt|_]; [lia|].
  destruct (swap_in_range w offset (data s) H0 Hlen) as (a & b & c & Hu & Hp).
  rewrite (bind_try_Some _ _ _ _ _ Hu). cbv beta iota.
  rewrite (bind_try_Some _ _ _ _ _ Hp). reflexivity.
Qed.

(** line 293: the first triple that passes the end of the buffer ends the
    loop *)
Lemma swap_loop_break w n t ro s :
  Z.of_nat (length (data s)) < ro + t * (3 * Z.of_nat w) + 3 * Z.of_nat w ->
  swap_loop w (S n) t ro s = Ret tt s.
Proof.
  intros H. cbn [swap_loop]. cbv zeta. rewrite bind_gets.
  destruct (Z.ltb_spec (Z.of_nat (length (data s)))
              (ro + t * (3 * Z.of_nat w) + 3 * Z.of_nat w)) as [_|Hge];
    [reflexivity | lia].
Qed.

Lemma take_shorter {A} (l1 l2 : list A) (b a : nat) :
  take b l1 = take b l2 -> (a <= b)%nat -> take a l1 = take a l2.
Proof.
  intros H Hab. rewrite <- (Nat.min_l a b) by lia.
  rewrite <- !take_take. by rewrite H.
Qed.

Lemma same_but_buffer s : s = set_swaps (swaps s) (set_data (data s) s).
Proof. by destruct s. Qed.

Lemma swap_loop_in_range w n : forall t ro s,
  0 <= ro -> 0 <= t ->
  ro + (t + Z.of_nat n) * (3 * Z.of_nat w) <= Z.of_nat (length (data s)) ->
  exists s',
    swap_loop w n t ro s = Ret tt s' /\
    s' = set_swaps (swaps s') (set_data (data s') s) /\
    length (data s') = length (data s) /\
    take (Z.to_nat (ro + t * (3 * Z.of_nat w))) (data s')
    = take (Z.to_nat (ro + t * (3 * Z.of_nat w))) (data s) /\
    drop (Z.to_nat (ro + (t + Z.of_nat n) * (3 * Z.of_nat w))) (data s')
    = drop (Z.to_nat (ro + (t + Z.of_nat n) * (3 * Z.of_nat w))) (data s) /\
    forall k, (k < n)%nat ->
      take (3 * w)
           (drop (Z.to_nat (ro + (t + Z.of_nat k) * (3 * Z.of_nat w)))
                 (data s'))
      = swap3 w
          (take (3 * w)
             (drop (Z.to_nat (ro + (t + Z.of_nat k) * (3 * Z.of_nat w)))
                   (data s))).
Proof.
  induction n as [|n IH]; intros t ro s Hro Ht Hlen.
  - exists s. split; [reflexivity|]. split; [apply same_but_buffer|].
    repeat split; try reflexivity. intros k Hk. lia.
  - set (W := 3 * Z.of_nat w) in *.
    assert (HW : 0 <= W) by (unfold W; lia).
    assert (HtW : 0 <= t * W) by (apply Z.mul_nonneg_nonneg; lia).
    assert (HnW : 0 <= Z.of_nat n * W) by (apply Z.mul_nonneg_nonneg; lia).
    assert (Hsplit : forall k : nat,
              ro + (t + 1 + Z.of_nat k) * W = ro + t * W + W + Z.of_nat k * W)
      by (intros; lia).
    assert (HS : ro + (t + Z.of_nat (S n)) * W
                 = ro + t * W + W + Z.of_nat n * W) by lia.
    rewrite HS in *.
    set (o := ro + t * W) in *.
    rewrite (swap_loop_step w n t ro s) by (fold W; fold o; lia).
    fold W. fold o.
    set (s1 := set_swaps _ _).
    assert (Hin : (Z.to_nat o + 3 * w <= length (data s))%nat)
      by (unfold W in *; lia).
    assert (Hd1 : data s1 = map_seg (Z.to_nat o) (3 * w) (swap3 w) (data s)).
    { unfold s1. simpl. apply swap_triple_in_range; unfold W in *; lia. }
    assert (Hl1 : length (data s1) = length (data s)).
    { rewrite Hd1. apply map_seg_length; [apply swap3_length | exact Hin]. }
    destruct (IH (t + 1) ro s1) as (s' & Hrun & Hsame & Hl & Htake & Hdrop & Hk);
      [lia | lia | rewrite Hl1, Hsplit; lia |].
    rewrite Hsplit in Hdrop.
    replace (ro + (t + 1) * W) with (o + W) in Htake by (unfold o; lia).
    exists s'. split; [exact Hrun|]. split; [exact Hsame|].
    split; [congruence|].
    assert (HoW : Z.to_nat (o + W) = (Z.to_nat o + 3 * w)%nat)
      by (unfold W in *; lia).
    split; [|split].
    + rewrite (take_shorter _ _ _ (Z.to_nat o) Htake) by lia.
      rewrite Hd1. apply map_seg_take; [exact Hin | lia].
    + rewrite Hdrop, Hd1.
      apply map_seg_drop; [apply swap3_length | exact Hin | lia].
    + intros k Hlt. destruct k as [|k].
      * replace (ro + (t + Z.of_nat 0) * W) with o by (unfold o; lia).
        rewrite (take_drop_commute (data s')).
        replace (Z.to_nat o + 3 * w)%nat with (Z.to_nat (o + W)) by lia.
        rewrite Htake, HoW, <- take_drop_commute, Hd1.
        apply map_seg_at; [apply swap3_length | exact Hin].
      * replace (ro + (t + Z.of_nat (S k)) * W)
          with (ro + (t + 1 + Z.of_nat k) * W) by lia.
        rewrite Hk by lia. do 2 f_equal. rewrite Hd1.
        apply map_seg_drop; [apply swap3_length | exact Hin |].
        rewrite Hsplit. fold o.
        assert (0 <= Z.of_nat k * W) by (apply Z.mul_nonneg_nonneg; lia).
        lia.
Qed.

(** X11. Lines 291-296 and 307-312, for a region of [n] triangles that lies
    inside the buffer: the loop returns, every triangle (a, b, c) of the
    region reads (a, c, b) afterwards, the bytes before and after the
    region are as they were, and nothing but the buffer changes in the
    parser. *)
Theorem swap_loop_reverses_triangles w n ro s :
  0 <= ro ->
  ro + Z.of_nat n * (3 * Z.of_nat w) <= Z.of_nat (length (data s)) ->
  exists s',
    swap_loop w n 0 ro s = Ret tt s' /\
    s' = set_swaps (swaps s') (set_data (data s') s) /\
    length (data s') = length (data s) /\
    take (Z.to_nat ro) (data s') = take (Z.to_nat ro) (data s) /\
    drop (Z.to_nat (ro + Z.of_nat n * (3 * Z.of_nat w))) (data s')
    = drop (Z.to_nat (ro + Z.of_nat n * (3 * Z.of_nat w))) (data s) /\
    forall k, (k < n)%nat ->
      exists a b c,
        unpack3 w (data s) (ro + Z.of_nat k * (3 * Z.of_nat w))
        = Some (a, b, c) /\
        unpack3 w (data s') (ro + Z.of_nat k * (3 * Z.of_nat w))
        = Some (a, c, b).
Proof.
  intros Hro Hlen.
  destruct (swap_loop_in_range w n 0 ro s Hro) as
    (s' & Hrun & Hsame & Hl & Htake & Hdrop & Hk); [lia | simpl; lia |].
  exists s'. split; [exact Hrun|]. split; [exact Hsame|].
  split; [exact Hl|].
  split; [by rewrite Z.mul_0_l, Z.add_0_r in Htake|].
  split; [exact Hdrop|].
  intros k Hlt. specialize (Hk k Hlt). rewrite Z.add_0_l in Hk.
  set (off := ro + Z.of_nat k * (3 * Z.of_nat w)) in *.
  assert (H0 : 0 <= off).
  { assert (0 <= Z.of_nat k * (3 * Z.of_nat w))
      by (apply Z.mul_nonneg_nonneg; lia). unfold off. lia. }
  assert (Hin : off + 3 * Z.of_nat w <= Z.of_nat (length (data s))).
  { assert ((Z.of_nat k + 1) * (3 * Z.of_nat w)
            <= Z.of_nat n * (3 * Z.of_nat w))
      by (apply Z.mul_le_mono_nonneg_r; lia). unfold off. lia. }
  rewrite !unpack3_chunk by (rewrite ?Hl; lia).
  rewrite Hk.
  destruct (swap3_fields w (take (3 * w) (drop (Z.to_nat off) (data s))))
    as (F1 & F2 & F3).
  { rewrite length_take, length_drop. lia. }
  rewrite F1, F2, F3. eauto.
Qed.

(** X11 on [Sample.one_triangle]: (1, 2, 3) becomes (1, 3, 2), the last byte stays. *)
Lemma swap_loop_reverses_witness :
  exists s',
    swap_loop 2 1 0 0 (NifParser_init Sample.one_triangle) = Ret tt s' /\
    unpack3 2 (data s') 0 = Some (1, 3, 2) /\
    drop 6 (data s') = [x01].
Proof.
  destruct (swap_loop_reverses_triangles 2 1 0
              (NifParser_init Sample.one_triangle))
    as (s' & Hrun & _ & _ & _ & Hdrop & Hk);
    [lia | vm_compute; discriminate |].
  exists s'. split; [exact Hrun|].
  destruct (Hk 0%nat) as (a & b & c & H1 & H2); [lia|].
  vm_compute in H1. injection H1 as <- <- <-.
  split; [exact H2 | exact Hdrop].
Defined.

(** ** The cursor and the sizes are never negative *)

Lemma wp_fold {A} (I : NifParser -> Prop) (body : Z -> A -> M A) n a s :
  (forall i a s, I s -> wp (body i a) (fun _ s' => I s') (fun _ s' => I s') s) ->
  I s ->
  wp (fold_range n body a) (fun _ s' => I s') (fun _ s' => I s') s.
Proof.
  intros Hb HI. unfold fold_range.
  eapply wp_mono;
    [apply (wp_fold_from body (fun _ _ s' => I s') (fun _ s' => I s'));
     [exact Hb | exact HI]
    | auto | auto].
Qed.

Lemma wp_for (I : NifParser -> Prop) (body : Z -> M unit) n s :
  (forall i s, I s -> wp (body i) (fun _ s' => I s') (fun _ s' => I s') s) ->
  I s ->
  wp (for_range n body) (fun _ s' => I s') (fun _ s' => I s') s.
Proof. intros Hb HI. unfold for_range. apply wp_fold; auto. Qed.

Ltac sane_ok :=
  repeat match goal with
         | H : sane _ |- _ => destruct H
         | H : _ /\ _ |- _ => destruct H
         | H : (_ <? _) = true |- _ => apply Z.ltb_lt in H
         | H : (_ =? _) = false |- _ => apply Z.eqb_neq in H
         end;
  split; simpl;
  [lia
  |repeat first [assumption | apply Forall_nil_2
                | apply Forall_app_2 | apply Forall_singleton; lia]].

Lemma read_uint_sane s :
  sane s ->
  wp read_uint (fun v s' => 0 <= v < 2 ^ 32 /\ sane s') (fun _ s' => sane s') s.
Proof.
  intros H. eapply wp_mono; [apply read_uint_wp | |]; cbv beta.
  - intros v s' [Hv ->]. split; [done | sane_ok].
  - by intros e s' [_ ->].
Qed.

Lemma read_ushort_sane s :
  sane s ->
  wp read_ushort (fun v s' => 0 <= v < 65536 /\ sane s')
     (fun _ s' => sane s') s.
Proof.
  intros H. eapply wp_mono; [apply read_ushort_wp | |]; cbv beta.
  - intros v s' [Hv ->]. split; [done | sane_ok].
  - by intros e s' [_ ->].
Qed.

Lemma read_int_sane s :
  sane s ->
  wp read_int (fun v s' => - 2 ^ 31 <= v < 2 ^ 31 /\ sane s')
     (fun _ s' => sane s') s.
Proof.
  intros H. eapply wp_mono; [apply read_int_wp | |]; cbv beta.
  - intros v s' [Hv ->]. split; [done | sane_ok].
  - by intros e s' [_ ->].
Qed.

Lemma read_byte_sane s :
  sane s ->
  wp read_byte (fun v s' => 0 <= v < 256 /\ sane s') (fun _ s' => sane s') s.
Proof.
  intros H. eapply wp_mono; [apply read_byte_wp | |]; cbv beta.
  - intros v s' [Hv ->]. split; [done | sane_ok].
  - by intros e s' [_ ->].
Qed.

Lemma read_string_sane n s :
  0 <= n -> sane s ->
  wp (read_string n) (fun _ s' => sane s') (fun _ s' => sane s') s.
Proof.
  intros Hn H. eapply wp_mono; [apply read_string_wp | |]; cbv beta.
  - intros v s' [_ ->]. sane_ok.
  - by intros e s' [].
Qed.

Ltac sane_call lem :=
  wp_call lem; [sane_ok | intros ? ? ? | intros ? ? ?; assumption].

Ltac sane_step :=
  cbv zeta;
  lazymatch goal with
  | |- wp (bind (bind _ _) _) _ _ _ => apply wp_bind
  | |- wp (bind read_uint _) _ _ _ =>
      wp_call read_uint_sane;
      [sane_ok | intros ? ? [? ?] | intros ? ? ?; assumption]
  | |- wp (bind read_ushort _) _ _ _ =>
      wp_call read_ushort_sane;
      [sane_ok | intros ? ? [? ?] | intros ? ? ?; assumption]
  | |- wp (bind read_int _) _ _ _ =>
      wp_call read_int_sane;
      [sane_ok | intros ? ? [? ?] | intros ? ? ?; assumption]
  | |- wp (bind read_byte _) _ _ _ =>
      wp_call read_byte_sane;
      [sane_ok | intros ? ? [? ?] | intros ? ? ?; assumption]
  | |- wp (bind (read_string _) _) _ _ _ =>
      wp_call read_string_sane;
      [lia | sane_ok | intros ? ? ? | intros ? ? ?; assumption]
  | |- wp (bind (for_range _ _) _) _ _ _ =>
      wp_call (wp_for sane);
      [intros ? ? ? | sane_ok | intros ? ? ? | intros ? ? ?; assumption]
  | |- wp (for_range _ _) _ _ _ =>
      eapply wp_mono;
      [apply (wp_for sane); [intros ? ? ? | sane_ok]
      | cbv beta; intros ? ? ? | cbv beta; intros ? ? ?; assumption]
  | |- wp _ _ _ _ => wp_step
  end.

Ltac sane_run := repeat sane_step; try sane_ok.

Lemma parse_header_sane s :
  sane s -> wp parse_header (fun _ s' => sane s') (fun _ s' => sane s') s.
Proof.
  intros Hs. unfold parse_header.
  pose proof (py_find_ge (data s) [x0a] 0 (Z.of_nat (length (data s)))
                ltac:(discriminate)) as Hf.
  sane_run.
Qed.

Lemma parse_metadata_sane s :
  sane s -> wp parse_metadata (fun _ s' => sane s') (fun _ s' => sane s') s.
Proof. intros Hs. unfold parse_metadata. sane_run. Qed.

Lemma parse_type_names_and_indices_sane s :
  sane s ->
  wp parse_type_names_and_indices (fun _ s' => sane s')
     (fun _ s' => sane s') s.
Proof. intros Hs. unfold parse_type_names_and_indices. sane_run. Qed.

Lemma parse_object_sizes_sane s :
  sane s -> wp parse_object_sizes (fun _ s' => sane s') (fun _ s' => sane s') s.
Proof. intros Hs. unfold parse_object_sizes. sane_run. Qed.

Lemma parse_string_table_sane s :
  sane s -> wp parse_string_table (fun _ s' => sane s') (fun _ s' => sane s') s.
Proof. intros Hs. unfold parse_string_table. sane_run. Qed.

Lemma parse_object_groups_sane s :
  sane s -> wp parse_object_groups (fun _ s' => sane s') (fun _ s' => sane s') s.
Proof. intros Hs. unfold parse_object_groups. sane_run. Qed.

Lemma parse_steps_sane s :
  sane s -> wp parse_steps (fun _ s' => sane s') (fun _ s' => sane s') s.
Proof.
  intros Hs. unfold parse_steps.
  sane_call parse_header_sane. wp_step; [by wp_step|].
  sane_call parse_metadata_sane. wp_step; [by wp_step|].
  wp_step. apply wp_bind.
  eapply wp_mono with (Q1 := fun _ s' => sane s') (E1 := fun _ s' => sane s');
    [wp_step; [by apply parse_type_names_and_indices_sane | by wp_step]
    | cbv beta; intros ? ? ? | auto].
  wp_step; [by wp_step|].
  sane_call parse_object_sizes_sane. wp_step; [by wp_step|].
  sane_call parse_string_table_sane. wp_step; [by wp_step|].
  sane_call parse_object_groups_sane. wp_step; [by wp_step|].
  by wp_step.
Qed.

(** ** Where the Stream Patcher writes *)

Lemma wp_bind_Ret {A B} (m : M A) (k : A -> M B) Q E s a s' :
  m s = Ret a s' -> wp (k a) Q E s' -> wp (bind m k) Q E s.
Proof. unfold wp, bind. by intros ->. Qed.

Lemma apply_swaps_length l : forall d, length (apply_swaps l d) = length d.
Proof.
  induction l as [|a l IH]; intros d; [reflexivity|].
  rewrite apply_swaps_cons, IH. apply swap_triple_length.
Qed.

Lemma swapped_nil s : swapped [] s s.
Proof.
  unfold swapped. rewrite app_nil_r. apply same_but_buffer.
Qed.

Lemma swapped_trans n1 n2 s s1 s2 :
  swapped n1 s s1 -> swapped n2 s1 s2 -> swapped (n1 ++ n2) s s2.
Proof.
  unfold swapped. intros -> ->.
  rewrite apply_swaps_app, app_assoc. reflexivity.
Qed.

Lemma swapped_fields new s s' :
  swapped new s s' ->
  data s' = apply_swaps new (data s) /\ swaps s' = swaps s ++ new /\
  modified s' = modified s /\ stdout s' = stdout s.
Proof. by intros ->. Qed.

Lemma swap_loop_writes w n : forall t ro s,
  0 <= ro -> 0 <= t ->
  exists new s',
    swap_loop w n t ro s = Ret tt s' /\ swapped new s s' /\
    Forall (fun sw => ro <= sw.1 /\
                      sw.1 + 3 * Z.of_nat sw.2 <= Z.of_nat (length (data s)) /\
                      sw.2 = w) new /\
    (length new <= n)%nat.
Proof.
  induction n as [|n IH]; intros t ro s Hro Ht.
  - exists [], s. split; [reflexivity|]. split; [apply swapped_nil|].
    split; [constructor | simpl; lia].
  - set (offset := ro + t * (3 * Z.of_nat w)).
    assert (Hoff : ro <= offset).
    { assert (0 <= t * (3 * Z.of_nat w))
        by (apply Z.mul_nonneg_nonneg; lia). unfold offset. lia. }
    destruct (Z_lt_le_dec (Z.of_nat (length (data s)))
                          (offset + 3 * Z.of_nat w)) as [Hout|Hin].
    + rewrite swap_loop_break by (fold offset; lia).
      exists [], s. split; [reflexivity|]. split; [apply swapped_nil|].
      split; [constructor | simpl; lia].
    + rewrite swap_loop_step by (fold offset; lia). fold offset.
      set (s1 := set_swaps _ _).
      destruct (IH (t + 1) ro s1 Hro ltac:(lia))
        as (new & s' & Hrun & Hsw & Hall & Hlen).
      exists ((offset, w) :: new), s'. split; [exact Hrun|].
      split; [|split].
      * apply (swapped_trans [(offset, w)] new s s1 s'); [|exact Hsw].
        reflexivity.
      * change (data s1) with (swap_triple w offset (data s)) in Hall.
        rewrite swap_triple_length in Hall.
        apply Forall_cons. split; [|exact Hall]. simpl. lia.
      * simpl. lia.
Qed.

(** lines 286-298: the loop of a region whose count is a multiple of 3 *)
Lemma region_loop_writes w ds stride base count total s :
  (w = 2 \/ w = 4)%nat ->
  0 <= ds -> 0 <= stride -> 0 <= base -> 0 <= count ->
  exists new s',
    bind (swap_loop w (Z.to_nat (count / 3)) 0 (ds + base * stride))
         (fun _ => ret (total + count / 3)) s
    = Ret (total + count / 3) s' /\
    swapped new s s' /\
    Forall (swap_inside ds (length (data s))) new /\
    total <= total + count / 3 /\
    (new <> [] -> total < total + count / 3).
Proof.
  intros Hw Hds Hst Hb Hc.
  assert (Hro : ds <= ds + base * stride)
    by (assert (0 <= base * stride) by (apply Z.mul_nonneg_nonneg; lia); lia).
  assert (Hq : 0 <= count / 3) by (apply Z.div_pos; lia).
  destruct (swap_loop_writes w (Z.to_nat (count / 3)) 0 (ds + base * stride) s)
    as (new & s' & Hrun & Hsw & Hall & Hlen); [lia | lia |].
  exists new, s'. rewrite (bind_Ret _ _ _ _ _ Hrun).
  split; [reflexivity|]. split; [exact Hsw|].
  split; [|split; [lia|]].
  - eapply Forall_impl; [exact Hall|]. intros sw (H1 & H2 & H3).
    unfold swap_inside. rewrite H3. split; [lia|]. split; [|exact Hw].
    by rewrite <- H3.
  - intros Hne. destruct new; [done|]. simpl in Hlen. lia.
Qed.

Lemma patch_region_writes isz stride ds base count total s :
  0 <= ds -> 0 <= stride -> 0 <= base -> 0 <= count ->
  exists new total' s',
    patch_region isz stride ds (base, count) total s = Ret total' s' /\
    swapped new s s' /\
    Forall (swap_inside ds (length (data s))) new /\
    total <= total' /\ (new <> [] -> total < total').
Proof.
  intros Hds Hst Hb Hc.
  assert (Hskip : exists new total' s',
             Ret total s = Ret total' s' /\ swapped new s s' /\
             Forall (swap_inside ds (length (data s))) new /\
             total <= total' /\ (new <> [] -> total < total')).
  { exists [], total, s. split; [reflexivity|]. split; [apply swapped_nil|].
    split; [constructor|]. split; [lia | done]. }
  unfold patch_region.
  destruct (isz =? 2); [|destruct (isz =? 4); [|exact Hskip]].
  - destruct (negb (count mod 3 =? 0)); [exact Hskip|].
    destruct (region_loop_writes 2 ds stride base count total s)
      as (new & s' & H); [by left | done..|].
    by exists new, (total + count / 3), s'.
  - destruct (negb (count mod 3 =? 0)); [exact Hskip|].
    destruct (region_loop_writes 4 ds stride base count total s)
      as (new & s' & H); [by right | done..|].
    by exists new, (total + count / 3), s'.
Qed.

Lemma patch_regions_writes isz stride ds regions : forall total s,
  0 <= ds -> 0 <= stride ->
  Forall (fun r => 0 <= r.1 /\ 0 <= r.2) regions ->
  exists new total' s',
    patch_regions isz stride ds regions total s = Ret total' s' /\
    swapped new s s' /\
    Forall (swap_inside ds (length (data s))) new /\
    total <= total' /\ (new <> [] -> total < total').
Proof.
  induction regions as [|[base count] rest IH]; intros total s Hds Hst Hr.
  - exists [], total, s. split; [reflexivity|]. split; [apply swapped_nil|].
    split; [constructor|]. split; [lia | done].
  - apply Forall_cons in Hr as [[Hb Hc] Hr]. simpl in Hb, Hc.
    destruct (patch_region_writes isz stride ds base count total s)
      as (n1 & t1 & s1 & Hrun1 & Hsw1 & Hall1 & Hle1 & Hlt1); [done..|].
    destruct (IH t1 s1 Hds Hst Hr)
      as (n2 & t2 & s2 & Hrun2 & Hsw2 & Hall2 & Hle2 & Hlt2).
    exists (n1 ++ n2), t2, s2. cbn [patch_regions].
    rewrite (bind_Ret _ _ _ _ _ Hrun1).
    split; [exact Hrun2|]. split; [by eapply swapped_trans|].
    assert (Hlen : length (data s1) = length (data s)).
    { destruct (swapped_fields _ _ _ Hsw1) as (-> & _).
      apply apply_swaps_length. }
    rewrite Hlen in Hall2.
    split; [by apply Forall_app_2|]. split; [lia|].
    intros Hne. destruct n1 as [|x n1].
    + simpl in Hne. specialize (Hlt2 Hne). lia.
    + assert (total < t1) by (by apply Hlt1). lia.
Qed.

Lemma reading_patched lo s s' : reading lo s s' -> patched lo s s'.
Proof.
  intros [Hv _]. unfold buffer_view in Hv. injection Hv as Hd Hm Hs.
  exists []. rewrite app_nil_r. split; [exact Hd|]. split; [exact Hs|].
  split; [constructor|]. right. by split.
Qed.

Lemma read_uint_reading lo s0 s :
  reading lo s0 s ->
  wp read_uint (fun v s' => 0 <= v < 2 ^ 32 /\ reading lo s0 s')
     (fun e s' => e = StructError /\ reading lo s0 s') s.
Proof.
  intros [Hv Hp]. eapply wp_mono; [apply read_uint_wp | |]; cbv beta.
  - intros v s' [Hr ->]. split; [done|]. split; [exact Hv | simpl; lia].
  - intros e s' [-> ->]. by split.
Qed.

Lemma py_index_elem {A} (l : list A) i x : py_index l i = Some x -> x ∈ l.
Proof.
  unfold py_index. destruct (_ || _); [discriminate|].
  apply list_elem_of_lookup_2.
Qed.

Lemma wp_try_Some {A B} e (a : A) (k : A -> M B) Q E s :
  wp (k a) Q E s -> wp (bind (try_or e (Some a)) k) Q E s.
Proof. done. Qed.

Lemma wp_try_None {A B} e (k : A -> M B) Q E s :
  E e s -> wp (bind (try_or e None) k) Q E s.
Proof. done. Qed.

Ltac read_in lo s :=
  wp_call (read_uint_reading lo s);
  [eassumption | intros ? ? [? ?] | intros ? ? ?; assumption].

Ltac read_on lo s :=
  wp_call (read_uint_reading lo s);
  [eassumption
  | intros ? ? [? ?]
  | intros ? ? [? ?]; split; [by apply reading_patched | by left]].

(** Lines 232-318: a call of the patcher, when no object starts before
    [lo]. *)
Lemma fix_datastream_winding_writes lo sid s :
  0 <= lo -> Forall (fun o => lo <= o) (object_offsets s) ->
  wp (fix_datastream_winding sid)
     (fun _ s' => patched lo s s')
     (fun e s' =>
        patched lo s s' /\
        (e = StructError \/ py_index (object_offsets s) sid = None)) s.
Proof.
  intros Hlo Hoffs.
  unfold fix_datastream_winding. wp_step.
  destruct (py_index (object_offsets s) sid) as [a|] eqn:Heqo.
  2: { apply wp_try_None. split; [|by right]. exists []. rewrite app_nil_r.
       split; [reflexivity|]. split; [reflexivity|].
       split; [constructor|]. right. by split. }
  apply wp_try_Some. apply py_index_elem in Heqo.
  rewrite Forall_forall in Hoffs. specialize (Hoffs _ Heqo).
  wp_step.
  assert (Hr : reading lo s (set_pos a s)) by (by split).
  revert Hr. generalize (set_pos a s). intros s1 Hr.
  read_on lo s. read_on lo s. read_on lo s.
  apply wp_bind. unfold fold_range.
  eapply wp_mono;
    [apply (wp_fold_from _
              (fun _ regions s' =>
                 reading lo s s' /\
                 Forall (fun r : Z * Z => 0 <= r.1 /\ 0 <= r.2) regions)
              (fun e s' => e = StructError /\ reading lo s s'));
     [|split; [eassumption | constructor]]
    | cbv beta
    | cbv beta; intros ? ? [? ?]; split; [by apply reading_patched | by left]].
  { intros i regions s2 [Hr2 Hregs]. read_in lo s. read_in lo s.
    wp_step. split; [assumption|].
    apply Forall_app_2; [done|]. apply Forall_singleton. simpl. lia. }
  intros regions s2 [Hr2 Hregs]. read_on lo s.
  apply wp_bind. unfold fold_range.
  eapply wp_mono;
    [apply (wp_fold_from elem_step
              (fun _ acc s' => reading lo s s' /\ 0 <= acc.2)
              (fun e s' => e = StructError /\ reading lo s s'));
     [|split; [eassumption | simpl; lia]]
    | cbv beta
    | cbv beta; intros ? ? [? ?]; split; [by apply reading_patched | by left]].
  { intros i [isz stride] s3 [Hr3 Hst]. simpl in Hst.
    unfold elem_step. read_in lo s. wp_step.
    split; [assumption|]. simpl.
    match goal with
    | |- 0 <= _ + ?x * ?y =>
        assert (0 <= x * y)
          by (apply Z.mul_nonneg_nonneg; apply Z.land_nonneg; right; lia)
    end.
    lia. }
  intros [isz stride] s3 [Hr3 Hst]. simpl in Hst.
  wp_step. wp_step.
  destruct Hr3 as [Hv3 Hp3]. unfold buffer_view in Hv3.
  injection Hv3 as Hd3 Hm3 Hs3.
  match goal with
  | |- wp (bind (patch_regions _ _ _ _ _) _) _ _ ?st =>
      destruct (patch_regions_writes isz stride (pos s3) regions 0 st)
        as (new & total & s4 & Hrun & Hsw & Hall & Hle & Hlt);
      [lia | done | done |]
  end.
  eapply wp_bind_Ret; [exact Hrun|].
  destruct (swapped_fields _ _ _ Hsw) as (Hd & Hsws & Hm & _).
  simpl in Hd, Hsws, Hm, Hall. rewrite Hd3 in Hall.
  assert (Hins : Forall (swap_inside lo (length (data s))) new).
  { eapply Forall_impl; [exact Hall|]. intros sw (Hsw1 & Hsw2 & Hsw3).
    split; [lia | by split]. }
  wp_step.
  - wp_step. wp_step. exists new. simpl.
    split; [congruence|]. split; [congruence|]. split; [exact Hins|].
    by left.
  - wp_step. exists new.
    split; [congruence|]. split; [congruence|]. split; [exact Hins|].
    right. destruct new as [|x new]; [split; [done | congruence]|].
    apply Z.ltb_ge in Heqb. assert (0 < total) by (by apply Hlt). lia.
Qed.

Lemma patched_inv lo input s s' :
  run_inv lo input s -> patched lo s s' -> run_inv lo input s'.
Proof.
  intros (Hd & Hall & Hm) (new & Hd' & Hs' & Hall' & Hm').
  rewrite Hd, apply_swaps_length in Hall'.
  split; [|split].
  - rewrite Hd', Hs', apply_swaps_app. by rewrite <- Hd.
  - rewrite Hs'. by apply Forall_app_2.
  - destruct Hm' as [Ht|[-> Hsame]]; [by right|].
    rewrite Hs', app_nil_r, Hsame. exact Hm.
Qed.

Lemma patcher_keeps_inv lo input T sid s :
  0 <= lo -> Forall (fun o => lo <= o) T ->
  object_offsets s = T /\ run_inv lo input s ->
  wp (fix_datastream_winding sid)
     (fun _ s' => object_offsets s' = T /\ run_inv lo input s')
     (fun _ s' => object_offsets s' = T /\ run_inv lo input s') s.
Proof.
  intros Hlo HT [Ho Hinv].
  assert (Hboth : forall s',
            tables_view s' = tables_view s /\ patched lo s s' ->
            object_offsets s' = T /\ run_inv lo input s').
  { intros s' [Ht Hp]. unfold tables_view in Ht.
    injection Ht as _ _ _ Ho' _.
    split; [congruence | by eapply patched_inv]. }
  eapply wp_mono;
    [apply wp_conj;
     [apply (keeps_wp tables_view), fix_datastream_winding_follow; apply _
     |apply (fix_datastream_winding_writes lo); [exact Hlo | by rewrite Ho]]
    | cbv beta; intros _ s'; apply Hboth
    | cbv beta; intros _ s' [Ht [Hp _]]; apply Hboth; by split].
Qed.

(** ** An invariant of the loop over the meshes *)

Section MeshLoop.

Variable I : NifParser -> Prop.
Hypothesis I_print : forall l s, I s -> I (set_stdout (stdout s ++ [l]) s).
Hypothesis I_patch : forall sid s,
  I s ->
  wp (fix_datastream_winding sid) (fun _ s' => I s') (fun _ s' => I s') s.

Lemma process_streams_inv i streams : forall processed s,
  I s ->
  wp (process_streams i streams processed)
     (fun _ s' => I s') (fun _ s' => I s') s.
Proof.
  induction streams as [|[sid e] rest IH]; intros processed s HI;
    cbn [process_streams].
  - by wp_step.
  - destruct (decide (sid ∈ processed)); [by apply IH|].
    wp_step. wp_call I_patch.
    + by apply I_print.
    + intros _ s' HI'. by apply IH.
    + by intros _ s' HI'.
Qed.

Lemma process_object_inv idx i processed s :
  I s ->
  wp (process_object idx i processed)
     (fun _ s' => I s') (fun _ s' => I s') s.
Proof.
  intros HI. unfold process_object. repeat wp_step; try done.
  wp_call locator_wp.
  - intros streams s' [-> _]. by apply process_streams_inv.
  - by intros _ s' ->.
Qed.

Lemma process_all_meshes_inv s :
  I s -> wp process_all_meshes (fun _ s' => I s') (fun _ s' => I s') s.
Proof.
  intros HI. unfold process_all_meshes. wp_step.
  destruct (list_index (string_table s) s_INDEX 0) as [idx|];
    [|wp_step; by apply I_print].
  wp_step. wp_step. apply wp_bind.
  eapply wp_mono;
    [apply (wp_fold I);
     [intros; by apply process_object_inv | by apply I_print]
    | cbv beta | cbv beta; done].
  intros processed s' HI'. wp_step. by apply I_print.
Qed.

End MeshLoop.

(** ** The offsets start at the cursor and never go back *)

Lemma build_offsets_writes s :
  sane s ->
  wp build_offsets
     (fun _ s' =>
        buffer_view s' = buffer_view s /\
        Forall (fun o => pos s <= o) (object_offsets s') /\
        (object_offsets s' = [] \/ head (object_offsets s') = Some (pos s)))
     (fun _ s' =>
        buffer_view s' = buffer_view s /\
        Forall (fun o => pos s <= o) (object_offsets s') /\
        (object_offsets s' = [] \/ head (object_offsets s') = Some (pos s)))
     s.
Proof.
  intros [Hp Hsz]. unfold build_offsets. wp_step. wp_step. wp_step.
  apply wp_bind. unfold fold_range.
  eapply wp_mono;
    [apply (wp_fold_from _
              (fun _ cur s' =>
                 pos s <= cur /\ object_sizes s' = object_sizes s /\
                 buffer_view s' = buffer_view s /\
                 Forall (fun o => pos s <= o) (object_offsets s') /\
                 ((object_offsets s' = [] /\ cur = pos s) \/
                  head (object_offsets s') = Some (pos s)))
              (fun _ s' =>
                 buffer_view s' = buffer_view s /\
                 Forall (fun o => pos s <= o) (object_offsets s') /\
                 (object_offsets s' = [] \/
                  head (object_offsets s') = Some (pos s))))
    | cbv beta | cbv beta; auto].
  - intros i cur s' (Hc & Hs & Hv & Hall & Hhd).
    assert (Hhd' : head (object_offsets s' ++ [cur]) = Some (pos s)).
    { destruct Hhd as [[-> ->]|Hhd]; [reflexivity|].
      destruct (object_offsets s'); [discriminate | exact Hhd]. }
    assert (Hall' : Forall (fun o => pos s <= o) (object_offsets s' ++ [cur])).
    { apply Forall_app_2; [exact Hall|]. by apply Forall_singleton. }
    wp_step. wp_step. wp_step.
    + wp_step. simpl in Heqo. apply py_index_elem in Heqo.
      rewrite Hs in Heqo. rewrite Forall_forall in Hsz.
      specialize (Hsz _ Heqo). simpl.
      split; [lia|]. split; [exact Hs|]. split; [exact Hv|].
      split; [exact Hall' | by right].
    + simpl. split; [exact Hv|]. split; [exact Hall' | by right].
  - simpl. split; [lia|]. split; [reflexivity|]. split; [reflexivity|].
    split; [constructor | by left].
  - intros cur s' (Hc & Hs & Hv & Hall & Hhd). wp_step.
    split; [exact Hv|]. split; [exact Hall|].
    destruct Hhd as [[Hnil _]|Hhd]; [by left | by right].
Qed.

#[export] Instance object_offsets_cursor : CursorOK (keeps object_offsets).
Proof. by split. Qed.
#[export] Instance object_offsets_header : HeaderOK (keeps object_offsets).
Proof. by split. Qed.
#[export] Instance object_offsets_tables : TablesOK (keeps object_offsets).
Proof. by split. Qed.
#[export] Instance object_offsets_print : PrintOK (keeps object_offsets).
Proof. by split. Qed.

Lemma no_swap_past_end (len : nat) l :
  Forall (swap_inside (Z.of_nat len + 1) len) l -> l = [].
Proof.
  destruct l as [|sw l]; [done|]. intros H.
  apply Forall_cons in H as [(H1 & H2 & _) _]. lia.
Qed.

Lemma apply_swaps_frame lo (len : nat) l : forall d,
  0 <= lo -> length d = len -> Forall (swap_inside lo len) l ->
  take (Z.to_nat lo) (apply_swaps l d) = take (Z.to_nat lo) d.
Proof.
  induction l as [|sw l IH]; intros d Hlo Hlen Hall; [reflexivity|].
  apply Forall_cons in Hall as [(H1 & H2 & _) Hall].
  rewrite apply_swaps_cons, IH;
    [| exact Hlo | by rewrite swap_triple_length | exact Hall].
  rewrite swap_triple_in_range by lia.
  apply map_seg_take; lia.
Qed.

(** what a run leaves, seen from the first object offset *)
Lemma run_writes input :
  let sf := final (parse_and_fix (NifParser_init input)) in
  match object_offsets sf with
  | [] => swaps sf = [] /\ data sf = input
  | o :: _ => 0 <= o /\ run_inv o input sf
  end.
Proof.
  cbv zeta. rewrite parse_and_fix_unfold.
  set (G := fun s : NifParser =>
              match object_offsets s with
              | [] => swaps s = [] /\ data s = input
              | o :: _ => 0 <= o /\ run_inv o input s
              end).
  set (s0 := NifParser_init input).
  assert (Hs0 : sane s0) by (split; [simpl; lia | constructor]).
  assert (Hfresh : forall lo s,
            buffer_view s = buffer_view s0 ->
            swaps s = [] /\ data s = input /\ run_inv lo input s).
  { intros lo s Hv. unfold buffer_view in Hv. injection Hv as Hd _ Hs.
    simpl in Hd, Hs. split; [done|]. split; [done|].
    split; [by rewrite Hs, Hd|]. rewrite Hs. split; [constructor | by left]. }
  assert (Hearly : forall s,
            buffer_view s = buffer_view s0 -> object_offsets s = [] -> G s).
  { intros s Hv Ho. unfold G. rewrite Ho.
    by destruct (Hfresh 0 s Hv) as (? & ? & _). }
  pose proof (parse_steps_sane s0 Hs0) as W1. unfold wp in W1.
  destruct (parse_steps s0) as [ok s1|e s1] eqn:E1.
  2: { kept buffer_view E1. kept object_offsets E1. by apply Hearly. }
  kept buffer_view E1. kept object_offsets E1.
  destruct ok; [|by apply Hearly].
  pose proof (build_offsets_writes s1 W1) as W2. unfold wp in W2.
  assert (Hbuilt : forall s,
            buffer_view s = buffer_view s0 ->
            Forall (fun o => pos s1 <= o) (object_offsets s) ->
            object_offsets s = [] \/ head (object_offsets s) = Some (pos s1) ->
            G s).
  { intros s Hv Hall Hhd. destruct (object_offsets s) as [|o T] eqn:Eo.
    - by apply Hearly.
    - destruct Hhd as [|[= ->]]; [done|]. unfold G. rewrite Eo.
      split; [apply W1|]. by destruct (Hfresh (pos s1) s Hv) as (_ & _ & ?). }
  destruct (build_offsets s1) as [[] s2|e s2] eqn:E2.
  2: { destruct W2 as (Hv & Hall & Hhd). cbn [final].
       apply Hbuilt; [congruence|done..]. }
  destruct W2 as (Hv2 & Hall2 & Hhd2).
  assert (Hrest : forall s3,
            buffer_view s3 = buffer_view s2 ->
            tables_view s3 = tables_view s2 ->
            G (final (process_all_meshes s3)) /\ G s3).
  { intros s3 Hv3 Ht3.
    assert (Ho3 : object_offsets s3 = object_offsets s2)
      by (unfold tables_view in Ht3; by injection Ht3).
    assert (HG3 : G s3)
      by (apply Hbuilt; [congruence | by rewrite Ho3 | by rewrite Ho3]).
    split; [|exact HG3].
    destruct (object_offsets s3) as [|o T] eqn:Eo.
    - set (lo := Z.of_nat (length input) + 1).
      pose proof (process_all_meshes_inv
                    (fun s => object_offsets s = [] /\ run_inv lo input s))
        as W4.
      specialize (W4 ltac:(by intros l s [? ?])).
      specialize (W4 ltac:(intros sid s HI;
                           apply patcher_keeps_inv;
                           [unfold lo; lia | constructor | exact HI])).
      specialize (W4 s3). unfold wp in W4.
      assert (HI3 : object_offsets s3 = [] /\ run_inv lo input s3).
      { split; [exact Eo|].
        destruct (Hfresh lo s3) as (_ & _ & ?); [congruence | done]. }
      specialize (W4 HI3).
      assert (Hend : forall s4,
                object_offsets s4 = [] /\ run_inv lo input s4 -> G s4).
      { intros s4 [Ho4 (Hd4 & Hall4 & _)]. unfold G. rewrite Ho4.
        apply no_swap_past_end in Hall4. rewrite Hall4 in Hd4.
        by split. }
      destruct (process_all_meshes s3); cbn [final]; by apply Hend.
    - rewrite <- Ho3 in Hall2, Hhd2.
      destruct Hhd2 as [|[= ->]]; [done|].
      set (lo := pos s1) in *.
      pose proof (process_all_meshes_inv
                    (fun s => object_offsets s = lo :: T /\ run_inv lo input s))
        as W4.
      specialize (W4 ltac:(by intros l s [? ?])).
      specialize (W4 ltac:(intros sid s HI;
                           apply patcher_keeps_inv;
                           [apply W1 | exact Hall2 | exact HI])).
      specialize (W4 s3). unfold wp in W4.
      assert (HI3 : object_offsets s3 = lo :: T /\ run_inv lo input s3).
      { split; [exact Eo|].
        destruct (Hfresh lo s3) as (_ & _ & ?); [congruence | done]. }
      specialize (W4 HI3).
      assert (Hend : forall s4,
                object_offsets s4 = lo :: T /\ run_inv lo input s4 -> G s4).
      { intros s4 [Ho4 Hinv4]. unfold G. rewrite Ho4.
        split; [apply W1 | exact Hinv4]. }
      destruct (process_all_meshes s3); cbn [final]; by apply Hend. }
  destruct (count_types s2) as [? s3|e s3] eqn:E3.
  2: { kept buffer_view E3. kept tables_view E3. cbn [final].
       by destruct (Hrest s3 K1 K2). }
  kept buffer_view E3. kept tables_view E3.
  destruct (Hrest s3 K1 K2) as [HG _].
  destruct (process_all_meshes s3); exact HG.
Qed.

(** X13. Lines 232-318 with 367-373: a run changes no byte before the first
    object.  Whatever the input, when the offset table has an entry the
    first one is not negative and the bytes before it - the header and the
    tables - are afterwards what they were; when it has none the whole
    buffer is what it was. *)
Theorem header_and_tables_untouched input :
  let sf := final (parse_and_fix (NifParser_init input)) in
  match object_offsets sf with
  | [] => data sf = input
  | o :: _ =>
      0 <= o /\ take (Z.to_nat o) (data sf) = take (Z.to_nat o) input
  end.
Proof.
  intros sf. pose proof (run_writes input) as H. cbv zeta in H. fold sf in H.
  destruct (object_offsets sf) as [|o T]; [apply H|].
  destruct H as (Ho & Hd & Hall & _). split; [exact Ho|].
  rewrite Hd. by apply (apply_swaps_frame o (length input)).
Qed.

(** X12. Lines 291-296 and 307-312: every [struct.pack_into] of a run writes
    three fields of 2 or of 4 bytes at an offset that is not negative, with
    the last byte written still inside the buffer. *)
Theorem writes_stay_inside input :
  Forall (fun sw => 0 <= sw.1 /\
                    sw.1 + 3 * Z.of_nat sw.2 <= Z.of_nat (length input) /\
                    (sw.2 = 2%nat \/ sw.2 = 4%nat))
         (swaps (final (parse_and_fix (NifParser_init input)))).
Proof.
  pose proof (run_writes input) as H. cbv zeta in H.
  destruct (object_offsets _) as [|o T].
  - destruct H as [-> _]. constructor.
  - destruct H as (Ho & _ & Hall & _).
    eapply Forall_impl; [exact Hall|]. intros sw (H1 & H2 & H3).
    split; [lia | by split].
Qed.

(** X14. Lines 316-318 with 298 and 314: when the flag [modified] is still False
    at the end of a run - whether the run returned or raised - the buffer is
    byte for byte the input: no swap is ever left unreported. *)
Theorem unmodified_means_untouched input :
  modified (final (parse_and_fix (NifParser_init input))) = false ->
  data (final (parse_and_fix (NifParser_init input))) = input.
Proof.
  intros Hm. pose proof (run_writes input) as H. cbv zeta in H.
  destruct (object_offsets _) as [|o T]; [apply H|].
  destruct H as (_ & Hd & _ & [Hs|Ht]); [|congruence].
  by rewrite Hs in Hd.
Qed.

(** X14 on [Sample.one_region_of_four]: the patcher is called on stream 1,
    skips its only region, and the buffer is the input. *)
Lemma unmodified_means_untouched_witness :
  PStream 1 9 1 2
    ∈ stdout (final (parse_and_fix (NifParser_init Sample.one_region_of_four))) /\
  data (final (parse_and_fix (NifParser_init Sample.one_region_of_four)))
  = Sample.one_region_of_four.
Proof.
  split.
  - vm_compute. do 6 apply list_elem_of_further. apply list_elem_of_here.
  - apply unmodified_means_untouched. vm_compute. reflexivity.
Defined.

(** ** The tables of a file of version 20.2.0.5 or later *)

#[export] Instance tail_cursor : CursorOK (keeps tail_view).
Proof. by split. Qed.
#[export] Instance tail_print : PrintOK (keeps tail_view).
Proof. by split. Qed.
#[export] Instance types_cursor : CursorOK (keeps types_view).
Proof. by split. Qed.
#[export] Instance types_print : PrintOK (keeps types_view).
Proof. by split. Qed.
#[export] Instance file_ver_cursor : CursorOK (keeps file_ver).
Proof. by split. Qed.
#[export] Instance file_ver_tables : TablesOK (keeps file_ver).
Proof. by split. Qed.
#[export] Instance file_ver_print : PrintOK (keeps file_ver).
Proof. by split. Qed.

(** a step of [follow] for a view that a table setter leaves alone *)
Ltac tail_step :=
  lazymatch goal with
  | |- ?R _ (final (bind (modify _) _ _)) =>
      apply (follow_modify R); [exact eq_refl |]
  | |- _ _ (final (modify _ _)) => exact eq_refl
  | _ =>
      first
        [ follow_step
        | lazymatch goal with
          | |- ?R ?s (final (?m ?s)) =>
              let H := fresh in
              assert (H : follows R m)
                by (auto with follow typeclass_instances);
              exact (H s)
          end ]
  end.

Ltac tail := intros; repeat (cbv beta; first [follow_refl | tail_step]).

Lemma parse_string_table_tail : follows (keeps tail_view) parse_string_table.
Proof. intros s. unfold parse_string_table. tail. Qed.

Lemma parse_object_groups_tail : follows (keeps tail_view) parse_object_groups.
Proof. intros s. unfold parse_object_groups. tail. Qed.

Lemma parse_object_sizes_types : follows (keeps types_view) parse_object_sizes.
Proof. intros s. unfold parse_object_sizes. tail. Qed.

(** the loop of lines 125-126 *)
Lemma parse_object_sizes_length s :
  nif_version 20 2 0 5 <= file_ver s ->
  wp parse_object_sizes
     (fun _ s' =>
        length (object_sizes s') = Z.to_nat (num_objects s) /\
        Forall (fun sz => 0 <= sz < 2 ^ 32) (object_sizes s'))
     (fun _ _ => True) s.
Proof.
  intros Hv. unfold parse_object_sizes. wp_step.
  apply Z.leb_le in Hv. rewrite Hv.
  apply wp_bind. wp_step. wp_step. unfold for_range, fold_range.
  eapply wp_mono;
    [apply (wp_fold_from _
              (fun i _ s' =>
                 Z.of_nat (length (object_sizes s')) = i /\
                 Forall (fun sz => 0 <= sz < 2 ^ 32) (object_sizes s'))
              (fun _ _ => True))
    | cbv beta | cbv beta; auto].
  - intros i [] s' [Hlen Hall].
    wp_call read_uint_wp; [|done].
    intros v s'' [Hr ->]. wp_step. simpl.
    split; [rewrite length_app; simpl; lia|].
    apply Forall_app_2; [exact Hall | by apply Forall_singleton].
  - simpl. split; [reflexivity | constructor].
  - intros [] s' [Hlen Hall]. wp_step. simpl in Hlen. split; [lia | exact Hall].
Qed.

(** the loop of lines 111-115 *)
Lemma parse_type_names_and_indices_length s :
  wp parse_type_names_and_indices
     (fun _ s' =>
        length (object_types s') = Z.to_nat (num_objects s) /\
        Forall (fun t => t ∈ type_names s') (object_types s'))
     (fun _ _ => True) s.
Proof.
  unfold parse_type_names_and_indices.
  wp_call read_ushort_wp; [|done]. intros nt s1 [_ ->].
  wp_step. apply wp_bind.
  eapply wp_mono;
    [apply (wp_for (fun s' => num_objects s' = num_objects s))
    | cbv beta | cbv beta; auto].
  { intros i s' Hn.
    wp_call read_uint_wp; [|by intros ? ? [_ ->]]. intros v s2 [_ ->].
    wp_call read_string_wp; [|done]. intros str s3 [_ ->].
    wp_step. exact Hn. }
  { reflexivity. }
  intros [] s2 Hn. wp_step. wp_step. unfold for_range, fold_range.
  apply wp_bind.
  eapply wp_mono;
    [apply (wp_fold_from _
              (fun i _ s' =>
                 Z.of_nat (length (object_types s')) = i /\
                 Forall (fun t => t ∈ type_names s') (object_types s'))
              (fun _ _ => True))
    | cbv beta | cbv beta; auto].
  - intros i [] s' [Hlen Hall].
    wp_call read_ushort_wp; [|done]. intros v s3 [_ ->].
    wp_step. cbv zeta. wp_step. wp_step; [|done]. wp_step. simpl.
    split; [rewrite length_app; simpl; lia|].
    apply Forall_app_2; [exact Hall|]. apply Forall_singleton.
    simpl in Heqo. by apply py_index_elem in Heqo.
  - simpl. split; [reflexivity | constructor].
  - intros [] s' [Hlen Hall]. wp_step. simpl in Hlen, Hn.
    split; [lia | exact Hall].
Qed.

Lemma py_index_in_range {A} (l : list A) i :
  0 <= i < Z.of_nat (length l) -> exists x, py_index l i = Some x.
Proof.
  intros Hi. unfold py_index.
  destruct (Z.ltb_spec i 0) as [|_]; [lia|].
  destruct (Z.ltb_spec i 0) as [|_]; [lia|].
  destruct (Z.leb_spec (Z.of_nat (length l)) i) as [|_]; [lia|].
  simpl. apply lookup_lt_is_Some_2. lia.
Qed.

(** lines 371-373 do not raise when every object has a size *)
Lemma offsets_loop_returns n : forall i cur s,
  0 <= i -> (Z.to_nat i + n <= length (object_sizes s))%nat ->
  exists cur' s',
    fold_range_from i n (fun i current_pos =>
      modify (fun s => set_object_offsets (object_offsets s ++ [current_pos]) s) ;;;
      sizes <- gets object_sizes ;;
      sz <- try_or IndexError (py_index sizes i) ;;
      ret (current_pos + sz)) cur s = Ret cur' s'.
Proof.
  induction n as [|n IH]; intros i cur s Hi Hlen.
  - by exists cur, s.
  - cbn [fold_range_from].
    destruct (py_index_in_range (object_sizes s) i) as [sz Hsz]; [lia|].
    set (s1 := set_object_offsets (object_offsets s ++ [cur]) s).
    destruct (IH (i + 1) (cur + sz) s1) as (cur' & s' & Hrun);
      [lia | simpl; lia |].
    exists cur', s'. rewrite <- Hrun.
    unfold bind at 1. unfold bind at 1. unfold modify at 1.
    unfold bind at 1. unfold gets at 1. fold s1.
    unfold bind at 1.
    change (object_sizes s1) with (object_sizes s). rewrite Hsz.
    reflexivity.
Qed.

Lemma build_offsets_returns s :
  length (object_sizes s) = Z.to_nat (num_objects s) ->
  exists s', build_offsets s = Ret tt s' /\
             object_offsets s' = offsets_from (pos s) (object_sizes s).
Proof.
  intros Hlen.
  destruct (offsets_loop_returns (Z.to_nat (num_objects s)) 0 (pos s)
              (set_object_offsets [] s)) as (cur & s' & Hrun);
    [lia | simpl; lia |].
  assert (Hb : build_offsets s = Ret tt s').
  { unfold build_offsets. rewrite bind_gets.
    unfold bind at 1. unfold modify at 1. rewrite bind_gets.
    unfold fold_range. by rewrite (bind_Ret _ _ _ _ _ Hrun). }
  exists s'. split; [exact Hb|].
  destruct (build_offsets_spec s s' Hb) as (Ho & _).
  rewrite Ho. f_equal. apply take_ge. lia.
Qed.

(** X7. Lines 104-127 with 367-373, for a file of version 20.2.0.5 or later
    whose header and tables parse: there is one type and one size per
    object, every type is one of the type names, every size fits 32 bits,
    and the loop that builds the offsets returns - line 373 cannot raise -
    with the running totals of the sizes from the cursor on. *)
Theorem tables_of_new_versions input s1 :
  parse_steps (NifParser_init input) = Ret true s1 ->
  nif_version 20 2 0 5 <= file_ver s1 ->
  length (object_types s1) = Z.to_nat (num_objects s1) /\
  Forall (fun t => t ∈ type_names s1) (object_types s1) /\
  length (object_sizes s1) = Z.to_nat (num_objects s1) /\
  Forall (fun sz => 0 <= sz < 2 ^ 32) (object_sizes s1) /\
  exists s2, build_offsets s1 = Ret tt s2 /\
             object_offsets s2 = offsets_from (pos s1) (object_sizes s1).
Proof.
  intros H Hver.
  assert (H5 : nif_version 5 0 0 1 = 83886081) by reflexivity.
  assert (H20 : nif_version 20 2 0 5 = 335675397) by reflexivity.
  assert (Hmain :
    length (object_types s1) = Z.to_nat (num_objects s1) /\
    Forall (fun t => t ∈ type_names s1) (object_types s1) /\
    length (object_sizes s1) = Z.to_nat (num_objects s1) /\
    Forall (fun sz => 0 <= sz < 2 ^ 32) (object_sizes s1)).
  { unfold parse_steps in H. walk H.
    all: repeat match goal with
                | Hb : negb ?b = false |- _ =>
                    destruct b; [clear Hb | discriminate Hb]
                end.
    all: match goal with
         | Eg : parse_object_groups ?se = Ret true _,
           Es : parse_string_table ?sd = Ret true ?se,
           Ez : parse_object_sizes ?sc = Ret true ?sd |- _ =>
             assert (Kg : follows (keeps tail_view) parse_object_groups)
               by apply parse_object_groups_tail;
             specialize (Kg se); rewrite Eg in Kg;
             assert (Ks : follows (keeps tail_view) parse_string_table)
               by apply parse_string_table_tail;
             specialize (Ks sd); rewrite Es in Ks;
             assert (Kz : follows (keeps types_view) parse_object_sizes)
               by apply parse_object_sizes_types;
             specialize (Kz sc); rewrite Ez in Kz;
             unfold keeps, tail_view, types_view in Kg, Ks, Kz;
             simpl in Kg, Ks, Kz;
             injection Kg as Kg1 Kg2 Kg3 Kg4 Kg5;
             injection Ks as Ks1 Ks2 Ks3 Ks4 Ks5;
             injection Kz as Kz1 Kz2 Kz3 Kz4;
             assert (Hvc : nif_version 20 2 0 5 <= file_ver sc) by congruence;
             pose proof (parse_object_sizes_length sc Hvc) as Wz;
             unfold wp in Wz; rewrite Ez in Wz; destruct Wz as [Wz1 Wz2]
         end.
    - match goal with
      | Et : parse_type_names_and_indices ?sb = Ret true ?sc |- _ =>
          pose proof (parse_type_names_and_indices_length sb) as Wt;
          unfold wp in Wt; rewrite Et in Wt; destruct Wt as [Wt1 Wt2];
          kept num_objects Et
      end.
      rewrite Kg4, Ks4, Kz4, Kg3, Ks3, Kz3, Kg5, Ks5, Kg2, Ks2, Kz2.
      split; [congruence|]. split; [exact Wt2|]. split; [exact Wz1|].
      exact Wz2.
    - exfalso. match goal with
               | Hlt : (nif_version 5 0 0 1 <=? _) = false |- _ =>
                   apply Z.leb_gt in Hlt
               end. lia. }
  destruct Hmain as (Ht & Htn & Hs & Hsr).
  split; [exact Ht|]. split; [exact Htn|]. split; [exact Hs|].
  split; [exact Hsr|]. by apply build_offsets_returns.
Qed.

(** X7 on [Sample.two_meshes]. *)
Lemma tables_of_new_versions_witness :
  length (object_sizes (final (parse_steps (NifParser_init Sample.two_meshes))))
  = Z.to_nat
      (num_objects (final (parse_steps (NifParser_init Sample.two_meshes)))) /\
  exists s2,
    build_offsets (final (parse_steps (NifParser_init Sample.two_meshes)))
    = Ret tt s2.
Proof.
  destruct (tables_of_new_versions Sample.two_meshes
              (final (parse_steps (NifParser_init Sample.two_meshes))))
    as (_ & _ & Hs & _ & s2 & Hb & _);
    [vm_compute; reflexivity | vm_compute; discriminate |].
  split; [exact Hs | by exists s2].
Defined.

(** ** Strings (lines 56-62) *)

Lemma rstrip0_spec s : exists k, s = rstrip0 s ++ replicate k x00.
Proof.
  induction s as [|b r [k IH]]; [by exists 0%nat|]. cbn [rstrip0].
  destruct (rstrip0 r) as [|c r'] eqn:E.
  - destruct (Byte.eqb b x00) eqn:Eb.
    + apply Byte.byte_dec_bl in Eb. subst b. exists (S k).
      simpl in *. by rewrite IH.
    + exists k. simpl in *. by rewrite IH.
  - exists k. rewrite IH at 1. reflexivity.
Qed.

Lemma rstrip0_last s : last (rstrip0 s) <> Some x00.
Proof.
  induction s as [|b r IH]; [done|]. cbn [rstrip0].
  destruct (rstrip0 r) as [|c r'] eqn:E.
  - destruct (Byte.eqb b x00) eqn:Eb; [done|].
    simpl. intros [= ->]. discriminate Eb.
  - exact IH.
Qed.

(** X2. Lines 56-62: [read_string] never raises.  It returns the slice of
    [length] bytes at the cursor without its trailing NUL bytes - fewer
    bytes when the buffer ends before, none when the cursor is at the end
    or after it - and moves the cursor by [length] in every case. *)
Theorem read_string_total n s :
  0 <= n -> 0 <= pos s ->
  exists str k,
    read_string n s = Ret str (set_pos (pos s + n) s) /\
    py_slice (data s) (pos s) (pos s + n) = str ++ replicate k x00 /\
    last str <> Some x00 /\
    (length str + k <= Z.to_nat n)%nat /\
    (Z.of_nat (length (data s)) <= pos s -> str = [] /\ k = 0%nat).
Proof.
  intros Hn Hp.
  set (sl := py_slice (data s) (pos s) (pos s + n)).
  destruct (rstrip0_spec sl) as [k Hk].
  assert (Hlen : (length sl <= Z.to_nat n)%nat).
  { unfold sl, py_slice, clamp_index.
    destruct (Z.ltb_spec (pos s) 0) as [|_]; [lia|].
    destruct (Z.ltb_spec (pos s + n) 0) as [|_]; [lia|].
    rewrite length_take. lia. }
  assert (Hend : Z.of_nat (length (data s)) <= pos s -> sl = []).
  { intros He. unfold sl, py_slice, clamp_index.
    destruct (Z.ltb_spec (pos s) 0) as [|_]; [lia|].
    destruct (Z.ltb_spec (pos s + n) 0) as [|_]; [lia|].
    replace (Z.min (pos s + n) (Z.of_nat (length (data s)))
             - Z.min (pos s) (Z.of_nat (length (data s)))) with 0 by lia.
    reflexivity. }
  exists (rstrip0 sl), k. split; [reflexivity|]. split; [exact Hk|].
  split; [apply rstrip0_last|].
  assert (Hsum : length sl = (length (rstrip0 sl) + k)%nat)
    by (rewrite Hk at 1; by rewrite length_app, length_replicate).
  split; [lia|].
  intros He. specialize (Hend He). rewrite Hend in Hsum |- *.
  simpl in Hsum. split; [reflexivity | lia].
Qed.

(** X2 on the last two bytes of "ABC\0", read as a string of 4. *)
Lemma read_string_total_witness :
  exists str k,
    read_string 4 (set_pos 2 (NifParser_init [x41; x42; x43; x00]))
    = Ret str (set_pos 6 (NifParser_init [x41; x42; x43; x00])) /\
    [x43; x00] = str ++ replicate k x00 /\ last str <> Some x00.
Proof.
  destruct (read_string_total 4
              (set_pos 2 (NifParser_init [x41; x42; x43; x00])))
    as (str & k & H1 & H2 & H3 & _); [lia | simpl; lia |].
  exists str, k. split; [exact H1|]. split; [exact H2 | exact H3].
Defined.

(** ** A mesh too short to be searched (line 166) *)

Lemma pack_one (v : Z) :
  0 <= v < 2 ^ 32 -> pack 4 [v] = Some (le_encode 4 v ++ []).
Proof.
  intros Hv. cbn [pack]. change (2 ^ (8 * Z.of_nat 4)) with (2 ^ 32).
  destruct (Z.ltb_spec v 0) as [|_]; [lia|].
  destruct (Z.leb_spec (2 ^ 32) v) as [|_]; [lia|]. reflexivity.
Qed.

(** X9. Line 166: the search loop only starts while more than 20 bytes of the
    object are left, so for an object of 20 bytes or fewer the Locator
    returns no stream, without reading the buffer. *)
Theorem locator_skips_short_mesh mesh_idx index_str_idx s start sz :
  py_index (object_offsets s) mesh_idx = Some start ->
  py_index (object_sizes s) mesh_idx = Some sz ->
  sz <= 20 ->
  0 <= index_str_idx < 2 ^ 32 ->
  find_index_streams_in_mesh mesh_idx index_str_idx s = Ret [] s.
Proof.
  intros Ho Hs Hsz Hidx. unfold find_index_streams_in_mesh.
  rewrite bind_gets, (bind_try_Some _ _ _ _ _ Ho).
  rewrite bind_gets, (bind_try_Some _ _ _ _ _ Hs).
  rewrite (bind_try_Some _ _ _ _ _ (pack_one _ Hidx)).
  assert (Hc : negb (start <? start + sz - 20) = true).
  { destruct (Z.ltb_spec start (start + sz - 20)); [lia | reflexivity]. }
  destruct (Z.to_nat _); cbn [scan_hits]; by rewrite Hc.
Qed.

(** X9 on an object of 20 bytes at offset 30. *)
Lemma locator_skips_short_mesh_witness :
  find_index_streams_in_mesh 0 1
    (set_object_offsets [30] (set_object_sizes [20] (NifParser_init [])))
  = Ret [] (set_object_offsets [30] (set_object_sizes [20] (NifParser_init []))).
Proof.
  apply (locator_skips_short_mesh 0 1 _ 30 20);
    [reflexivity | reflexivity | lia | lia].
Defined.

(** ** The length of the header (lines 74-93) *)

Ltac read_facts :=
  repeat match goal with
         | E : read_uint ?s = Ret _ _ |- _ =>
             let W := fresh "W" in
             pose proof (read_uint_wp s) as W; unfold wp in W;
             rewrite E in W; destruct W as [_ ->]; clear E
         | E : read_int ?s = Ret _ _ |- _ =>
             let W := fresh "W" in
             pose proof (read_int_wp s) as W; unfold wp in W;
             rewrite E in W; destruct W as [_ ->]; clear E
         | E : read_byte ?s = Ret _ _ |- _ =>
             let W := fresh "W" in
             pose proof (read_byte_wp s) as W; unfold wp in W;
             rewrite E in W; destruct W as [_ ->]; clear E
         end.

(** X6. Lines 74-93: when [parse_header] returns True the cursor is after the
    header line, plus 4 bytes of version, 1 byte from version 20.0.0.3 on,
    4 bytes of user version from 10.0.1.8 on, 4 bytes of object count, and
    4 more bytes exactly when the user version is 12 and the version
    20.2.0.7; the object count is positive and the buffer is untouched. *)
Theorem header_length s s' :
  parse_header s = Ret true s' ->
  let v := file_ver s' in
  pos s' =
    py_find (data s) [x0a] 0 (Z.of_nat (length (data s))) + 1 + 4
    + (if nif_version 20 0 0 3 <=? v then 1 else 0)
    + (if nif_version 10 0 1 8 <=? v then 4 else 0)
    + 4
    + (if (user_ver s' =? nif_version 0 0 0 12)
          && (v =? nif_version 20 2 0 7) then 4 else 0) /\
  0 < num_objects s' /\ data s' = data s.
Proof.
  intros H. unfold parse_header in H. walk H; read_facts;
    cbn [pos file_ver user_ver num_objects data set_pos set_file_ver
         set_user_ver set_num_objects set_is_little_endian set_user_ver_2
         set_stdout] in *;
    repeat match goal with
           | Hc : ?c = _ |- context [if ?c then _ else _] => rewrite Hc
           end;
    match goal with
    | Hn : (_ <=? 0) = false |- _ => apply Z.leb_gt in Hn
    end;
    (split; [lia | split; [lia | reflexivity]]).
Qed.

(** X6 on [Sample.two_meshes]: version 20.2.0.7, user version 0. *)
Lemma header_length_witness :
  pos (final (parse_header (NifParser_init Sample.two_meshes)))
  = py_find Sample.two_meshes [x0a] 0
      (Z.of_nat (length Sample.two_meshes)) + 1 + 4 + 1 + 4 + 4 + 0.
Proof.
  destruct (parse_header (NifParser_init Sample.two_meshes))
    as [[] s'|] eqn:E;
    [| vm_compute in E; discriminate | vm_compute in E; discriminate].
  destruct (header_length _ _ E) as (Hp & _ & _).
  simpl final. rewrite Hp.
  assert (Hv : file_ver s' = nif_version 20 2 0 7 /\ user_ver s' = 0).
  { vm_compute in E. injection E as <-. by split. }
  destruct Hv as [-> ->]. reflexivity.
Defined.

(** ** The loop over a directory (lines 423-430) *)

Lemma fix_nif_file_length f f' :
  fix_nif_file f = Saved f' -> length f' = length f.
Proof.
  unfold fix_nif_file. intros H.
  pose proof (parse_and_fix_follow (keeps length_view) (NifParser_init f))
    as K.
  destruct (parse_and_fix (NifParser_init f)) as [[] s|]; try discriminate.
  injection H as <-. exact K.
Qed.

(** X15. Lines 423-430: when the loop over the files ends, the count reported as
    fixed is the number of files that were written, a file that was written
    has the length it had, and every other file is what it was.  When the
    loop is ended by an exception, it is the exception of the first file
    whose run raises. *)
Theorem fix_all_outcome files : forall n,
  match fix_all files n with
  | inr (m, out) =>
      m = n + Z.of_nat (length (filter (fun f => saved f = true) files)) /\
      Forall2 (fun f f' => length f' = length f /\
                           (saved f = false -> f' = f)) files out
  | inl e =>
      exists before f after,
        files = before ++ f :: after /\
        fix_nif_file f = Uncaught e /\
        Forall (fun g => forall e', fix_nif_file g <> Uncaught e') before
  end.
Proof.
  induction files as [|f rest IH]; intros n.
  - simpl. split; [lia | constructor].
  - cbn [fix_all]. rewrite filter_cons.
    destruct (fix_nif_file f) as [f'| |e] eqn:Ef.
    + assert (Hs : saved f = true) by (unfold saved; by rewrite Ef).
      specialize (IH (n + 1)).
      destruct (fix_all rest (n + 1)) as [e|[m out]].
      * destruct IH as (before & g & after & -> & Hg & Hb).
        exists (f :: before), g, after. split; [reflexivity|].
        split; [exact Hg|]. apply Forall_cons. split; [|exact Hb].
        intros e'. rewrite Ef. discriminate.
      * destruct IH as [-> Hall].
        rewrite decide_True by exact Hs.
        split; [rewrite length_cons; lia|].
        apply Forall2_cons. split; [|exact Hall].
        split; [by apply fix_nif_file_length|].
        rewrite Hs. discriminate.
    + assert (Hs : saved f = false) by (unfold saved; by rewrite Ef).
      specialize (IH n).
      destruct (fix_all rest n) as [e|[m out]].
      * destruct IH as (before & g & after & -> & Hg & Hb).
        exists (f :: before), g, after. split; [reflexivity|].
        split; [exact Hg|]. apply Forall_cons. split; [|exact Hb].
        intros e'. rewrite Ef. discriminate.
      * destruct IH as [-> Hall].
        rewrite decide_False by (rewrite Hs; discriminate).
        split; [reflexivity|].
        apply Forall2_cons. split; [|exact Hall]. by split.
    + exists [], f, rest. split; [reflexivity|]. split; [exact Ef|].
      constructor.
Qed.

(** ** The loop over the meshes raises nothing but [struct.error] *)

Lemma wp_fold_bounded {A} (body : Z -> A -> M A)
    (J : A -> NifParser -> Prop) (E : exn -> NifParser -> Prop) (n : nat) :
  (forall i a s, 0 <= i < Z.of_nat n -> J a s -> wp (body i a) J E s) ->
  forall k i a s,
    0 <= i -> i + Z.of_nat k <= Z.of_nat n -> J a s ->
    wp (fold_range_from i k body a) J E s.
Proof.
  intros Hb k. induction k as [|k IH]; intros i a s Hi Hk HJ.
  - exact HJ.
  - cbn [fold_range_from]. apply wp_bind.
    eapply wp_mono; [apply Hb; [lia | exact HJ] | | auto].
    intros a' s' HJ'. cbv beta. apply IH; [lia | lia | exact HJ'].
Qed.

Lemma validate_descs_safe n : forall e elem_start end_pos s,
  wp (validate_descs n e elem_start end_pos)
     (fun _ s' => s' = s) (fun x s' => x = StructError /\ s' = s) s.
Proof.
  induction n as [|n IH]; intros e es ep s; cbn [validate_descs].
  - by wp_step.
  - cbv zeta. wp_step; [by wp_step|].
    wp_call unpack_uint_wp; [|by intros x s' [-> ->]].
    intros v s' [_ ->].
    wp_call unpack_uint_wp; [|by intros x s' [-> ->]].
    intros v' s' [_ ->]. wp_step. wp_step; [by wp_step | apply IH].
Qed.

Lemma find_link_safe n : forall link_offset num_pos start_pos s,
  length (object_types s) = Z.to_nat (num_objects s) ->
  wp (find_link n link_offset num_pos start_pos)
     (fun r s' => s' = s /\ forall l, r = Some l -> is_stream_id s l)
     (fun x s' => x = StructError /\ s' = s) s.
Proof.
  induction n as [|n IH]; intros lo np sp s Ht; cbn [find_link].
  - wp_step. by split.
  - cbv zeta. wp_step; [wp_step; by split|].
    wp_call unpack_uint_wp; [|by intros x s' [-> ->]].
    intros v s' [Hv ->]. wp_step. wp_step; [|by apply IH].
    apply andb_true_iff in Heqb0 as [H1 H2].
    apply Z.leb_le in H1. apply Z.ltb_lt in H2.
    destruct (py_index_in_range (object_types s) v) as [ty Hty]; [lia|].
    wp_step. rewrite Hty. apply wp_try_Some.
    wp_step; [|by apply IH].
    wp_step. split; [done|]. intros l [= <-]. split; [lia|]. eauto.
Qed.

Lemma scan_back_safe n : forall back idx start_pos end_pos s,
  length (object_types s) = Z.to_nat (num_objects s) ->
  wp (scan_back n back idx start_pos end_pos)
     (fun r s' => s' = s /\ forall l, r = Some l -> is_stream_id s l)
     (fun x s' => x = StructError /\ s' = s) s.
Proof.
  induction n as [|n IH]; intros back idx sp ep s Ht; cbn [scan_back].
  - wp_step. by split.
  - cbv zeta. wp_step; [wp_step; by split|].
    wp_call unpack_uint_wp; [|by intros x s' [-> ->]].
    intros v s' [Hv ->]. wp_step; [by apply IH|].
    wp_call validate_descs_safe; [|by intros x s' [-> ->]].
    intros valid s' ->. wp_step; [by apply IH|].
    wp_call find_link_safe; [exact Ht | | by intros x s' [-> ->]].
    intros r s' [-> Hr]. destruct r as [l|]; [|by apply IH].
    wp_step. split; [done|]. intros l' [= <-]. by apply Hr.
Qed.

Lemma scan_hits_safe fuel : forall pat search start_pos end_pos streams s,
  length (object_types s) = Z.to_nat (num_objects s) ->
  Forall (fun p => is_stream_id s p.1) streams ->
  wp (scan_hits fuel pat search start_pos end_pos streams)
     (fun res s' => s' = s /\ Forall (fun p => is_stream_id s p.1) res)
     (fun x s' => x = StructError /\ s' = s) s.
Proof.
  induction fuel as [|fuel IH]; intros pat search sp ep streams s Ht Hs;
    cbn [scan_hits].
  - wp_step; wp_step; by split.
  - wp_step; [wp_step; by split|].
    wp_step. cbv zeta. wp_step; [wp_step; by split|].
    wp_call unpack_uint_wp; [|by intros x s' [-> ->]].
    intros v s' [Hv ->]. wp_step; [by apply IH|].
    wp_call scan_back_safe; [exact Ht | | by intros x s' [-> ->]].
    intros r s' [-> Hr]. apply IH; [exact Ht|].
    destruct r as [l|]; [|done].
    apply Forall_app. split; [done|].
    apply Forall_singleton. simpl. by apply Hr.
Qed.

Lemma locator_safe mesh_idx index_str_idx s :
  tables_full s -> 0 <= mesh_idx < num_objects s ->
  wp (find_index_streams_in_mesh mesh_idx index_str_idx)
     (fun streams s' => s' = s /\ Forall (fun p => is_stream_id s p.1) streams)
     (fun x s' => x = StructError /\ s' = s) s.
Proof.
  intros (Ht & Hs & Ho & _) Hi. unfold find_index_streams_in_mesh.
  destruct (py_index_in_range (object_offsets s) mesh_idx) as [start Hst];
    [lia|].
  destruct (py_index_in_range (object_sizes s) mesh_idx) as [sz Hsz]; [lia|].
  wp_step. rewrite Hst. apply wp_try_Some.
  wp_step. rewrite Hsz. apply wp_try_Some. cbv zeta.
  wp_step; [|done]. by apply scan_hits_safe.
Qed.

Lemma tables_full_view s s' :
  tables_view s' = tables_view s -> tables_full s -> tables_full s'.
Proof.
  unfold tables_view, tables_full. intros [= Hn Ht Hs Ho _].
  by rewrite Hn, Ht, Hs, Ho.
Qed.

Lemma patcher_safe sid s :
  tables_full s -> is_stream_id s sid ->
  wp (fix_datastream_winding sid)
     (fun _ s' => tables_view s' = tables_view s)
     (fun x s' => x = StructError /\ tables_view s' = tables_view s) s.
Proof.
  intros (_ & _ & Ho & lo & Hlo & Hall) [Hsid _].
  destruct (py_index_in_range (object_offsets s) sid) as [p0 Hp0]; [lia|].
  eapply wp_mono;
    [apply wp_conj;
     [apply (keeps_wp tables_view), fix_datastream_winding_follow; apply _
     |apply (fix_datastream_winding_writes lo); [exact Hlo | exact Hall]]
    | cbv beta; by intros _ s' [Ht _]
    | cbv beta].
  intros x s' [Ht [_ [->|Hnone]]]; [done | congruence].
Qed.

Section SafeLoop.

Variable s0 : NifParser.
Hypothesis s0_full : tables_full s0.

Lemma process_streams_safe i streams :
  Forall (fun p => is_stream_id s0 p.1) streams ->
  forall processed s,
    tables_view s = tables_view s0 ->
    wp (process_streams i streams processed)
       (fun _ s' => tables_view s' = tables_view s0)
       (fun x s' => x = StructError /\ tables_view s' = tables_view s0) s.
Proof.
  induction streams as [|[sid e] rest IH]; intros Hs processed s Hv;
    cbn [process_streams].
  - by wp_step.
  - apply Forall_cons in Hs as [Hsid Hrest]. simpl in Hsid.
    destruct (decide (sid ∈ processed)); [by apply IH|].
    wp_step.
    wp_call patcher_safe.
    + eapply tables_full_view; [|exact s0_full]. exact Hv.
    + eapply is_stream_id_tables; [|exact Hsid]. by rewrite <- Hv.
    + intros _ s' Ht. apply IH; [done|]. by rewrite Ht.
    + intros x s' [-> Ht]. split; [done|]. by rewrite Ht.
Qed.

Lemma process_object_safe idx i processed s :
  0 <= i < num_objects s0 ->
  tables_view s = tables_view s0 ->
  wp (process_object idx i processed)
     (fun _ s' => tables_view s' = tables_view s0)
     (fun x s' => x = StructError /\ tables_view s' = tables_view s0) s.
Proof.
  intros Hi Hv.
  assert (Hfull : tables_full s) by (by eapply tables_full_view).
  assert (Hn : num_objects s = num_objects s0)
    by (unfold tables_view in Hv; by injection Hv).
  destruct Hfull as (Ht & Hrest).
  destruct (py_index_in_range (object_types s) i) as [ty Hty]; [lia|].
  unfold process_object. wp_step. rewrite Hty. apply wp_try_Some.
  wp_step; [by wp_step|].
  wp_call locator_safe.
  - by split.
  - lia.
  - intros streams s' [-> Hs]. apply process_streams_safe; [|exact Hv].
    eapply Forall_impl; [exact Hs|]. intros p Hp.
    by eapply is_stream_id_tables.
  - by intros x s' [-> ->].
Qed.

Lemma process_all_meshes_safe s :
  tables_view s = tables_view s0 ->
  wp process_all_meshes
     (fun _ s' => tables_view s' = tables_view s0)
     (fun x s' => x = StructError /\ tables_view s' = tables_view s0) s.
Proof.
  intros Hv. unfold process_all_meshes. wp_step.
  destruct (list_index (string_table s) s_INDEX 0) as [idx|];
    [|wp_step; exact Hv].
  wp_step. wp_step. apply wp_bind. unfold fold_range.
  assert (Hn : num_objects s = num_objects s0)
    by (unfold tables_view in Hv; by injection Hv).
  eapply wp_mono;
    [apply (wp_fold_bounded (process_object idx)
              (fun _ s' => tables_view s' = tables_view s0)
              (fun x s' => x = StructError /\ tables_view s' = tables_view s0)
              (Z.to_nat (num_objects s)));
     [| lia | simpl; lia | exact Hv]
    | cbv beta | cbv beta; done].
  - intros i a s' Hi Hv'. apply process_object_safe; [simpl in Hi; lia | done].
  - intros processed s' Hv'. wp_step. exact Hv'.
Qed.

End SafeLoop.

#[export] Instance object_sizes_cursor : CursorOK (keeps object_sizes).
Proof. by split. Qed.
#[export] Instance object_sizes_header : HeaderOK (keeps object_sizes).
Proof. by split. Qed.
#[export] Instance object_sizes_print : PrintOK (keeps object_sizes).
Proof. by split. Qed.

#[export] Instance object_types_offsets : OffsetsOK (keeps object_types).
Proof. by split. Qed.

Lemma parse_metadata_sizes : follows (keeps object_sizes) parse_metadata.
Proof. intros s. unfold parse_metadata. tail. Qed.

Lemma parse_object_sizes_old s :
  file_ver s < nif_version 20 2 0 5 -> parse_object_sizes s = Ret true s.
Proof.
  intros Hv. unfold parse_object_sizes. rewrite bind_gets.
  destruct (Z.leb_spec (nif_version 20 2 0 5) (file_ver s)) as [|_]; [lia|].
  reflexivity.
Qed.

(** after the parse steps there is a type per object, or no size was read *)
Lemma parse_steps_types input s1 :
  parse_steps (NifParser_init input) = Ret true s1 ->
  length (object_types s1) = Z.to_nat (num_objects s1) \/ object_sizes s1 = [].
Proof.
  intros H.
  assert (H5 : nif_version 5 0 0 1 = 83886081) by reflexivity.
  assert (H20 : nif_version 20 2 0 5 = 335675397) by reflexivity.
  unfold parse_steps in H. walk H.
  all: repeat match goal with
              | Hb : negb ?b = false |- _ =>
                  destruct b; [clear Hb | discriminate Hb]
              end.
  all: match goal with
       | Eg : parse_object_groups ?se = Ret true _,
         Es : parse_string_table ?sd = Ret true ?se |- _ =>
           assert (Kg : follows (keeps tail_view) parse_object_groups)
             by apply parse_object_groups_tail;
           specialize (Kg se); rewrite Eg in Kg;
           assert (Ks : follows (keeps tail_view) parse_string_table)
             by apply parse_string_table_tail;
           specialize (Ks sd); rewrite Es in Ks;
           unfold keeps, tail_view in Kg, Ks; simpl in Kg, Ks;
           injection Kg as Kg1 Kg2 Kg3 Kg4 Kg5;
           injection Ks as Ks1 Ks2 Ks3 Ks4 Ks5
       end.
  - left.
    match goal with
    | Ez : parse_object_sizes ?sc = Ret true ?sd,
      Et : parse_type_names_and_indices ?sb = Ret true ?sc |- _ =>
        assert (Kz : follows (keeps types_view) parse_object_sizes)
          by apply parse_object_sizes_types;
        specialize (Kz sc); rewrite Ez in Kz;
        unfold keeps, types_view in Kz; simpl in Kz;
        injection Kz as Kz1 Kz2 Kz3 Kz4;
        pose proof (parse_type_names_and_indices_length sb) as Wt;
        unfold wp in Wt; rewrite Et in Wt; destruct Wt as [Wt1 _];
        kept num_objects Et
    end.
    congruence.
  - right.
    match goal with
    | Hlt : (nif_version 5 0 0 1 <=? file_ver ?sb) = false,
      Ez : parse_object_sizes ?sb = Ret true ?sd,
      Em : parse_metadata ?sa = Ret true ?sb,
      Eh : parse_header _ = Ret true ?sa |- _ =>
        apply Z.leb_gt in Hlt;
        rewrite parse_object_sizes_old in Ez by lia;
        injection Ez as <-;
        assert (Km : follows (keeps object_sizes) parse_metadata)
          by apply parse_metadata_sizes;
        specialize (Km sa); rewrite Em in Km;
        kept object_sizes Eh
    end.
    unfold keeps in Km. simpl in Km. congruence.
Qed.

(** X16. Lines 320-344 with 152-318: once the tables are parsed and the
    offsets built, every object has an entry in the tables of types, sizes
    and offsets, and the loop over the meshes leaves the tables alone: the
    list lookups of lines 158, 159, 219, 234 and 332 stay in range, so that
    the loop can only be ended by a [struct.error], never by an
    [IndexError].  The loop over the triangles raises nothing at all, for
    any width of the fields and any region offset that is not negative:
    [unpack_from] and [pack_into] are reached inside the buffer only. *)
Theorem mesh_loop_raises_struct_error input s1 s2 s3 :
  parse_steps (NifParser_init input) = Ret true s1 ->
  build_offsets s1 = Ret tt s2 ->
  count_types s2 = Ret tt s3 ->
  (forall i, 0 <= i < num_objects s3 ->
     is_Some (py_index (object_types s3) i) /\
     is_Some (py_index (object_sizes s3) i) /\
     is_Some (py_index (object_offsets s3) i)) /\
  tables_view (final (process_all_meshes s3)) = tables_view s3 /\
  (forall e s4, process_all_meshes s3 = Raise e s4 -> e = StructError) /\
  (forall w n t region_offset s,
     0 <= region_offset -> 0 <= t ->
     exists s', swap_loop w n t region_offset s = Ret tt s').
Proof.
  intros E1 E2 E3.
  assert (Hsane : sane s1).
  { pose proof (parse_steps_sane (NifParser_init input)) as W.
    unfold wp in W. rewrite E1 in W. apply W.
    split; [simpl; lia | constructor]. }
  pose proof (parse_steps_true _ _ E1) as Hpos.
  pose proof (build_offsets_writes s1 Hsane) as W2. unfold wp in W2.
  rewrite E2 in W2. destruct W2 as (_ & Hall & _).
  destruct (build_offsets_spec s1 s2 E2) as (Ho & Hlen & Hn & Hs).
  cbv zeta in Ho, Hlen.
  assert (Hge : (Z.to_nat (num_objects s1) <= length (object_sizes s1))%nat).
  { rewrite <- Hlen. rewrite length_take. lia. }
  assert (Ht : length (object_types s1) = Z.to_nat (num_objects s1)).
  { destruct (parse_steps_types input s1 E1) as [Ht|Hnil]; [exact Ht|].
    rewrite Hnil in Hge. simpl in Hge. lia. }
  kept object_types E2.
  assert (Hfull2 : tables_full s2).
  { split; [congruence|]. split; [congruence|].
    split; [by rewrite Ho, offsets_from_length, Hlen, Hn|].
    exists (pos s1). split; [apply Hsane | exact Hall]. }
  kept tables_view E3.
  assert (Hfull3 : tables_full s3) by (by eapply tables_full_view).
  split; [|split; [|split]].
  - destruct Hfull3 as (F1 & F2 & F3 & _). intros i Hi.
    split; [|split].
    + destruct (py_index_in_range (object_types s3) i) as [x ->]; [lia|done].
    + destruct (py_index_in_range (object_sizes s3) i) as [x ->]; [lia|done].
    + destruct (py_index_in_range (object_offsets s3) i) as [x ->]; [lia|done].
  - apply (process_all_meshes_follow (keeps tables_view)).
  - intros e s4 E4.
    pose proof (process_all_meshes_safe s3 Hfull3 s3 eq_refl) as W4.
    unfold wp in W4. rewrite E4 in W4. apply W4.
  - intros w n t ro s Hro Ht0.
    destruct (swap_loop_writes w n t ro s Hro Ht0) as (new & s' & Hr & _).
    by exists s'.
Qed.

(** X16 on [Sample.two_meshes] cut after 150 bytes, inside its objects. *)
Lemma mesh_loop_raises_witness :
  fix_nif_file (take 150 Sample.two_meshes) = Uncaught StructError.
Proof.
  set (s0 := NifParser_init (take 150 Sample.two_meshes)).
  set (s1 := final (parse_steps s0)).
  set (s2 := final (build_offsets s1)).
  set (s3 := final (count_types s2)).
  assert (E1 : parse_steps s0 = Ret true s1) by (vm_compute; reflexivity).
  assert (E2 : build_offsets s1 = Ret tt s2) by (vm_compute; reflexivity).
  assert (E3 : count_types s2 = Ret tt s3) by (vm_compute; reflexivity).
  destruct (process_all_meshes s3) as [[] s4|e s4] eqn:E4.
  - vm_compute in E4. discriminate E4.
  - destruct (mesh_loop_raises_struct_error _ _ _ _ E1 E2 E3)
      as (_ & _ & H & _).
    rewrite (H _ _ E4) in E4.
    unfold fix_nif_file. fold s0. rewrite parse_and_fix_unfold, E1, E2, E3, E4.
    reflexivity.
Defined.

(** ** A mesh without the pattern (lines 163-169) *)

Lemma find_from_contains p : forall l i,
  contains l p = false -> find_from p l i = -1.
Proof.
  induction l as [|x l IH]; intros i H; cbn [contains find_from] in *;
    apply orb_false_iff in H as [H1 H2]; rewrite H1; [reflexivity|].
  by apply IH.
Qed.

Lemma clamp_index_twice len i :
  0 <= len -> clamp_index len (clamp_index len i) = clamp_index len i.
Proof.
  intros Hl. unfold clamp_index.
  destruct (Z.ltb_spec i 0) as [Hi|Hi].
  - destruct (Z.ltb_spec (Z.max 0 (i + len)) 0); lia.
  - destruct (Z.ltb_spec (Z.min i len) 0); lia.
Qed.

Lemma py_find_absent d p lo hi :
  contains (py_slice d lo hi) p = false -> py_find d p lo hi = -1.
Proof.
  intros H. unfold py_find.
  destruct (_ <? _); [reflexivity|].
  apply find_from_contains.
  unfold py_slice in *. by rewrite !clamp_index_twice by lia.
Qed.

(** X17. Lines 163-169: the Locator looks for the 4 bytes of the INDEX
    string index, little-endian, inside the object.  When they do not occur
    in the bytes of the mesh it returns no stream and leaves the parser as
    it was. *)
Theorem locator_needs_pattern mesh_idx index_str_idx s start sz pat :
  py_index (object_offsets s) mesh_idx = Some start ->
  py_index (object_sizes s) mesh_idx = Some sz ->
  pack 4 [index_str_idx] = Some pat ->
  contains (py_slice (data s) start (start + sz)) pat = false ->
  find_index_streams_in_mesh mesh_idx index_str_idx s = Ret [] s.
Proof.
  intros Ho Hs Hp Hc. unfold find_index_streams_in_mesh.
  rewrite bind_gets, (bind_try_Some _ _ _ _ _ Ho).
  rewrite bind_gets, (bind_try_Some _ _ _ _ _ Hs).
  rewrite (bind_try_Some _ _ _ _ _ Hp).
  destruct (Z.to_nat _); cbn [scan_hits];
    destruct (negb _); try reflexivity.
  rewrite bind_gets, py_find_absent by exact Hc. reflexivity.
Qed.

(** X17 on an object of 40 zero bytes, for the string index 1. *)
Lemma locator_needs_pattern_witness :
  find_index_streams_in_mesh 0 1
    (set_object_offsets [0]
       (set_object_sizes [40] (NifParser_init (replicate 40 x00))))
  = Ret []
      (set_object_offsets [0]
         (set_object_sizes [40] (NifParser_init (replicate 40 x00)))).
Proof.
  apply (locator_needs_pattern 0 1 _ 0 40 [x01; x00; x00; x00]);
    reflexivity.
Defined.

(** X18 on the first mesh of [Sample.two_meshes], from 106 to 137: the loop
    makes two turns and finds stream 2; 11 turns are allowed at line 166
    and 50 change nothing. *)
Lemma scan_hits_fuel_witness :
  scan_hits 11 [x01; x00; x00; x00] 106 106 137 [] two_meshes_parsed
  = scan_hits 50 [x01; x00; x00; x00] 106 106 137 [] two_meshes_parsed /\
  scan_hits 11 [x01; x00; x00; x00] 106 106 137 [] two_meshes_parsed
  = Ret [(2, 0)] two_meshes_parsed /\
  scan_hits 1 [x01; x00; x00; x00] 106 106 137 [] two_meshes_parsed
  = Ret [] two_meshes_parsed.
Proof.
  split; [|split; vm_compute; reflexivity].
  apply scan_hits_fuel; [discriminate | simpl; lia | simpl; lia].
Defined.

(** ** The count of triangles that is reported (lines 281-317) *)

Lemma patch_region_total isz stride ds base count total s :
  0 <= ds -> 0 <= stride -> 0 <= base -> 0 <= count ->
  exists s',
    patch_region isz stride ds (base, count) total s
    = Ret (total + region_triangles isz (base, count)) s' /\
    length (data s') = length (data s).
Proof.
  intros Hds Hst Hb Hc.
  assert (Hro : 0 <= ds + base * stride)
    by (assert (0 <= base * stride) by (apply Z.mul_nonneg_nonneg; lia); lia).
  assert (Hloop : forall w,
            exists s',
              bind (swap_loop w (Z.to_nat (count / 3)) 0 (ds + base * stride))
                   (fun _ => ret (total + count / 3)) s
              = Ret (total + count / 3) s' /\
              length (data s') = length (data s)).
  { intros w.
    destruct (swap_loop_writes w (Z.to_nat (count / 3)) 0
                (ds + base * stride) s) as (new & s' & Hrun & Hsw & _);
      [lia | lia |].
    exists s'. rewrite (bind_Ret _ _ _ _ _ Hrun). split; [reflexivity|].
    destruct (swapped_fields _ _ _ Hsw) as (-> & _).
    apply apply_swaps_length. }
  unfold patch_region, region_triangles. cbn [snd].
  destruct (isz =? 2) eqn:E2; [|destruct (isz =? 4) eqn:E4]; cbn [orb andb].
  - destruct (count mod 3 =? 0); cbn [negb]; [apply Hloop|].
    exists s. by rewrite Z.add_0_r.
  - destruct (count mod 3 =? 0); cbn [negb]; [apply Hloop|].
    exists s. by rewrite Z.add_0_r.
  - exists s. by rewrite Z.add_0_r.
Qed.

(** X19. Lines 281-314: the count of triangles that the patcher reports is
    read off the region table alone.  Every region whose count is a
    multiple of 3 adds a third of its count when the index size is 2 or 4,
    whether or not its triples lie inside the buffer; the loop over the
    regions never raises and keeps the length of the buffer. *)
Theorem patch_regions_total isz stride ds regions : forall total s,
  0 <= ds -> 0 <= stride ->
  Forall (fun r => 0 <= r.1 /\ 0 <= r.2) regions ->
  exists s',
    patch_regions isz stride ds regions total s
    = Ret (total + foldr Z.add 0 (map (region_triangles isz) regions)) s' /\
    length (data s') = length (data s).
Proof.
  induction regions as [|[base count] rest IH]; intros total s Hds Hst Hr.
  - exists s. simpl. by rewrite Z.add_0_r.
  - apply Forall_cons in Hr as [[Hb Hc] Hr]. simpl in Hb, Hc.
    destruct (patch_region_total isz stride ds base count total s)
      as (s1 & Hrun1 & Hlen1); [done..|].
    destruct (IH (total + region_triangles isz (base, count)) s1 Hds Hst Hr)
      as (s2 & Hrun2 & Hlen2).
    exists s2. cbn [patch_regions]. rewrite (bind_Ret _ _ _ _ _ Hrun1).
    rewrite Hrun2. split; [|congruence].
    cbn [map foldr]. f_equal. lia.
Qed.

(** X19 on a buffer of 4 bytes: regions of 3, 4 and 6 indices of 2 bytes
    count for 3 triangles, though no triple fits the buffer. *)
Lemma patch_regions_total_witness :
  exists s',
    patch_regions 2 2 0 [(0, 3); (3, 4); (7, 6)] 0
      (NifParser_init [x01; x02; x03; x04]) = Ret 3 s' /\
    length (data s') = 4%nat.
Proof.
  destruct (patch_regions_total 2 2 0 [(0, 3); (3, 4); (7, 6)] 0
              (NifParser_init [x01; x02; x03; x04]))
    as (s' & Hrun & Hlen); [lia | lia | |].
  - repeat (apply Forall_cons; split; [simpl; lia|]). constructor.
  - exists s'. split; [exact Hrun | exact Hlen].
Defined.

(** ** The patcher on a stream with one region and one element format *)

Lemma read_uint_at p s v :
  unpack1 4 (data s) p = Some v ->
  wp read_uint (fun v' s' => v' = v /\ s' = set_pos (p + 4) s)
     (fun _ _ => False) (set_pos p s).
Proof.
  intros H. unfold wp, read_uint, bind, gets, modify, ret, try_or.
  cbv beta iota. change (data (set_pos p s)) with (data s).
  change (pos (set_pos p s)) with p. by rewrite H.
Qed.

Lemma reversed_reads w d d' off :
  0 <= off -> off + 3 * Z.of_nat w <= Z.of_nat (length d) ->
  length d' = length d ->
  take (3 * w) (drop (Z.to_nat off) d')
  = swap3 w (take (3 * w) (drop (Z.to_nat off) d)) ->
  exists a b c,
    unpack3 w d off = Some (a, b, c) /\ unpack3 w d' off = Some (a, c, b).
Proof.
  intros H0 Hin Hl Hk.
  rewrite !unpack3_chunk by (rewrite ?Hl; lia). rewrite Hk.
  destruct (swap3_fields w (take (3 * w) (drop (Z.to_nat off) d)))
    as (F1 & F2 & F3).
  { rewrite length_take, length_drop. lia. }
  rewrite F1, F2, F3. eauto.
Qed.

Ltac read_at H :=
  wp_call read_uint_at;
  [first [exact H | match goal with
                           | |- unpack1 4 _ ?p = _ =>
                               match type of H with
                               | unpack1 4 _ ?q = _ =>
                                   replace p with q by lia; exact H
                               end
                           end]
  | intros ? ? [-> ->]
  | by intros].

(** X20. Lines 232-318 on a data stream with one region and one element
    format whose index width is 2 or 4, whose count is a multiple of 3 and
    whose indices lie inside the buffer: the patcher returns, every
    triangle (a, b, c) of the region reads (a, c, b) afterwards, no other
    byte changes, and the flag is set when there is a triangle. *)
Theorem patcher_reverses_single_region
    sid s p0 size clone base count ed (wn : nat) :
  py_index (object_offsets s) sid = Some p0 -> 0 <= p0 ->
  unpack1 4 (data s) p0 = Some size ->
  unpack1 4 (data s) (p0 + 4) = Some clone ->
  unpack1 4 (data s) (p0 + 8) = Some 1 ->
  unpack1 4 (data s) (p0 + 12) = Some base ->
  unpack1 4 (data s) (p0 + 16) = Some count ->
  unpack1 4 (data s) (p0 + 20) = Some 1 ->
  unpack1 4 (data s) (p0 + 24) = Some ed ->
  (wn = 2 \/ wn = 4)%nat ->
  (if (data_type ed =? 10) || (data_type ed =? 11) then 4 else item_size ed)
  = Z.of_nat wn ->
  let ro := p0 + 28 + base * (Z.land (Z.shiftr ed 16) 255 * item_size ed) in
  count mod 3 = 0 ->
  ro + count * Z.of_nat wn <= Z.of_nat (length (data s)) ->
  exists s',
    fix_datastream_winding sid s = Ret tt s' /\
    modified s' = (0 <? count / 3) || modified s /\
    length (data s') = length (data s) /\
    take (Z.to_nat ro) (data s') = take (Z.to_nat ro) (data s) /\
    drop (Z.to_nat (ro + count * Z.of_nat wn)) (data s')
    = drop (Z.to_nat (ro + count * Z.of_nat wn)) (data s) /\
    forall k, 0 <= k < count / 3 ->
      exists a b c,
        unpack3 wn (data s) (ro + k * (3 * Z.of_nat wn)) = Some (a, b, c) /\
        unpack3 wn (data s') (ro + k * (3 * Z.of_nat wn)) = Some (a, c, b).
Proof.
  intros Hp0 H0 Hsize Hclone Hnr Hbase Hcount Hne Hed Hw Hwidth ro Hmod Hin.
  assert (Hb : 0 <= base) by (apply unpack1_range in Hbase; lia).
  assert (Hc : 0 <= count) by (apply unpack1_range in Hcount; lia).
  set (stride := Z.land (Z.shiftr ed 16) 255 * item_size ed) in *.
  assert (Hst : 0 <= stride).
  { unfold stride, item_size.
    apply Z.mul_nonneg_nonneg; apply Z.land_nonneg; right; lia. }
  assert (Hro : 0 <= ro)
    by (assert (0 <= base * stride) by (apply Z.mul_nonneg_nonneg; lia);
        unfold ro; lia).
  set (n := Z.to_nat (count / 3)).
  assert (Hq : 0 <= count / 3) by (apply Z.div_pos; lia).
  assert (Hcn : count = Z.of_nat n * 3).
  { unfold n. rewrite Z2Nat.id by lia.
    rewrite (Z.div_mod count 3) at 1 by lia. lia. }
  assert (Hgoal : wp (fix_datastream_winding sid)
            (fun _ s' =>
               modified s' = (0 <? count / 3) || modified s /\
               length (data s') = length (data s) /\
               take (Z.to_nat ro) (data s') = take (Z.to_nat ro) (data s) /\
               drop (Z.to_nat (ro + count * Z.of_nat wn)) (data s')
               = drop (Z.to_nat (ro + count * Z.of_nat wn)) (data s) /\
               forall k, 0 <= k < count / 3 ->
                 exists a b c,
                   unpack3 wn (data s) (ro + k * (3 * Z.of_nat wn))
                   = Some (a, b, c) /\
                   unpack3 wn (data s') (ro + k * (3 * Z.of_nat wn))
                   = Some (a, c, b))
            (fun _ _ => False) s).
  { unfold fix_datastream_winding. wp_step. rewrite Hp0. apply wp_try_Some.
    wp_step. read_at Hsize. read_at Hclone. read_at Hnr.
    apply wp_bind. unfold fold_range. change (Z.to_nat 1) with 1%nat.
    cbn [fold_range_from]. apply wp_bind.
    read_at Hbase. read_at Hcount. wp_step. wp_step.
    read_at Hne.
    apply wp_bind. unfold fold_range. change (Z.to_nat 1) with 1%nat.
    cbn [fold_range_from]. apply wp_bind. unfold elem_step.
    read_at Hed. wp_step. wp_step. cbv beta iota zeta.
    change (0 =? 0) with true. cbv iota.
    change (Z.land ed 255) with (data_type ed).
    change (Z.land (Z.shiftr ed 8) 255) with (item_size ed).
    rewrite Hwidth. rewrite Z.add_0_l. fold stride.
    wp_step. wp_step. cbn [patch_regions]. apply wp_bind. apply wp_bind.
    match goal with
    | |- context [patch_region _ _ ?ds _ _] =>
        replace ds with (p0 + 28) by (simpl; lia)
    end.
    match goal with
    | |- wp _ _ _ ?st => set (s1 := st)
    end.
    assert (Hd1 : data s1 = data s) by reflexivity.
    assert (Hm1 : modified s1 = modified s) by reflexivity.
    fold ro.
    destruct (swap_loop_in_range wn n 0 ro s1 Hro ltac:(lia)) as
      (s2 & Hrun & Hsame & Hl & Htake & Hdrop & Hk).
    { rewrite Hd1. lia. }
    rewrite Z.mul_0_l, Z.add_0_r in Htake. rewrite Z.add_0_l in Hdrop.
    replace (Z.of_nat n * (3 * Z.of_nat wn)) with (count * Z.of_nat wn)
      in Hdrop by lia.
    assert (Hpatch : wp (patch_region (Z.of_nat wn) stride (p0 + 28)
                           (base, count) 0)
              (fun total s' => total = count / 3 /\ s' = s2)
              (fun _ _ => False) s1).
    { unfold patch_region. fold ro.
      assert (Hm3 : negb (count mod 3 =? 0) = false) by (by rewrite Hmod).
      rewrite Hm3. fold n.
      destruct Hw as [-> | ->]; cbn [Z.of_nat Pos.of_succ_nat Pos.succ Z.eqb
                                       Pos.eqb];
        (eapply wp_bind_Ret; [exact Hrun|]); wp_step; by split. }
    eapply wp_mono; [exact Hpatch | cbv beta | by intros].
    intros total s' [-> ->]. wp_step.
    assert (Hm2 : modified s2 = modified s)
      by (rewrite Hsame; exact Hm1).
    assert (Hfacts :
      length (data s2) = length (data s) /\
      take (Z.to_nat ro) (data s2) = take (Z.to_nat ro) (data s) /\
      drop (Z.to_nat (ro + count * Z.of_nat wn)) (data s2)
      = drop (Z.to_nat (ro + count * Z.of_nat wn)) (data s) /\
      forall k, 0 <= k < count / 3 ->
        exists a b c,
          unpack3 wn (data s) (ro + k * (3 * Z.of_nat wn)) = Some (a, b, c) /\
          unpack3 wn (data s2) (ro + k * (3 * Z.of_nat wn)) = Some (a, c, b)).
    { rewrite <- Hd1. split; [exact Hl|]. split; [exact Htake|].
      split; [exact Hdrop|]. intros k Hkr.
      specialize (Hk (Z.to_nat k) ltac:(unfold n; lia)).
      rewrite Z.add_0_l, Z2Nat.id in Hk by lia.
      assert (0 <= k * (3 * Z.of_nat wn))
        by (apply Z.mul_nonneg_nonneg; lia).
      apply reversed_reads; [lia | | exact Hl | exact Hk].
      assert ((k + 1) * (3 * Z.of_nat wn) <= Z.of_nat n * (3 * Z.of_nat wn))
        by (apply Z.mul_le_mono_nonneg_r; unfold n; lia).
      rewrite Hd1. lia. }
    wp_step.
    - wp_step. wp_step. split; [reflexivity | exact Hfacts].
    - wp_step. split; [exact Hm2 | exact Hfacts]. }
  unfold wp in Hgoal.
  destruct (fix_datastream_winding sid s) as [[] s'|]; [|done].
  by exists s'.
Qed.

(** X20 on the data stream of [Sample.two_meshes], whose one triangle
    (1, 2, 3) becomes (1, 3, 2). *)
Lemma patcher_reverses_witness :
  exists s',
    fix_datastream_winding 2 two_meshes_parsed = Ret tt s' /\
    modified s' = true /\
    unpack3 2 (data s') 196 = Some (1, 3, 2).
Proof.
  destruct (patcher_reverses_single_region 2 two_meshes_parsed 168 7 0 0 3
              (Sample.elem_format 1 2 5) 2)
    as (s' & Hrun & Hm & _ & _ & _ & Hk);
    try (vm_compute; reflexivity); try lia.
  - vm_compute. discriminate.
  - exists s'. split; [exact Hrun|]. split; [exact Hm|].
    destruct (Hk 0) as (a & b & c & H1 & H2);
      [split; [lia | vm_compute; reflexivity]|].
    vm_compute in H1. injection H1 as <- <- <-. exact H2.
Defined.

(** * Whole runs *)

(** ** The offsets of the objects (lines 367-373) *)

Lemma parse_type_names_and_indices_sizes :
  follows (keeps object_sizes) parse_type_names_and_indices.
Proof. intros s. unfold parse_type_names_and_indices. tail. Qed.

(** the sizes are read for every object or not at all *)
Lemma parse_steps_sizes input s1 :
  parse_steps (NifParser_init input) = Ret true s1 ->
  object_sizes s1 = [] \/
  length (object_sizes s1) = Z.to_nat (num_objects s1).
Proof.
  intros H.
  unfold parse_steps in H. walk H.
  all: repeat match goal with
              | Hb : negb ?b = false |- _ =>
                  destruct b; [clear Hb | discriminate Hb]
              end.
  all: match goal with
       | Eg : parse_object_groups ?se = Ret true _,
         Es : parse_string_table ?sd = Ret true ?se,
         Ez : parse_object_sizes ?sc = Ret true ?sd |- _ =>
           assert (Kg : follows (keeps tail_view) parse_object_groups)
             by apply parse_object_groups_tail;
           specialize (Kg se); rewrite Eg in Kg;
           assert (Ks : follows (keeps tail_view) parse_string_table)
             by apply parse_string_table_tail;
           specialize (Ks sd); rewrite Es in Ks;
           assert (Kz : follows (keeps types_view) parse_object_sizes)
             by apply parse_object_sizes_types;
           specialize (Kz sc); rewrite Ez in Kz;
           unfold keeps, tail_view, types_view in Kg, Ks, Kz;
           simpl in Kg, Ks, Kz;
           injection Kg as Kg1 Kg2 Kg3 Kg4 Kg5;
           injection Ks as Ks1 Ks2 Ks3 Ks4 Ks5;
           injection Kz as Kz1 Kz2 Kz3 Kz4;
           destruct (Z_le_gt_dec (nif_version 20 2 0 5) (file_ver sc))
             as [Hvc|Hvc];
           [ pose proof (parse_object_sizes_length sc Hvc) as Wz;
             unfold wp in Wz; rewrite Ez in Wz; destruct Wz as [Wz1 _];
             right; congruence
           | left; rewrite parse_object_sizes_old in Ez by lia;
             injection Ez as <- ]
       end.
  - match goal with
    | Et : parse_type_names_and_indices ?sb = Ret true ?sc,
      Em : parse_metadata ?sa = Ret true ?sb,
      Eh : parse_header _ = Ret true ?sa |- _ =>
        pose proof (parse_type_names_and_indices_sizes sb) as Kt;
        rewrite Et in Kt;
        pose proof (parse_metadata_sizes sa) as Km; rewrite Em in Km;
        kept object_sizes Eh
    end.
    unfold keeps in *. simpl in *. congruence.
  - match goal with
    | Em : parse_metadata ?sa = Ret true ?sb,
      Eh : parse_header _ = Ret true ?sa |- _ =>
        pose proof (parse_metadata_sizes sa) as Km; rewrite Em in Km;
        kept object_sizes Eh
    end.
    unfold keeps in *. simpl in *. congruence.
Qed.

(** C9: in every run whose parse steps succeed with a size list that is
    not empty - whether the run then returns or raises - the offset of the
    first object is the cursor left by the last table, there is one offset
    per object, and every next offset is the previous one plus the size of
    the previous object.  For the sizes 10, 20, 15 the offsets are the base,
    the base plus 10, and the base plus 30. *)
Theorem object_offsets_accumulate input s1 :
  parse_steps (NifParser_init input) = Ret true s1 ->
  object_sizes s1 <> [] ->
  let sf := final (parse_and_fix (NifParser_init input)) in
  object_offsets sf !! 0%nat = Some (pos s1) /\
  length (object_offsets sf) = Z.to_nat (num_objects sf) /\
  (forall (i : nat) off,
      object_offsets sf !! i = Some off ->
      (S i < length (object_offsets sf))%nat ->
      exists sz, object_sizes sf !! i = Some sz /\
                 object_offsets sf !! S i = Some (off + sz)) /\
  object_sizes sf = object_sizes s1 /\
  object_offsets sf = offsets_from (pos s1) (object_sizes s1) /\
  (forall base s,
      object_offsets
        (final (build_offsets
                  (set_pos base
                     (set_object_sizes [10; 20; 15] (set_num_objects 3 s)))))
      = [base; base + 10; base + 30]).
Proof.
  intros H1 Hne sf. pose proof (parse_steps_true _ _ H1) as Hpos.
  destruct (parse_steps_sizes _ _ H1) as [Hnil|Hlen]; [done|].
  destruct (build_offsets_returns s1 Hlen) as (s2 & E2 & Ho2).
  destruct (build_offsets_spec s1 s2 E2) as (_ & _ & Hn & Hsz).
  assert (Hv : tables_view sf
               = (num_objects s1, object_types s2, object_sizes s1,
                  offsets_from (pos s1) (object_sizes s1), string_table s2)).
  { unfold sf. rewrite parse_and_fix_unfold, H1, E2.
    pose proof (count_types_follow (keeps tables_view) s2) as K3.
    destruct (count_types s2) as [? s3|e s3]; simpl in K3;
      unfold keeps in K3.
    - pose proof (process_all_meshes_follow (keeps tables_view) s3) as K4.
      unfold keeps in K4.
      destruct (process_all_meshes s3) as [? s4|e s4]; simpl in K4 |- *;
        rewrite K4, K3; unfold tables_view; by rewrite Hn, Hsz, Ho2.
    - simpl. rewrite K3. unfold tables_view. by rewrite Hn, Hsz, Ho2. }
  unfold tables_view in Hv. injection Hv as Kn _ Ks Ko _.
  rewrite Ko, Kn, Ks.
  set (n := Z.to_nat (num_objects s1)) in *.
  assert (Hn1 : (0 < n)%nat) by lia.
  split; [|split; [|split; [|split; [|split]]]]; try reflexivity.
  - destruct (object_sizes s1); simpl in *; [lia | reflexivity].
  - by rewrite offsets_from_length.
  - intros i off Hi Hlt. rewrite offsets_from_length in Hlt.
    by apply offsets_from_step.
  - intros base s.
    unfold build_offsets, fold_range, bind, gets, modify, ret, try_or.
    simpl. replace (base + 10 + 20) with (base + 30) by lia. reflexivity.
Qed.

(** C9 on [Sample.two_meshes], a run that returns, and on its first 150
    bytes, a run that raises in the Stream Patcher. *)
Lemma object_offsets_witness :
  object_offsets (final (parse_and_fix (NifParser_init Sample.two_meshes)))
  = offsets_from 106 [31; 31; 35] /\
  object_offsets
    (final (parse_and_fix (NifParser_init (take 150 Sample.two_meshes))))
  = offsets_from 106 [31; 31; 35] /\
  (exists s, parse_and_fix (NifParser_init (take 150 Sample.two_meshes))
             = Raise StructError s).
Proof.
  split; [|split].
  - set (s1 := final (parse_steps (NifParser_init Sample.two_meshes))).
    assert (E1 : parse_steps (NifParser_init Sample.two_meshes) = Ret true s1)
      by (vm_compute; reflexivity).
    assert (Hne : object_sizes s1 <> []) by (vm_compute; discriminate).
    destruct (object_offsets_accumulate _ _ E1 Hne) as (_ & _ & _ & _ & H & _).
    rewrite H. vm_compute. reflexivity.
  - set (s1 := final (parse_steps (NifParser_init (take 150 Sample.two_meshes)))).
    assert (E1 : parse_steps (NifParser_init (take 150 Sample.two_meshes))
                 = Ret true s1)
      by (vm_compute; reflexivity).
    assert (Hne : object_sizes s1 <> []) by (vm_compute; discriminate).
    destruct (object_offsets_accumulate _ _ E1 Hne) as (_ & _ & _ & _ & H & _).
    rewrite H. vm_compute. reflexivity.
  - eexists. vm_compute. reflexivity.
Defined.

(** ** The calls of the Stream Patcher (lines 331-342 and 278) *)

Ltac setter_ok ::=
  solve [ apply cursor_ok | apply file_ver_ok | apply user_ver_ok
        | apply num_objects_ok | apply type_names_ok | apply object_types_ok
        | apply object_sizes_ok | apply string_table_ok
        | apply is_little_endian_ok | apply user_ver_2_ok
        | apply object_offsets_ok | apply mesh_print_ok | apply modified_ok
        | apply print_ok; reflexivity
        | apply table_print_ok; reflexivity ].

Section TableLines.
Context (R : relation NifParser) `{!PreOrder R} `{!CursorOK R}
        `{!HeaderOK R} `{!TablesOK R} `{!OffsetsOK R} `{!TablePrintOK R}.

Lemma parse_header_lines : follows R parse_header.
Proof. intros s. unfold parse_header. follow. Qed.

Lemma parse_metadata_lines : follows R parse_metadata.
Proof. intros s. unfold parse_metadata. follow. Qed.

Lemma parse_type_names_and_indices_lines :
  follows R parse_type_names_and_indices.
Proof. intros s. unfold parse_type_names_and_indices. follow. Qed.

Lemma parse_object_sizes_lines : follows R parse_object_sizes.
Proof. intros s. unfold parse_object_sizes. follow. Qed.

Lemma parse_string_table_lines : follows R parse_string_table.
Proof. intros s. unfold parse_string_table. follow. Qed.

Lemma parse_object_groups_lines : follows R parse_object_groups.
Proof. intros s. unfold parse_object_groups. follow. Qed.

Hint Resolve parse_header_lines parse_metadata_lines
  parse_type_names_and_indices_lines parse_object_sizes_lines
  parse_string_table_lines parse_object_groups_lines : follow.

Lemma parse_steps_lines : follows R parse_steps.
Proof. intros s. unfold parse_steps. follow. Qed.

Lemma build_offsets_lines : follows R build_offsets.
Proof. intros s. unfold build_offsets. follow. Qed.

Lemma count_types_lines : follows R count_types.
Proof. intros s. unfold count_types. follow. Qed.
End TableLines.

Lemma patched_ids_app a b :
  patched_ids (a ++ b) = patched_ids a ++ patched_ids b.
Proof.
  induction a as [|l a IH]; simpl; [reflexivity|].
  destruct l; simpl; rewrite ?IH; reflexivity.
Qed.

#[export] Instance grows_preorder : PreOrder grows.
Proof.
  split.
  - intros s. exists []. by rewrite app_nil_r.
  - intros s1 s2 s3 [l1 H1] [l2 H2]. exists (l1 ++ l2).
    by rewrite H2, H1, app_assoc.
Qed.

Ltac grows_ok :=
  split; intros; unfold grows;
  first [ eexists; simpl; reflexivity
        | exists []; simpl; by rewrite app_nil_r ].

#[export] Instance grows_cursor : CursorOK grows.
Proof. grows_ok. Qed.
#[export] Instance grows_header : HeaderOK grows.
Proof. grows_ok. Qed.
#[export] Instance grows_tables : TablesOK grows.
Proof. grows_ok. Qed.
#[export] Instance grows_offsets : OffsetsOK grows.
Proof. grows_ok. Qed.
#[export] Instance grows_print : PrintOK grows.
Proof. grows_ok. Qed.
#[export] Instance grows_mesh_print : MeshPrintOK grows.
Proof. grows_ok. Qed.
#[export] Instance grows_patch : PatchOK grows.
Proof. grows_ok. Qed.

#[export] Instance stdout_cursor : CursorOK (keeps stdout).
Proof. by split. Qed.
#[export] Instance stdout_patch : PatchOK (keeps stdout).
Proof. by split. Qed.

Lemma grows_ids s s' x : grows s s' -> x ∈ ids_view s -> x ∈ ids_view s'.
Proof.
  intros [l H] Hx. unfold ids_view. rewrite H, patched_ids_app.
  apply elem_of_app. by left.
Qed.

(** what the patcher prints: its line 278 with the id it was given, and
    then at most line 317; nothing when a read of the header raises *)
Lemma patcher_stdout sid s :
  wp (fix_datastream_winding sid)
     (fun _ s' =>
        exists sz n w tl,
          stdout s' = stdout s ++ PStream sid sz n w :: tl /\
          (tl = [] \/ exists t, tl = [PReversed t]))
     (fun _ s' =>
        stdout s' = stdout s \/
        exists sz n w, stdout s' = stdout s ++ [PStream sid sz n w]) s.
Proof.
  assert (Hread : forall s1, stdout s1 = stdout s ->
            forall (Q : Z -> NifParser -> Prop) E,
              (forall v s2, stdout s2 = stdout s -> Q v s2) ->
              (forall e s2, stdout s2 = stdout s -> E e s2) ->
              wp read_uint Q E s1).
  { intros s1 H1 Q E HQ HE.
    eapply wp_mono;
      [apply (keeps_wp stdout), read_uint_follow; apply _
      | cbv beta; intros v s2 H2; apply HQ; congruence
      | cbv beta; intros e s2 H2; apply HE; congruence]. }
  unfold fix_datastream_winding. wp_step. wp_step; [|by left]. wp_step.
  set (s1 := set_pos a s).
  assert (H1 : stdout s1 = stdout s) by reflexivity. clearbody s1.
  apply wp_bind, Hread; [exact H1 | | by left]. clear s1 H1.
  intros stream_size s1 H1.
  apply wp_bind, Hread; [exact H1 | | by left]. clear s1 H1.
  intros stream_clone s1 H1.
  apply wp_bind, Hread; [exact H1 | | by left]. clear s1 H1.
  intros num_regions s1 H1.
  apply wp_bind.
  eapply wp_mono;
    [apply (keeps_wp stdout); intros s'; tail | cbv beta | cbv beta].
  2: { intros e s2 H2. left. congruence. }
  intros regions s2 H2. rewrite H1 in H2. clear s1 H1.
  apply wp_bind, Hread; [exact H2 | | by left]. clear s2 H2.
  intros num_elements s1 H1.
  apply wp_bind.
  eapply wp_mono;
    [apply (keeps_wp stdout); intros s'; tail | cbv beta | cbv beta].
  2: { intros e s2 H2. left. congruence. }
  intros [index_size elem_stride] s2 H2. rewrite H1 in H2. clear s1 H1.
  wp_step. wp_step.
  apply wp_bind.
  eapply wp_mono;
    [apply (keeps_wp stdout), patch_regions_follow; apply _
    | cbv beta | cbv beta].
  2: { intros e s3 H3. right. simpl in H3. rewrite H3, H2. eauto. }
  intros total s3 H3. simpl in H3. rewrite H2 in H3.
  wp_step.
  - wp_step. wp_step. simpl. rewrite H3, <- app_assoc. simpl.
    eexists _, _, _, _. split; [reflexivity|]. right. eauto.
  - wp_step. rewrite H3. eexists _, _, _, _. split; [reflexivity|]. by left.
Qed.

Lemma patcher_ids sid s :
  wp (fix_datastream_winding sid)
     (fun _ s' => ids_view s' = ids_view s ++ [sid] /\
                  calls_view s' = calls_view s)
     (fun _ s' => (ids_view s' = ids_view s \/
                   ids_view s' = ids_view s ++ [sid]) /\
                  calls_view s' = calls_view s) s.
Proof.
  eapply wp_mono;
    [apply wp_conj;
     [apply patcher_stdout
     |apply (keeps_wp calls_view), fix_datastream_winding_follow; apply _]
    | cbv beta | cbv beta].
  - intros _ s' [(sz & n & w & tl & H & Htl) Hc]. split; [|exact Hc].
    unfold ids_view. rewrite H, patched_ids_app. simpl.
    destruct Htl as [->|[t ->]]; reflexivity.
  - intros _ s' [H Hc]. split; [|exact Hc]. unfold ids_view.
    destruct H as [H|(sz & n & w & H)]; rewrite H; [by left|].
    right. by rewrite patched_ids_app.
Qed.

Lemma raised_of_agree processed s : patched_agree processed s -> raised_in_call s.
Proof. intros [H1 [_ H2]]. split; [exact H2 | by left]. Qed.

Lemma process_streams_ids i streams : forall processed s,
  patched_agree processed s ->
  wp (process_streams i streams processed)
     (fun processed' s' =>
        patched_agree processed' s' /\
        processed' = processed ∪ list_to_set streams.*1)
     (fun _ s' => raised_in_call s') s.
Proof.
  induction streams as [|[sid e] rest IH]; intros processed s Ha;
    cbn [process_streams].
  - wp_step. split; [exact Ha|]. simpl. set_solver.
  - destruct (decide (sid ∈ processed)) as [Hin|Hnew].
    + eapply wp_mono; [by apply IH | cbv beta | cbv beta; auto].
      intros p' s' [H1 ->]. split; [exact H1|]. simpl. set_solver.
    + wp_step.
      set (s1 := set_stdout (stdout s ++ [PMeshStream i sid]) s).
      assert (Hc1 : calls_view s1 = calls_view s ++ [sid])
        by apply calls_after_mesh_line.
      assert (Hi1 : ids_view s1 = ids_view s).
      { unfold ids_view, s1. simpl. rewrite patched_ids_app. simpl.
        apply app_nil_r. }
      assert (Hnd : NoDup (calls_view s ++ [sid])).
      { destruct Ha as [_ [Hset Hnd]].
        apply NoDup_app. repeat split; [exact Hnd | | apply NoDup_singleton].
        intros y Hy ->%list_elem_of_singleton. apply Hnew, Hset, Hy. }
      clearbody s1.
      wp_call patcher_ids.
      * intros _ s2 [Hi2 Hc2].
        eapply wp_mono; [apply IH | cbv beta | cbv beta; auto].
        -- destruct Ha as [Hic [Hset _]].
           split; [congruence|]. split; [|congruence].
           intros y. rewrite Hc2, Hc1.
           rewrite elem_of_app, elem_of_union, Hset, elem_of_singleton,
             list_elem_of_singleton. tauto.
        -- intros p' s' [H1 ->]. split; [exact H1|]. simpl. set_solver.
      * intros _ s2 [Hi2 Hc2]. destruct Ha as [Hic _].
        split; [congruence|].
        destruct Hi2 as [Hi2|Hi2].
        -- right. exists sid. congruence.
        -- left. congruence.
Qed.

Lemma process_object_ids idx i processed s :
  patched_agree processed s ->
  wp (process_object idx i processed)
     (fun processed' s' =>
        patched_agree processed' s' /\ processed ⊆ processed' /\
        forall ty streams,
          py_index (object_types s) i = Some ty -> ty = s_NiMesh ->
          find_index_streams_in_mesh i idx s = Ret streams s ->
          processed' = processed ∪ list_to_set streams.*1)
     (fun _ s' => raised_in_call s') s.
Proof.
  intros Ha. unfold process_object. wp_step.
  destruct (py_index (object_types s) i) as [ty0|] eqn:Hty;
    [apply wp_try_Some | apply wp_try_None; by eapply raised_of_agree].
  wp_step.
  { wp_step. split; [exact Ha|]. split; [done|].
    intros ty streams [= <-] ->.
    by rewrite (proj2 (bytes_eqb_eq _ _)) in Heqb. }
  apply wp_bind. unfold wp at 1.
  pose proof (locator_wp i idx s) as Hl. unfold wp in Hl.
  destruct (find_index_streams_in_mesh i idx s) as [streams s1|e s1] eqn:El.
  2: { subst s1. by eapply raised_of_agree. }
  destruct Hl as [-> _].
  eapply wp_mono; [by apply process_streams_ids | cbv beta | cbv beta; auto].
  intros p' s' [H1 ->]. split; [exact H1|]. split; [set_solver|].
  intros ty streams' _ _ [= <-]. reflexivity.
Qed.

Lemma fold_range_from_app {A} (body : Z -> A -> M A) (k m : nat) : forall i a s,
  fold_range_from i (k + m) body a s
  = bind (fold_range_from i k body a)
         (fun a' => fold_range_from (i + Z.of_nat k) m body a') s.
Proof.
  induction k as [|k IH]; intros i a s.
  - simpl. unfold bind, ret. by rewrite Z.add_0_r.
  - cbn [Nat.add fold_range_from]. unfold bind.
    destruct (body i a s) as [a' s'|e s']; [|reflexivity].
    rewrite IH. unfold bind.
    replace (i + 1 + Z.of_nat k) with (i + Z.of_nat (S k)) by lia.
    reflexivity.
Qed.

Lemma mesh_loop_ids idx n : forall i processed s,
  patched_agree processed s ->
  wp (fold_range_from i n (process_object idx) processed)
     (fun processed' s' => patched_agree processed' s' /\ processed ⊆ processed')
     (fun _ s' => raised_in_call s') s.
Proof.
  induction n as [|n IH]; intros i processed s Ha; cbn [fold_range_from].
  - wp_step. by split.
  - wp_call process_object_ids; [exact Ha | | auto].
    intros p1 s1 (H1 & Hsub & _).
    eapply wp_mono; [by apply IH | cbv beta | cbv beta; auto].
    intros p2 s2 [H2 Hsub2]. split; [exact H2 | set_solver].
Qed.

Lemma process_all_meshes_ids s :
  ids_view s = [] -> calls_view s = [] ->
  wp process_all_meshes
     (fun _ s' => ids_view s' = calls_view s' /\ NoDup (calls_view s'))
     (fun _ s' => raised_in_call s') s.
Proof.
  intros Hi Hc. unfold process_all_meshes. wp_step.
  destruct (list_index (string_table s) s_INDEX 0) as [idx|].
  2: { wp_step. unfold ids_view, calls_view. simpl.
       rewrite patched_ids_app, patcher_calls_app. simpl.
       rewrite !app_nil_r. fold (ids_view s) (calls_view s).
       rewrite Hi, Hc. split; [reflexivity | constructor]. }
  wp_step. wp_step. unfold fold_range. apply wp_bind.
  eapply wp_mono; [apply mesh_loop_ids | cbv beta | cbv beta; auto].
  - unfold patched_agree, calls_agree, ids_view, calls_view. simpl.
    rewrite patched_ids_app, patcher_calls_app. simpl. rewrite !app_nil_r.
    fold (ids_view s) (calls_view s). rewrite Hi, Hc.
    split; [reflexivity|]. split; [set_solver | constructor].
  - intros p s' [[H1 [_ H2]] _]. wp_step.
    unfold ids_view, calls_view in *. simpl.
    rewrite patched_ids_app, patcher_calls_app. simpl. rewrite !app_nil_r.
    by split.
Qed.

Ltac ids_ok :=
  split; intros; unfold keeps, ids_view; simpl;
  rewrite ?patched_ids_app; simpl; rewrite ?app_nil_r;
  try reflexivity.

#[export] Instance ids_cursor : CursorOK (keeps ids_view).
Proof. ids_ok. Qed.
#[export] Instance ids_header : HeaderOK (keeps ids_view).
Proof. ids_ok. Qed.
#[export] Instance ids_tables : TablesOK (keeps ids_view).
Proof. ids_ok. Qed.
#[export] Instance ids_offsets : OffsetsOK (keeps ids_view).
Proof. ids_ok. Qed.
#[export] Instance ids_table_print : TablePrintOK (keeps ids_view).
Proof. ids_ok. destruct l; try discriminate; simpl; apply app_nil_r. Qed.

(** the state in which a run reaches the loop over the meshes *)
Lemma run_reaches_meshes input s3 :
  (exists s1 s2, parse_steps (NifParser_init input) = Ret true s1 /\
                 build_offsets s1 = Ret tt s2 /\ count_types s2 = Ret tt s3) ->
  ids_view s3 = [] /\ calls_view s3 = [].
Proof.
  intros (s1 & s2 & E1 & E2 & E3).
  pose proof (parse_steps_lines (keeps ids_view) (NifParser_init input)) as I1.
  pose proof (build_offsets_lines (keeps ids_view) s1) as I2.
  pose proof (count_types_lines (keeps ids_view) s2) as I3.
  rewrite E1 in I1. rewrite E2 in I2. rewrite E3 in I3.
  kept calls_view E1. kept calls_view E2. kept calls_view E3.
  unfold keeps in *. simpl in *.
  change (ids_view (NifParser_init input)) with (@nil Z) in I1.
  change (calls_view (NifParser_init input)) with (@nil Z) in K.
  split; congruence.
Qed.

(** a whole run: the calls and the lines of the patcher *)
Lemma run_ids input :
  wp parse_and_fix
     (fun _ s' => ids_view s' = calls_view s' /\ NoDup (calls_view s'))
     (fun _ s' => raised_in_call s') (NifParser_init input).
Proof.
  set (s0 := NifParser_init input).
  assert (Hnone : forall s : NifParser,
            ids_view s = ids_view s0 -> calls_view s = calls_view s0 ->
            ids_view s = calls_view s /\ NoDup (calls_view s)).
  { intros s -> ->. split; [reflexivity | constructor]. }
  assert (Hraise : forall s : NifParser,
            ids_view s = ids_view s0 -> calls_view s = calls_view s0 ->
            raised_in_call s).
  { intros s Hi Hc. destruct (Hnone s Hi Hc). split; [done | by left]. }
  unfold wp. rewrite parse_and_fix_unfold.
  pose proof (parse_steps_lines (keeps ids_view) s0) as I1.
  destruct (parse_steps s0) as [ok s1|e s1] eqn:E1; kept calls_view E1;
    unfold keeps in I1; simpl in I1; [|by apply Hraise].
  destruct ok; [|by apply Hnone].
  pose proof (build_offsets_lines (keeps ids_view) s1) as I2.
  destruct (build_offsets s1) as [[] s2|e s2] eqn:E2; kept calls_view E2;
    unfold keeps in I2; simpl in I2;
    [|apply Hraise; [by rewrite I2 | by rewrite K0]].
  pose proof (count_types_lines (keeps ids_view) s2) as I3.
  destruct (count_types s2) as [[] s3|e s3] eqn:E3; kept calls_view E3;
    unfold keeps in I3; simpl in I3;
    [|apply Hraise; [by rewrite I3, I2 | by rewrite K1, K0]].
  pose proof (process_all_meshes_ids s3) as W. unfold wp in W.
  destruct (process_all_meshes s3) as [[] s4|e s4]; apply W;
    first [by rewrite I3, I2, I1 | by rewrite K1, K0, K].
Qed.

Lemma process_streams_reach i streams : forall processed s,
  all_patched processed s ->
  wp (process_streams i streams processed)
     (fun p' s' => all_patched p' s' /\ processed ⊆ p' /\
                   forall sid, sid ∈ streams.*1 -> sid ∈ p')
     (fun _ _ => True) s.
Proof.
  induction streams as [|[sid e] rest IH]; intros processed s Ha;
    cbn [process_streams].
  - wp_step. split; [exact Ha|]. split; [done|].
    intros sid H. by apply elem_of_nil in H.
  - destruct (decide (sid ∈ processed)) as [Hin|Hnew].
    + eapply wp_mono; [by apply IH | cbv beta | done].
      intros p' s' (H1 & Hsub & Hall). split; [exact H1|]. split; [exact Hsub|].
      intros x [->|Hx]%elem_of_cons; [by apply Hsub | by apply Hall].
    + wp_step.
      set (s1 := set_stdout (stdout s ++ [PMeshStream i sid]) s).
      assert (Hi1 : ids_view s1 = ids_view s).
      { unfold ids_view, s1. simpl. rewrite patched_ids_app. simpl.
        apply app_nil_r. }
      clearbody s1.
      wp_call patcher_ids; [|done].
      intros _ s2 [Hi2 _].
      eapply wp_mono; [apply IH | cbv beta | done].
      * intros x [Hx|Hx%elem_of_singleton]%elem_of_union.
        -- rewrite Hi2, Hi1. apply elem_of_app. left. by apply Ha.
        -- subst x. rewrite Hi2. apply elem_of_app. right.
           by apply list_elem_of_singleton.
      * intros p' s' (H1 & Hsub & Hall). split; [exact H1|].
        split; [intros x Hx; apply Hsub, elem_of_union; by left|].
        intros x [->|Hx]%elem_of_cons; [|by apply Hall].
        apply Hsub, elem_of_union. right. by apply elem_of_singleton.
Qed.

Lemma process_object_reach idx i processed s :
  all_patched processed s ->
  wp (process_object idx i processed)
     (fun p' s' =>
        all_patched p' s' /\ processed ⊆ p' /\
        forall streams,
          py_index (object_types s) i = Some s_NiMesh ->
          find_index_streams_in_mesh i idx s = Ret streams s ->
          forall sid, sid ∈ streams.*1 -> sid ∈ p')
     (fun _ _ => True) s.
Proof.
  intros Ha. unfold process_object. wp_step.
  destruct (py_index (object_types s) i) as [ty0|] eqn:Hty;
    [apply wp_try_Some | by apply wp_try_None].
  wp_step.
  { wp_step. split; [exact Ha|]. split; [done|].
    intros streams [= ->]. discriminate Heqb. }
  apply wp_bind. unfold wp at 1.
  pose proof (locator_wp i idx s) as Hl. unfold wp in Hl.
  destruct (find_index_streams_in_mesh i idx s) as [streams s1|e s1] eqn:El;
    [|done].
  destruct Hl as [-> _].
  eapply wp_mono; [by apply process_streams_reach | cbv beta | done].
  intros p' s' (H1 & Hsub & Hall). split; [exact H1|]. split; [exact Hsub|].
  intros streams' _ [= <-]. exact Hall.
Qed.

Lemma mesh_loop_patched idx n : forall i processed s,
  all_patched processed s ->
  wp (fold_range_from i n (process_object idx) processed)
     (fun p' s' => all_patched p' s') (fun _ _ => True) s.
Proof.
  induction n as [|n IH]; intros i processed s Ha; cbn [fold_range_from].
  - by wp_step.
  - wp_call process_object_reach; [exact Ha | | done].
    intros p1 s1 (H1 & _). by apply IH.
Qed.

(** what the loop over the meshes has patched stays patched *)
Lemma mesh_loop_grows idx n i processed s :
  grows s (final (fold_range_from i n (process_object idx) processed s)).
Proof.
  apply (follow_fold_from grows). intros j a s'.
  apply (process_object_follow grows).
Qed.

(** every stream found in a mesh that the loop reaches is patched by the
    end of the loop *)
Lemma mesh_loop_reaches idx (n i : nat) s processed si pn sn streams :
  (i < n)%nat ->
  fold_range_from 0 i (process_object idx) ∅ s = Ret processed si ->
  fold_range_from 0 n (process_object idx) ∅ s = Ret pn sn ->
  py_index (object_types si) (Z.of_nat i) = Some s_NiMesh ->
  find_index_streams_in_mesh (Z.of_nat i) idx si = Ret streams si ->
  forall sid, sid ∈ streams.*1 -> sid ∈ ids_view sn.
Proof.
  intros Hi Ei En Hty El sid Hsid.
  replace n with (i + S (n - S i))%nat in En by lia.
  rewrite fold_range_from_app, (bind_Ret _ _ _ _ _ Ei) in En.
  cbn [fold_range_from] in En. rewrite Z.add_0_l in En.
  assert (Ha : all_patched processed si).
  { pose proof (mesh_loop_patched idx i 0 ∅ s) as W. unfold wp in W.
    rewrite Ei in W. apply W. intros x Hx. by apply elem_of_empty in Hx. }
  pose proof (process_object_reach idx (Z.of_nat i) processed si Ha) as W.
  unfold wp in W.
  destruct (process_object idx (Z.of_nat i) processed si) as [p1 s1|e s1] eqn:Eo.
  2: { rewrite (bind_Raise _ _ _ _ _ Eo) in En. discriminate En. }
  rewrite (bind_Ret _ _ _ _ _ Eo) in En.
  destruct W as (H1 & _ & Hall).
  pose proof (mesh_loop_grows idx (n - S i) (Z.of_nat i + 1) p1 s1) as Hg.
  rewrite En in Hg. simpl in Hg.
  eapply grows_ids; [exact Hg|]. apply H1. by eapply Hall.
Qed.

Lemma process_all_meshes_reaches s idx u s' (i : nat) processed si streams :
  list_index (string_table s) s_INDEX 0 = Some idx ->
  process_all_meshes s = Ret u s' ->
  Z.of_nat i < num_objects s ->
  mesh_loop_at idx i s = Ret processed si ->
  py_index (object_types si) (Z.of_nat i) = Some s_NiMesh ->
  find_index_streams_in_mesh (Z.of_nat i) idx si = Ret streams si ->
  forall sid, sid ∈ streams.*1 -> sid ∈ patched_ids (stdout s').
Proof.
  intros Hidx E Hi Ei Hty El sid Hsid.
  unfold process_all_meshes in E. rewrite bind_gets, Hidx in E.
  unfold print at 1 in E. unfold bind at 1 in E. unfold modify at 1 in E.
  rewrite bind_gets in E. unfold fold_range in E.
  set (s1 := set_stdout (stdout s ++ [PIndexAt idx]) s) in *.
  change (num_objects s1) with (num_objects s) in E.
  destruct (fold_range_from 0 (Z.to_nat (num_objects s)) (process_object idx)
              ∅ s1) as [pn sn|e sn] eqn:En.
  2: { rewrite (bind_Raise _ _ _ _ _ En) in E. discriminate E. }
  rewrite (bind_Ret _ _ _ _ _ En) in E.
  injection E as _ <-. simpl. rewrite patched_ids_app. simpl.
  rewrite app_nil_r.
  eapply (mesh_loop_reaches idx (Z.to_nat (num_objects s)) i s1);
    try eassumption. lia.
Qed.

(** line 341 and line 342: the id that is printed is the id that the patcher
    receives *)
Lemma process_streams_first i sid e rest processed s :
  sid ∉ processed ->
  match process_streams i ((sid, e) :: rest) processed s with
  | Ret _ s' =>
      exists l l',
        calls_view s' = calls_view s ++ sid :: l /\
        ids_view s' = ids_view s ++ sid :: l'
  | Raise _ s' =>
      exists l,
        calls_view s' = calls_view s ++ sid :: l /\
        (ids_view s' = ids_view s \/
         exists l', ids_view s' = ids_view s ++ sid :: l')
  end.
Proof.
  intros Hnew. cbn [process_streams].
  destruct (decide (sid ∈ processed)) as [Hin|_]; [done|].
  unfold print at 1. unfold bind at 1. unfold modify at 1.
  set (s1 := set_stdout (stdout s ++ [PMeshStream i sid]) s).
  assert (Hc1 : calls_view s1 = calls_view s ++ [sid])
    by apply calls_after_mesh_line.
  assert (Hi1 : ids_view s1 = ids_view s).
  { unfold ids_view, s1. simpl. rewrite patched_ids_app. simpl.
    apply app_nil_r. }
  clearbody s1.
  pose proof (patcher_ids sid s1) as W. unfold wp in W.
  destruct (fix_datastream_winding sid s1) as [[] s2|x s2] eqn:Ep.
  - rewrite (bind_Ret _ _ _ _ _ Ep). destruct W as [Hi2 Hc2].
    pose proof (process_streams_follow grows i rest (processed ∪ {[sid]}) s2)
      as [l Hg].
    assert (Hc : calls_view (final (process_streams i rest
                                      (processed ∪ {[sid]}) s2))
                 = calls_view s ++ sid :: patcher_calls l).
    { unfold calls_view at 1. rewrite Hg, patcher_calls_app.
      fold (calls_view s2). rewrite Hc2, Hc1, <- app_assoc. reflexivity. }
    assert (Hi : ids_view (final (process_streams i rest
                                      (processed ∪ {[sid]}) s2))
                 = ids_view s ++ sid :: patched_ids l).
    { unfold ids_view at 1. rewrite Hg, patched_ids_app.
      fold (ids_view s2). rewrite Hi2, Hi1, <- app_assoc. reflexivity. }
    destruct (process_streams i rest (processed ∪ {[sid]}) s2);
      simpl in Hc, Hi; eauto 6.
  - rewrite (bind_Raise _ _ _ _ _ Ep). destruct W as [Hi2 Hc2].
    exists []. split; [congruence|].
    destruct Hi2 as [Hi2|Hi2]; [left; congruence|].
    right. exists []. congruence.
Qed.



(** X10. Lines 331-342 with 212-223 and 278: in a run on any buffer, every
    id that is passed to the Stream Patcher is the id of an object of the
    file whose type name starts with "NiDataStream".  This holds of the ids
    printed at line 341 before the calls and of the ids that the patcher
    prints itself at line 278 from its argument; the two lists are the same,
    except that the last call has no line of its own when the run raises in
    it before line 278. *)
Theorem patcher_called_on_streams input :
  let sf := final (parse_and_fix (NifParser_init input)) in
  Forall (is_stream_id sf) (patcher_calls (stdout sf)) /\
  Forall (is_stream_id sf) (patched_ids (stdout sf)) /\
  (patched_ids (stdout sf) = patcher_calls (stdout sf) \/
   exists sid e,
     patcher_calls (stdout sf) = patched_ids (stdout sf) ++ [sid] /\
     parse_and_fix (NifParser_init input) = Raise e sf).
Proof.
  intros sf. pose proof (run_calls_are_streams input) as Hc. fold sf in Hc.
  assert (H : patched_ids (stdout sf) = patcher_calls (stdout sf) \/
              exists sid e,
                patcher_calls (stdout sf) = patched_ids (stdout sf) ++ [sid] /\
                parse_and_fix (NifParser_init input) = Raise e sf).
  { pose proof (run_ids input) as W. unfold wp in W. unfold sf.
    destruct (parse_and_fix (NifParser_init input)) as [b s|e s]; simpl.
    - left. apply W.
    - destruct W as [_ [Hi|[sid Hi]]]; [by left|].
      right. by exists sid, e. }
  split; [exact Hc|]. split; [|exact H].
  destruct H as [->|(sid & e & Hi & _)]; [exact Hc|].
  rewrite Hi in Hc. by apply Forall_app in Hc as [Hc _].
Qed.

(** ** Nothing catches an exception *)

Lemma parse_steps_unfold s :
  parse_steps s =
  match parse_header s with
  | Raise e s1 => Raise e s1
  | Ret false s1 => Ret false s1
  | Ret true s1 =>
  match parse_metadata s1 with
  | Raise e s2 => Raise e s2
  | Ret false s2 => Ret false s2
  | Ret true s2 =>
  match (if nif_version 5 0 0 1 <=? file_ver s2
         then parse_type_names_and_indices s2 else Ret true s2) with
  | Raise e s3 => Raise e s3
  | Ret false s3 => Ret false s3
  | Ret true s3 =>
  match parse_object_sizes s3 with
  | Raise e s4 => Raise e s4
  | Ret false s4 => Ret false s4
  | Ret true s4 =>
  match parse_string_table s4 with
  | Raise e s5 => Raise e s5
  | Ret false s5 => Ret false s5
  | Ret true s5 =>
  match parse_object_groups s5 with
  | Raise e s6 => Raise e s6
  | Ret ok s6 => Ret ok s6
  end end end end end end.
Proof.
  unfold parse_steps, bind.
  destruct (parse_header s) as [[] s1|]; simpl; [|reflexivity..].
  destruct (parse_metadata s1) as [[] s2|]; simpl; [|reflexivity..].
  destruct (nif_version 5 0 0 1 <=? file_ver s2).
  - destruct (parse_type_names_and_indices s2) as [[] s3|]; simpl;
      [|reflexivity..].
    destruct (parse_object_sizes s3) as [[] s4|]; simpl; [|reflexivity..].
    destruct (parse_string_table s4) as [[] s5|]; simpl; [|reflexivity..].
    destruct (parse_object_groups s5) as [[] s6|]; reflexivity.
  - simpl.
    destruct (parse_object_sizes s2) as [[] s4|]; simpl; [|reflexivity..].
    destruct (parse_string_table s4) as [[] s5|]; simpl; [|reflexivity..].
    destruct (parse_object_groups s5) as [[] s6|]; reflexivity.
Qed.

(** the steps after the header return True or raise *)
Lemma wp_true {A} (m : M A) s : wp m (fun _ _ => True) (fun _ _ => True) s.
Proof. unfold wp. by destruct (m s). Qed.

Ltac true_run :=
  repeat first
    [ wp_step
    | apply wp_bind; eapply wp_mono;
      [apply wp_true | cbv beta; intros ? ? _ | done] ];
  try done.

Lemma parse_metadata_true s :
  wp parse_metadata (fun ok _ => ok = true) (fun _ _ => True) s.
Proof. unfold parse_metadata. true_run. Qed.

Lemma parse_type_names_and_indices_true s :
  wp parse_type_names_and_indices (fun ok _ => ok = true) (fun _ _ => True) s.
Proof. unfold parse_type_names_and_indices. true_run. Qed.

Lemma parse_object_sizes_true s :
  wp parse_object_sizes (fun ok _ => ok = true) (fun _ _ => True) s.
Proof. unfold parse_object_sizes. true_run. Qed.

Lemma parse_string_table_true s :
  wp parse_string_table (fun ok _ => ok = true) (fun _ _ => True) s.
Proof. unfold parse_string_table. true_run. Qed.

Lemma parse_object_groups_true s :
  wp parse_object_groups (fun ok _ => ok = true) (fun _ _ => True) s.
Proof. unfold parse_object_groups. true_run. Qed.

(** only the header makes the parse steps return False *)
Lemma parse_steps_false s s' :
  parse_steps s = Ret false s' -> parse_header s = Ret false s'.
Proof.
  rewrite parse_steps_unfold.
  destruct (parse_header s) as [[] s1|]; [|done..].
  pose proof (parse_metadata_true s1) as W2. unfold wp in W2.
  destruct (parse_metadata s1) as [[] s2|]; [|done..].
  assert (W3 : match (if nif_version 5 0 0 1 <=? file_ver s2
                      then parse_type_names_and_indices s2 else Ret true s2)
               with Ret ok _ => ok = true | Raise _ _ => True end).
  { destruct (_ <=? _); [apply parse_type_names_and_indices_true | done]. }
  destruct (if nif_version 5 0 0 1 <=? file_ver s2
            then parse_type_names_and_indices s2 else Ret true s2)
    as [[] s3|]; [|done..].
  pose proof (parse_object_sizes_true s3) as W4. unfold wp in W4.
  destruct (parse_object_sizes s3) as [[] s4|]; [|done..].
  pose proof (parse_string_table_true s4) as W5. unfold wp in W5.
  destruct (parse_string_table s4) as [[] s5|]; [|done..].
  pose proof (parse_object_groups_true s5) as W6. unfold wp in W6.
  destruct (parse_object_groups s5) as [[] s6|]; done.
Qed.

(** a loop passes on what its body raises *)
Lemma fold_range_from_raise {A} (body : Z -> A -> M A) (n k : nat)
    i a s a' s1 e s' :
  (k < n)%nat ->
  fold_range_from i k body a s = Ret a' s1 ->
  body (i + Z.of_nat k) a' s1 = Raise e s' ->
  fold_range_from i n body a s = Raise e s'.
Proof.
  intros Hk Ek Eb.
  replace n with (k + S (n - S k))%nat by lia.
  rewrite fold_range_from_app, (bind_Ret _ _ _ _ _ Ek).
  cbn [fold_range_from]. by rewrite (bind_Raise _ _ _ _ _ Eb).
Qed.

Lemma process_all_meshes_raise s idx (i : nat) processed si e s' :
  list_index (string_table s) s_INDEX 0 = Some idx ->
  Z.of_nat i < num_objects s ->
  mesh_loop_at idx i s = Ret processed si ->
  process_object idx (Z.of_nat i) processed si = Raise e s' ->
  process_all_meshes s = Raise e s'.
Proof.
  intros Hidx Hi Ei Eo.
  unfold process_all_meshes. rewrite bind_gets, Hidx.
  unfold print at 1. unfold bind at 1. unfold modify at 1.
  rewrite bind_gets. unfold fold_range.
  set (s1 := set_stdout (stdout s ++ [PIndexAt idx]) s) in *.
  change (num_objects s1) with (num_objects s).
  apply bind_Raise.
  eapply (fold_range_from_raise _ _ i); [lia | exact Ei |].
  by rewrite Z.add_0_l.
Qed.

Lemma process_object_unfold idx i processed s :
  process_object idx i processed s =
  match py_index (object_types s) i with
  | None => Raise IndexError s
  | Some ty =>
      if bytes_eqb ty s_NiMesh then
        match find_index_streams_in_mesh i idx s with
        | Raise e s' => Raise e s'
        | Ret streams s' => process_streams i streams processed s'
        end
      else Ret processed s
  end.
Proof.
  unfold process_object. rewrite bind_gets. unfold bind at 1.
  destruct (py_index (object_types s) i) as [ty|]; simpl; [|reflexivity].
  destruct (bytes_eqb ty s_NiMesh); simpl; [|reflexivity].
  unfold bind. by destruct (find_index_streams_in_mesh i idx s).
Qed.

Lemma process_streams_unfold i sid e rest processed s :
  process_streams i ((sid, e) :: rest) processed s =
  if decide (sid ∈ processed) then process_streams i rest processed s
  else
    match fix_datastream_winding sid
            (set_stdout (stdout s ++ [PMeshStream i sid]) s) with
    | Raise x s' => Raise x s'
    | Ret _ s' => process_streams i rest (processed ∪ {[sid]}) s'
    end.
Proof.
  cbn [process_streams]. destruct (decide (sid ∈ processed)); [reflexivity|].
  unfold print at 1. unfold bind at 1. unfold modify at 1.
  unfold bind. by destruct (fix_datastream_winding sid _).
Qed.

(** a record that ends before its number of regions *)
Lemma patcher_short_record sid s p0 :
  py_index (object_offsets s) sid = Some p0 -> 0 <= p0 ->
  Z.of_nat (length (data s)) < p0 + 12 ->
  exists s', fix_datastream_winding sid s = Raise StructError s' /\
             buffer_view s' = buffer_view s /\ stdout s' = stdout s.
Proof.
  intros Hp0 H0 Hlen.
  assert (Hread : forall p, p0 <= p -> Z.of_nat (length (data s)) < p + 4 ->
            read_uint (set_pos p s) = Raise StructError (set_pos p s)).
  { intros p Hp Hl. unfold read_uint, bind, gets. cbv beta iota.
    change (data (set_pos p s)) with (data s).
    change (pos (set_pos p s)) with p.
    rewrite (unpack1_past 4 (data s) p) by lia. reflexivity. }
  assert (Hok : forall p,
            Z.of_nat (length (data s)) >= p + 4 -> 0 <= p ->
            exists v, read_uint (set_pos p s) = Ret v (set_pos (p + 4) s)).
  { intros p Hl Hp.
    destruct (unpack1 4 (data s) p) as [v|] eqn:Eu.
    - exists v. pose proof (read_uint_at p s v Eu) as W. unfold wp in W.
      destruct (read_uint (set_pos p s)); [|done].
      by destruct W as [-> ->].
    - exfalso. unfold unpack1, unpack_from in Eu.
      rewrite struct_offset_nonneg in Eu by lia.
      destruct (le_fields 4 1 _) as [|x [|y l]] eqn:El; try discriminate Eu;
        cbn in El; discriminate El. }
  unfold fix_datastream_winding. rewrite bind_gets. unfold bind at 1.
  rewrite Hp0. cbn [try_or ret]. unfold bind at 1. unfold modify at 1.
  destruct (Z_lt_le_dec (Z.of_nat (length (data s))) (p0 + 4)) as [H1|H1].
  { exists (set_pos p0 s). by rewrite (bind_Raise _ _ _ _ _ (Hread p0 ltac:(lia) H1)). }
  destruct (Hok p0 ltac:(lia) H0) as [v1 E1]. rewrite (bind_Ret _ _ _ _ _ E1).
  destruct (Z_lt_le_dec (Z.of_nat (length (data s))) (p0 + 4 + 4)) as [H2|H2].
  { exists (set_pos (p0 + 4) s).
    by rewrite (bind_Raise _ _ _ _ _ (Hread (p0 + 4) ltac:(lia) H2)). }
  destruct (Hok (p0 + 4) ltac:(lia) ltac:(lia)) as [v2 E2].
  rewrite (bind_Ret _ _ _ _ _ E2).
  exists (set_pos (p0 + 4 + 4) s).
  by rewrite (bind_Raise _ _ _ _ _ (Hread (p0 + 4 + 4) ltac:(lia) ltac:(lia))).
Qed.

(** a buffer that ends inside the version number *)
Lemma parse_header_short line rest :
  x0a ∉ line ->
  existsb (fun b => 128 <=? byte_val b) line = false ->
  contains line s_Gamebryo = true ->
  (length rest < 4)%nat ->
  let input := line ++ x0a :: rest in
  parse_header (NifParser_init input)
  = Raise StructError
      (set_pos (Z.of_nat (length line) + 1)
         (set_stdout [PHeaderLine line] (NifParser_init input))).
Proof.
  intros Hnl Hascii Hg Hrest input.
  assert (Hfind : py_find input [x0a] 0 (Z.of_nat (length input))
                  = Z.of_nat (length line)).
  { rewrite py_find_whole. unfold input. rewrite find_from_first by done.
    lia. }
  assert (Hline : py_slice input 0 (Z.of_nat (length line)) = line)
    by apply py_slice_prefix.
  assert (Hne : (Z.of_nat (length line) =? -1) = false) by lia.
  unfold parse_header. rewrite bind_gets.
  change (data (NifParser_init input)) with input.
  rewrite Hfind, Hne, Hline, Hascii, Hg. cbn [negb].
  unfold print at 1. unfold bind at 1. unfold modify at 1.
  unfold bind at 1. unfold modify at 1.
  apply bind_Raise.
  unfold read_uint, bind, gets. cbv beta iota.
  rewrite (unpack1_past 4); [reflexivity | simpl; lia |].
  simpl. unfold input. rewrite length_app. simpl. lia.
Qed.

Lemma fix_all_first_raise files1 : forall f files2 n e,
  Forall (fun g => forall x, fix_nif_file g <> Uncaught x) files1 ->
  fix_nif_file f = Uncaught e ->
  fix_all (files1 ++ f :: files2) n = inl e.
Proof.
  induction files1 as [|g r IH]; intros f files2 n e Hall Hf.
  - simpl. by rewrite Hf.
  - apply Forall_cons in Hall as [Hg Hr]. cbn [app fix_all].
    destruct (fix_nif_file g) as [out| |x] eqn:Eg.
    + by rewrite (IH f files2 (n + 1) e Hr Hf).
    + by rewrite (IH f files2 n e Hr Hf).
    + by destruct (Hg x).
Qed.



(** ** The index width of a record, and what is patched with it *)

(** a read with the cursor at [p]: the value is the field at [p] and the
    cursor moves by 4, or the read raises and nothing moves *)
Lemma read_uint_move p s :
  wp read_uint
     (fun v s' => unpack1 4 (data s) p = Some v /\ s' = set_pos (p + 4) s)
     (fun _ s' => s' = set_pos p s) (set_pos p s).
Proof.
  unfold wp, read_uint, bind, gets, modify, ret, try_or. cbv beta iota.
  change (data (set_pos p s)) with (data s).
  change (pos (set_pos p s)) with p.
  by destruct (unpack1 4 (data s) p).
Qed.

(** lines 254-259: the loop over the regions reads 8 bytes a turn *)
Lemma regions_loop_cursor nr p s :
  0 <= nr ->
  wp (fold_range nr (fun _ regions =>
        base_idx <- read_uint ;;
        count <- read_uint ;;
        ret (regions ++ [(base_idx, count)])) [])
     (fun _ s' => s' = set_pos (p + 8 * nr) s)
     (fun _ s' => exists q, s' = set_pos q s) (set_pos p s).
Proof.
  intros Hnr. unfold fold_range.
  eapply wp_mono;
    [apply (wp_fold_from _ (fun i _ s' => s' = set_pos (p + 8 * i) s)
                         (fun _ s' => exists q, s' = set_pos q s))
    | cbv beta | cbv beta; auto].
  - intros i regions s1 ->.
    wp_call read_uint_move; [|intros _ s' ->; eauto].
    intros b s' [_ ->].
    wp_call read_uint_move; [|intros _ s' ->; eauto].
    intros c s' [_ ->]. wp_step. f_equal. lia.
  - f_equal. lia.
  - intros regions s' ->. f_equal. lia.
Qed.

(** lines 261-274: the first element format settles the index width *)
Lemma elem_loop_width ne p s w :
  (ne <= 0 /\ w = 2 \/
   0 < ne /\
   exists ed, unpack1 4 (data s) p = Some ed /\
              w = if (data_type ed =? 10) || (data_type ed =? 11)
                  then 4 else item_size ed) ->
  wp (fold_range ne elem_step (2, 0))
     (fun acc s' => acc.1 = w /\ exists q, s' = set_pos q s)
     (fun _ s' => exists q, s' = set_pos q s) (set_pos p s).
Proof.
  intros [[Hle ->]|(Hlt & ed & Hed0 & ->)]; unfold fold_range.
  { replace (Z.to_nat ne) with 0%nat by lia. cbn [fold_range_from].
    wp_step. split; [reflexivity | eauto]. }
  set (w := if (data_type ed =? 10) || (data_type ed =? 11)
            then 4 else item_size ed).
  eapply wp_mono;
    [apply (wp_fold_from elem_step
              (fun i acc s' =>
                 0 <= i /\ (i = 0 -> s' = set_pos p s) /\
                 (0 < i -> acc.1 = w) /\ exists q, s' = set_pos q s)
              (fun _ s' => exists q, s' = set_pos q s))
    | cbv beta | cbv beta; auto].
  - intros i [isz stride] s1 (Hi & H0 & Hpos & q & ->).
    unfold elem_step.
    wp_call read_uint_move; [|intros _ s' ->; eauto].
    intros ed' s' [Hed ->]. wp_step.
    split; [lia|]. split; [lia|]. split; [|eauto].
    intros _. cbn [fst].
    destruct (Z.eqb_spec i 0) as [->|Hne].
    + assert (q = p) by (specialize (H0 eq_refl); by injection H0).
      subst q. rewrite Hed in Hed0. by injection Hed0 as ->.
    + apply Hpos. lia.
  - split; [lia|]. split; [done|]. split; [lia | eauto].
  - intros [isz stride] s' (_ & H0 & Hpos & Hq). split; [|exact Hq].
    apply Hpos. lia.
Qed.

Lemma swaps_of_width_refl w s : swaps_of_width w s s.
Proof. exists []. by rewrite app_nil_r. Qed.

Lemma swaps_of_width_trans w s1 s2 s3 :
  swaps_of_width w s1 s2 -> swaps_of_width w s2 s3 -> swaps_of_width w s1 s3.
Proof.
  intros (n1 & H1 & F1 & O1) (n2 & H2 & F2 & O2). exists (n1 ++ n2).
  split; [by rewrite H2, H1, app_assoc|].
  split; [by apply Forall_app | congruence].
Qed.

Lemma swap_loop_width wn n : forall t ro s,
  wp (swap_loop wn n t ro)
     (fun _ s' => swaps_of_width (Z.of_nat wn) s s')
     (fun _ s' => swaps_of_width (Z.of_nat wn) s s') s.
Proof.
  induction n as [|n IH]; intros t ro s; cbn [swap_loop].
  - wp_step. apply swaps_of_width_refl.
  - cbv zeta. wp_step. wp_step; [wp_step; apply swaps_of_width_refl|].
    wp_step; [|apply swaps_of_width_refl].
    destruct a as [[a b] c].
    wp_step; [|apply swaps_of_width_refl].
    wp_step.
    eapply wp_mono; [apply IH | cbv beta | cbv beta];
      intros _ s' H; (eapply swaps_of_width_trans; [|exact H]);
      exists [(ro + t * (3 * Z.of_nat wn), wn)]; simpl;
      (split; [reflexivity|]); (split; [|reflexivity]);
      by apply Forall_singleton.
Qed.

Lemma patch_region_width isz stride ds region total s :
  wp (patch_region isz stride ds region total)
     (fun total' s' => swaps_of_width isz s s' /\
                       (isz <> 2 -> isz <> 4 -> s' = s /\ total' = total))
     (fun _ s' => swaps_of_width isz s s' /\ (isz = 2 \/ isz = 4)) s.
Proof.
  unfold patch_region. destruct region as [base count].
  destruct (Z.eqb_spec isz 2) as [->|H2];
    [|destruct (Z.eqb_spec isz 4) as [->|H4]].
  - wp_step; [wp_step; split; [apply swaps_of_width_refl | lia]|].
    wp_call (swap_loop_width 2); [|auto].
    intros _ s' H. wp_step. split; [exact H | lia].
  - wp_step; [wp_step; split; [apply swaps_of_width_refl | lia]|].
    wp_call (swap_loop_width 4); [|auto].
    intros _ s' H. wp_step. split; [exact H | lia].
  - wp_step. split; [apply swaps_of_width_refl | done].
Qed.

Lemma patch_regions_width isz stride ds regions : forall total s,
  wp (patch_regions isz stride ds regions total)
     (fun total' s' => swaps_of_width isz s s' /\
                       (isz <> 2 -> isz <> 4 -> s' = s /\ total' = total))
     (fun _ s' => swaps_of_width isz s s' /\ (isz = 2 \/ isz = 4)) s.
Proof.
  induction regions as [|r rest IH]; intros total s; cbn [patch_regions].
  - wp_step. split; [apply swaps_of_width_refl | done].
  - wp_call patch_region_width; [|auto].
    intros t1 s1 [H1 Hsame].
    eapply wp_mono; [apply IH | cbv beta | cbv beta].
    + intros t2 s2 [H2 Hsame2].
      split; [by eapply swaps_of_width_trans|].
      intros N2 N4. destruct (Hsame2 N2 N4) as [-> ->]. by apply Hsame.
    + intros _ s2 [H2 Hw]. split; [by eapply swaps_of_width_trans | exact Hw].
Qed.

(** the Stream Patcher on a record whose counts and first element format
    can be read: the width it prints and patches with *)
Lemma patcher_width sid s p0 nr ne w :
  py_index (object_offsets s) sid = Some p0 ->
  unpack1 4 (data s) (p0 + 8) = Some nr ->
  unpack1 4 (data s) (p0 + 12 + 8 * nr) = Some ne ->
  (ne <= 0 /\ w = 2 \/
   0 < ne /\
   exists ed, unpack1 4 (data s) (p0 + 16 + 8 * nr) = Some ed /\
              w = if (data_type ed =? 10) || (data_type ed =? 11)
                  then 4 else item_size ed) ->
  wp (fix_datastream_winding sid)
     (fun _ s' =>
        (exists sz n tl,
           stdout s' = stdout s ++ PStream sid sz n w :: tl /\
           (tl = [] \/ exists t, tl = [PReversed t])) /\
        (exists new, swaps s' = swaps s ++ new /\
                     Forall (fun sw => Z.of_nat sw.2 = w) new) /\
        (w <> 2 -> w <> 4 -> buffer_view s' = buffer_view s))
     (fun _ s' =>
        (stdout s' = stdout s \/
         exists sz n, stdout s' = stdout s ++ [PStream sid sz n w]) /\
        (exists new, swaps s' = swaps s ++ new /\
                     Forall (fun sw => Z.of_nat sw.2 = w) new) /\
        (w <> 2 -> w <> 4 -> buffer_view s' = buffer_view s)) s.
Proof.
  intros Hp0 Hnr Hne Hw.
  assert (Hnr0 : 0 <= nr) by (apply unpack1_range in Hnr; lia).
  assert (Hquiet : forall q,
            (stdout (set_pos q s) = stdout s \/
             exists sz n, stdout (set_pos q s)
                          = stdout s ++ [PStream sid sz n w]) /\
            (exists new, swaps (set_pos q s) = swaps s ++ new /\
                         Forall (fun sw => Z.of_nat sw.2 = w) new) /\
            (w <> 2 -> w <> 4 ->
             buffer_view (set_pos q s) = buffer_view s)).
  { intros q. split; [by left|]. split; [|done].
    exists []. split; [by rewrite app_nil_r | constructor]. }
  unfold fix_datastream_winding. wp_step. rewrite Hp0. apply wp_try_Some.
  wp_step.
  wp_call read_uint_move; [|intros _ s' ->; apply Hquiet].
  intros stream_size s' [_ ->].
  wp_call read_uint_move; [|intros _ s' ->; apply Hquiet].
  intros stream_clone s' [_ ->].
  wp_call read_uint_move; [|intros _ s' ->; apply Hquiet].
  intros nr' s' [Hnr' ->].
  replace (p0 + 4 + 4) with (p0 + 8) in Hnr' by lia.
  rewrite Hnr in Hnr'. injection Hnr' as <-.
  wp_call (regions_loop_cursor nr (p0 + 4 + 4 + 4) s Hnr0);
    [|intros _ s' [q ->]; apply Hquiet].
  intros regions s' ->.
  wp_call read_uint_move; [|intros _ s' ->; apply Hquiet].
  intros ne' s' [Hne' ->].
  replace (p0 + 4 + 4 + 4 + 8 * nr) with (p0 + 12 + 8 * nr) in Hne' by lia.
  rewrite Hne in Hne'. injection Hne' as <-.
  wp_call (elem_loop_width ne (p0 + 4 + 4 + 4 + 8 * nr + 4) s w).
  { replace (p0 + 4 + 4 + 4 + 8 * nr + 4) with (p0 + 16 + 8 * nr) by lia.
    exact Hw. }
  2: { intros _ s' [q ->]. apply Hquiet. }
  intros [isz stride] s' [Hisz [q ->]]. cbn [fst] in Hisz. subst isz.
  wp_step. wp_step.
  set (s2 := set_stdout _ _).
  assert (Ho2 : stdout s2
                = stdout s ++ [PStream sid stream_size
                                 (Z.of_nat (length regions)) w])
    by reflexivity.
  assert (Hs2 : swaps s2 = swaps s) by reflexivity.
  assert (Hb2 : buffer_view s2 = buffer_view s) by reflexivity.
  clearbody s2.
  wp_call patch_regions_width.
  - intros total s3 [(new & Hn & Hall & Ho3) Hsame].
    assert (Hnew : exists new, swaps s3 = swaps s ++ new /\
                     Forall (fun sw => Z.of_nat sw.2 = w) new)
      by (exists new; split; [congruence | exact Hall]).
    wp_step.
    + wp_step. wp_step. simpl. rewrite Ho3, Ho2, <- app_assoc. simpl.
      split; [eexists _, _, _; split; [reflexivity | right; eauto]|].
      split; [exact Hnew|].
      intros N2 N4. destruct (Hsame N2 N4) as [_ ->]. discriminate Heqb.
    + wp_step. rewrite Ho3, Ho2.
      split; [eexists _, _, _; split; [reflexivity | by left]|].
      split; [exact Hnew|].
      intros N2 N4. destruct (Hsame N2 N4) as [-> _]. exact Hb2.
  - intros _ s3 [(new & Hn & Hall & Ho3) H24].
    split; [right; rewrite Ho3, Ho2; eauto|].
    split; [exists new; split; [congruence | exact Hall]|].
    intros N2 N4. lia.
Qed.

(** C1, as the code has it.  For a stream record whose number of regions,
    number of element formats and first element format can be read, the
    Stream Patcher works with one index width: 4 when the first format's
    dataTypeCode is 10 or 11, the first format's itemByteSize otherwise, and
    2 when there is no element format.  It prints that width at line 278,
    every triple it swaps has fields of that width, and when the width is
    neither 2 nor 4 it changes nothing.  The same is said of the loop over
    the element formats and of the step for one region. *)
Theorem index_width_from_first_element :
  (forall stream_idx s p0 nr ne w,
      py_index (object_offsets s) stream_idx = Some p0 ->
      unpack1 4 (data s) (p0 + 8) = Some nr ->
      unpack1 4 (data s) (p0 + 12 + 8 * nr) = Some ne ->
      (ne = 0 /\ w = 2 \/
       0 < ne /\
       exists ed, unpack1 4 (data s) (p0 + 16 + 8 * nr) = Some ed /\
                  w = if (data_type ed =? 10) || (data_type ed =? 11)
                      then 4 else item_size ed) ->
      let sf := final (fix_datastream_winding stream_idx s) in
      (exists lines,
         stdout sf = stdout s ++ lines /\
         forall i sz n isz,
           PStream i sz n isz ∈ lines -> i = stream_idx /\ isz = w) /\
      (forall u s',
         fix_datastream_winding stream_idx s = Ret u s' ->
         exists sz n, PStream stream_idx sz n w ∈ stdout s') /\
      (exists new, swaps sf = swaps s ++ new /\
                   Forall (fun sw => Z.of_nat sw.2 = w) new) /\
      (w <> 2 -> w <> 4 ->
       data sf = data s /\ modified sf = modified s /\ swaps sf = swaps s)) /\
  (forall s n index_size elem_stride s',
      fold_range n elem_step (2, 0) s = Ret (index_size, elem_stride) s' ->
      (n <= 0 -> index_size = 2) /\
      (0 < n ->
       exists v, unpack1 4 (data s) (pos s) = Some v /\
                 index_size = if (data_type v =? 10) || (data_type v =? 11)
                              then 4 else item_size v)) /\
  (forall index_size elem_stride data_start region total s,
      index_size <> 2 -> index_size <> 4 ->
      patch_region index_size elem_stride data_start region total s
      = Ret total s).
Proof.
  split; [|split].
  - intros sid s p0 nr ne w Hp0 Hnr Hne Hw sf.
    assert (Hw' : ne <= 0 /\ w = 2 \/
                  0 < ne /\
                  exists ed, unpack1 4 (data s) (p0 + 16 + 8 * nr) = Some ed /\
                             w = if (data_type ed =? 10) || (data_type ed =? 11)
                                 then 4 else item_size ed).
    { destruct Hw as [[-> ->]|H]; [left; split; [lia | done] | by right]. }
    pose proof (patcher_width sid s p0 nr ne w Hp0 Hnr Hne Hw') as W.
    unfold wp in W. unfold sf.
    destruct (fix_datastream_winding sid s) as [u s'|e s']; simpl.
    + destruct W as ((sz & n & tl & Ho & Htl) & Hnew & Hsame).
      split; [|split; [|split]].
      * exists (PStream sid sz n w :: tl). split; [exact Ho|].
        intros i sz' n' isz [H|H]%elem_of_cons.
        -- by injection H as -> _ _ ->.
        -- destruct Htl as [->|[t ->]]; [by apply elem_of_nil in H|].
           apply list_elem_of_singleton in H. discriminate H.
      * intros u' s'' [= _ <-]. exists sz, n. rewrite Ho.
        apply elem_of_app. right. apply list_elem_of_here.
      * exact Hnew.
      * intros N2 N4. specialize (Hsame N2 N4). unfold buffer_view in Hsame.
        by injection Hsame as -> -> ->.
    + destruct W as (Ho & Hnew & Hsame).
      split; [|split; [|split]].
      * destruct Ho as [Ho|(sz & n & Ho)].
        -- exists []. split; [by rewrite app_nil_r|].
           intros i sz n isz H. by apply elem_of_nil in H.
        -- exists [PStream sid sz n w]. split; [exact Ho|].
           intros i sz' n' isz H%list_elem_of_singleton.
           by injection H as -> _ _ ->.
      * intros u s'' H. discriminate H.
      * exact Hnew.
      * intros N2 N4. specialize (Hsame N2 N4). unfold buffer_view in Hsame.
        by injection Hsame as -> -> ->.
  - intros s n isz stride s' H. unfold fold_range in H. split; intros Hn.
    + replace (Z.to_nat n) with 0%nat in H by lia.
      simpl in H. by injection H as <- _ _.
    + destruct (Z.to_nat n) as [|k] eqn:Ek; [lia|].
      cbn [fold_range_from] in H. unfold elem_step at 1 in H.
      unfold read_uint at 1 in H. walk H.
      apply elem_loop_keeps_width in H; [|lia]. simpl in H.
      eexists. split; [reflexivity | exact H].
  - intros isz stride ds [base count] total s H2 H4. unfold patch_region.
    destruct (isz =? 2) eqn:E2; [lia|].
    destruct (isz =? 4) eqn:E4; [lia|]. reflexivity.
Qed.

(** C1 on the stream record of [Sample.wide_indices], at offset 131: one
    region, one element format of itemByteSize 4 and dataTypeCode 5 at
    offset 155; and on a region for a width of 1. *)
Lemma index_width_witness :
  swaps (final (fix_datastream_winding 1 wide_indices_parsed))
  = [(159, 4%nat)] /\
  (exists new,
     swaps (final (fix_datastream_winding 1 wide_indices_parsed))
     = swaps wide_indices_parsed ++ new /\
     Forall (fun sw => Z.of_nat sw.2 = 4) new) /\
  (exists sz n,
     PStream 1 sz n 4
     ∈ stdout (final (fix_datastream_winding 1 wide_indices_parsed))) /\
  (forall total s, patch_region 1 4 159 (0, 3) total s = Ret total s).
Proof.
  destruct index_width_from_first_element as (Hrec & _ & Hother).
  destruct (Hrec 1 wide_indices_parsed 131 1 1 4) as (_ & Hline & Hnew & _).
  - vm_compute. reflexivity.
  - vm_compute. reflexivity.
  - vm_compute. reflexivity.
  - right. split; [lia|]. exists (Sample.elem_format 1 4 5).
    split; vm_compute; reflexivity.
  - split; [vm_compute; reflexivity|]. split; [exact Hnew|].
    split.
    + set (sf := final (fix_datastream_winding 1 wide_indices_parsed)).
      apply (Hline tt sf). vm_compute. reflexivity.
    + intros total s. apply Hother; lia.
Defined.
